(** * A shallow embedding of the MQT circuit optimizer passes

    The operation model of [qc::Operation] and its subclasses, the
    [NonUnitaryOperation] constructors and [actsOn], and the
    [CircuitOptimizer] passes [removeIdentities], [swapReconstruction],
    [decomposeSWAP], [deferMeasurements], [isDynamicCircuit],
    [reorderOperations] and [collectBlocks] (with its [DSU]).

    Conventions of the embedding:
    - a qubit ([qc::Qubit]) and a classical bit index are [nat];
    - the circuit's operation vector is a [list Operation]; a pointer to a
      slot of that vector ([std::unique_ptr<Operation>*], as held by the
      lane DAG and by the DSU) is the slot's index;
    - an exception ([QFRException], [std::invalid_argument],
      [std::out_of_range]) is an [Err] of the [Result] type; an access
      through a moved-from (null) pointer, and a loop that can never make
      progress again, are errors of their own;
    - [std::set] of qubits is a sorted duplicate-free [list nat]. *)

From Stdlib Require Import ZArith Sorted.
From stdpp Require Import base list gmap sets sorting.

Set Warnings "-register-all".

(* ------------------------------------------------------------------ *)
(** ** Operation types and operations *)

Module OpType.

Inductive t :=
| I | H | X | Y | Z | S | Sdg | T | Tdg | V | Vdg | U3 | U2 | Phase
| SX | SXdg | RX | RY | RZ | SWAP | iSWAP | Peres | Peresdg
| Compound | Measure | Reset | Snapshot | ShowProbabilities | Barrier
| Teleportation | ClassicControlled.

#[global] Instance eq_dec : EqDecision t.
Proof. solve_decision. Defined.

End OpType.

Inductive ControlType := Pos | Neg.

#[global] Instance ControlType_eq_dec : EqDecision ControlType.
Proof. solve_decision. Defined.

(** [qc::Control]: a control qubit with its polarity ([Control{q}] is
    positive). *)
Record Control := mkControl { cqubit : nat; ctype : ControlType }.

#[global] Instance Control_eq_dec : EqDecision Control.
Proof. solve_decision. Defined.

(** The operation class hierarchy as a closed variant type.
    - [StandardOperation ty controls targets]: a gate;
    - [NonUnitaryOperation ty targets qubits classics]: the fields
      [targets] (inherited from [Operation]), [qubits] and [classics] of
      [NonUnitaryOperation];
    - [CompoundOperation ops]: the owned child operations;
    - [ClassicControlledOperation op (start, length) expectedValue]: the
      wrapped operation, the classical control register and the expected
      value.
    Gate parameters are not modelled: no pass below inspects them. *)
Inductive Operation :=
| StandardOperation (ty : OpType.t) (controls : list Control) (targets : list nat)
| NonUnitaryOperation (ty : OpType.t) (targets : list nat) (qubits : list nat)
    (classics : list nat)
| CompoundOperation (ops : list Operation)
| ClassicControlledOperation (op : Operation) (controlRegister : nat * nat)
    (expectedValue : nat).

(** [std::set<Qubit>]: sorted, without duplicates. *)
Fixpoint set_insert (x : nat) (s : list nat) : list nat :=
  match s with
  | [] => [x]
  | y :: s' => if x <? y then x :: s else if x =? y then s else y :: set_insert x s'
  end.

Definition to_set (l : list nat) : list nat := fold_right set_insert [] l.

Definition getType (op : Operation) : OpType.t :=
  match op with
  | StandardOperation ty _ _ => ty
  | NonUnitaryOperation ty _ _ _ => ty
  | CompoundOperation _ => OpType.Compound
  | ClassicControlledOperation _ _ _ => OpType.ClassicControlled
  end.

(** [getControls] / [getTargets].  The overrides live in the headers,
    which are not part of the sources: modelled from the spec.  A Measure
    reports its measured qubits as targets (the spec pairs a Measure's
    target qubits 1:1 with its classical bits, and [deferMeasurements]
    reads the measured qubit from [getTargets]); a Compound has no controls
    or targets of its own (its qubits are its children's, see
    [getUsedQubits]); a ClassicControlledOperation reports those of the
    operation it wraps. *)
Fixpoint getControls (op : Operation) : list Control :=
  match op with
  | StandardOperation _ cs _ => cs
  | ClassicControlledOperation o _ _ => getControls o
  | _ => []
  end.

Fixpoint getTargets (op : Operation) : list nat :=
  match op with
  | StandardOperation _ _ ts => ts
  | NonUnitaryOperation ty ts qs _ => if decide (ty = OpType.Measure) then qs else ts
  | CompoundOperation _ => []
  | ClassicControlledOperation o _ _ => getTargets o
  end.

Definition getNcontrols (op : Operation) : nat := length (getControls op).

Definition isStandardOperation (op : Operation) : bool :=
  match op with StandardOperation _ _ _ => true | _ => false end.

Definition isCompoundOperation (op : Operation) : bool :=
  match op with CompoundOperation _ => true | _ => false end.

Definition isClassicControlledOperation (op : Operation) : bool :=
  match op with ClassicControlledOperation _ _ _ => true | _ => false end.

(** Modelled from the spec and from the sources' own use of it
    ([removeFinalMeasurements] handles operations that are both Compound
    and non-unitary): a Compound is non-unitary when one of its children
    is, and unitary when all of them are. *)
Fixpoint isNonUnitaryOperation (op : Operation) : bool :=
  match op with
  | NonUnitaryOperation _ _ _ _ => true
  | CompoundOperation ops => existsb isNonUnitaryOperation ops
  | _ => false
  end.

Fixpoint isUnitary (op : Operation) : bool :=
  match op with
  | StandardOperation _ _ _ => true
  | CompoundOperation ops => forallb isUnitary ops
  | _ => false
  end.

Definition nat_mem (q : nat) (l : list nat) : bool := existsb (Nat.eqb q) l.

(** [NonUnitaryOperation::actsOn] (NonUnitaryOperation.cpp, l. 236-243). *)
Definition actsOnNonUnitary (ty : OpType.t) (targets qubits : list nat) (i : nat) : bool :=
  if decide (ty = OpType.Measure) then nat_mem i qubits
  else if decide (ty = OpType.Reset) then nat_mem i targets
  else false.

(** [actsOn] of the other classes (headers, modelled from the spec): a
    gate acts on its targets and controls, a Compound on the qubits its
    children act on, a ClassicControlledOperation on those of its
    operation. *)
Fixpoint actsOn (op : Operation) (i : nat) : bool :=
  match op with
  | StandardOperation _ cs ts => nat_mem i ts || nat_mem i (map cqubit cs)
  | NonUnitaryOperation ty ts qs _ => actsOnNonUnitary ty ts qs i
  | CompoundOperation ops => existsb (fun o => actsOn o i) ops
  | ClassicControlledOperation o _ _ => actsOn o i
  end.

(** [getUsedQubits]: the set of control and target qubits, for a Compound
    the union over its children. *)
Fixpoint getUsedQubits (op : Operation) : list nat :=
  match op with
  | CompoundOperation ops => to_set (concat (map getUsedQubits ops))
  | _ => to_set (map cqubit (getControls op) ++ getTargets op)
  end.

(* ------------------------------------------------------------------ *)
(** ** Exceptions *)

Inductive Error :=
| UnexpectedOperation          (* QFRException "Unexpected operation encountered" *)
| MultiTargetMeasurement       (* deferMeasurements: measurement with >1 target *)
| MultiBitClassicControl       (* deferMeasurements: register of >1 bit *)
| ResetInDeferral              (* deferMeasurements: Reset encountered *)
| UnderlyingNotStandard        (* deferMeasurements: wrapped op not standard *)
| ImplicitReset                (* deferMeasurements: target = measured qubit *)
| InvalidArgument              (* std::invalid_argument *)
| OutOfRange                   (* std::out_of_range from vector::at *)
| NullDereference              (* use of a moved-from unique_ptr *)
| NoProgress                   (* a loop whose state no longer changes *)
| OutOfFuel.                   (* iteration bound of the embedding reached *)

Inductive Result (A : Type) := Ok (a : A) | Err (e : Error).
Arguments Ok {A} a.
Arguments Err {A} e.

Definition res_bind {A B} (m : Result A) (k : A -> Result B) : Result B :=
  match m with Ok a => k a | Err e => Err e end.

Notation "'let*' x ':=' m 'in' k" := (res_bind m (fun x => k))
  (at level 200, x name, m at level 100, k at level 200).

(** [std::vector::at]. *)
Definition vat {A} (l : list A) (i : nat) : Result A :=
  match l !! i with Some a => Ok a | None => Err OutOfRange end.

(* ------------------------------------------------------------------ *)
(** ** [NonUnitaryOperation] constructors (NonUnitaryOperation.cpp, l. 11-42) *)

Inductive NonUnitaryCtor :=
| MeasureRegisterCtor (nq : nat) (qubitRegister classicalRegister : list nat)
| MeasureSingleCtor (nq : nat) (qubit clbit : nat)
| SnapshotCtor (nq : nat) (qubitRegister : list nat) (n : nat)
| GeneralCtor (nq : nat) (qubitRegister : list nat) (op : OpType.t).

Definition construct (c : NonUnitaryCtor) : Result Operation :=
  match c with
  | MeasureRegisterCtor _ qs cs =>
      if negb (length qs =? length cs) then Err InvalidArgument
      else Ok (NonUnitaryOperation OpType.Measure [] qs cs)
  | MeasureSingleCtor _ q c => Ok (NonUnitaryOperation OpType.Measure [] [q] [c])
  | SnapshotCtor _ qs _ => Ok (NonUnitaryOperation OpType.Snapshot qs [] [])
  | GeneralCtor _ qs ty => Ok (NonUnitaryOperation ty qs [] [])
  end.

(* ------------------------------------------------------------------ *)
(** ** The circuit *)

(** [QuantumComputation]: the operation vector and the initial layout
    (physical -> logical, a [std::map]). *)
Record QuantumComputation := mkQC {
  qc_ops : list Operation;
  initialLayout : list (nat * nat)
}.

Definition with_ops (qc : QuantumComputation) (ops : list Operation) : QuantumComputation :=
  mkQC ops (initialLayout qc).

(** [highestPhysicalQubit]: the largest key of the initial layout (0 when
    empty). *)
Definition highestPhysicalQubit (qc : QuantumComputation) : nat :=
  fold_left (fun m q => Nat.max (fst q) m) (initialLayout qc) 0.

(* ------------------------------------------------------------------ *)
(** ** [CircuitOptimizer::removeIdentities] *)

Definition isIdentity (op : Operation) : bool :=
  if decide (getType op = OpType.I) then true else false.

(** The loop over [qc.ops]: an identity is erased; a Compound loses its
    identity children, is erased when it becomes empty and replaced by its
    only child when one is left; everything else is kept. *)
Fixpoint removeIdentitiesOps (ops : list Operation) : list Operation :=
  match ops with
  | [] => []
  | op :: rest =>
      if isIdentity op then removeIdentitiesOps rest
      else match op with
           | CompoundOperation cops =>
               match filter (fun c => negb (isIdentity c)) cops with
               | [] => removeIdentitiesOps rest
               | [c] => c :: removeIdentitiesOps rest
               | cops' => CompoundOperation cops' :: removeIdentitiesOps rest
               end
           | _ => op :: removeIdentitiesOps rest
           end
  end.

Definition removeIdentities (qc : QuantumComputation) : QuantumComputation :=
  with_ops qc (removeIdentitiesOps (qc_ops qc)).

(* ------------------------------------------------------------------ *)
(** ** [CircuitOptimizer::decomposeSWAP] *)

Definition cnot (control target : nat) : Operation :=
  StandardOperation OpType.X [mkControl control Pos] [target].

Definition hadamard (target : nat) : Operation :=
  StandardOperation OpType.H [] [target].

(** The operations inserted for a SWAP on [targets[0] = t0],
    [targets[1] = t1]; each [insert] puts its operation in front of the
    previously inserted one, so the list reads the inserts backwards. *)
Definition swapReplacement (directed : bool) (t0 t1 : nat) : list Operation :=
  let last := [cnot t0 t1] in
  let middle :=
    if directed
    then hadamard t1 :: hadamard t0 :: cnot t0 t1 :: hadamard t1 :: hadamard t0 :: last
    else cnot t1 t0 :: last in
  cnot t0 t1 :: middle.

(** One slot: a standard SWAP is replaced; [targets[0]] and [targets[1]]
    of a SWAP with fewer targets read outside the vector. *)
Definition decomposeSWAPOp (directed : bool) (op : Operation) : Result (list Operation) :=
  match op with
  | StandardOperation OpType.SWAP _ ts =>
      match ts with
      | t0 :: t1 :: _ => Ok (swapReplacement directed t0 t1)
      | _ => Err OutOfRange
      end
  | _ => Ok [op]
  end.

Fixpoint res_concat_map {A B} (f : A -> Result (list B)) (l : list A) : Result (list B) :=
  match l with
  | [] => Ok []
  | a :: l' => let* x := f a in let* y := res_concat_map f l' in Ok (x ++ y)
  end.

(** The top-level loop; the inserted operations are visited by the loop
    but are not SWAPs, so each original slot is handled once.  A Compound's
    children are handled by the inner loop, one level deep. *)
Definition decomposeSWAPOps (directed : bool) (ops : list Operation) : Result (list Operation) :=
  res_concat_map
    (fun op =>
       match op with
       | StandardOperation _ _ _ => decomposeSWAPOp directed op
       | CompoundOperation cops =>
           let* cops' := res_concat_map (decomposeSWAPOp directed) cops in
           Ok [CompoundOperation cops']
       | _ => Ok [op]
       end) ops.

Definition decomposeSWAP (qc : QuantumComputation) (directed : bool) : Result QuantumComputation :=
  let* ops := decomposeSWAPOps directed (qc_ops qc) in Ok (with_ops qc ops).

(* ------------------------------------------------------------------ *)
(** ** The lane DAG *)

(** [DAG]: one lane per qubit; a lane holds slot indices of [qc.ops]. *)
Abbreviation DAG := (list (list nat)).

Definition emptyDAG (n : nat) : DAG := repeat [] n.

(** [dag.at(q).push_back(x)]. *)
Definition dag_push {A} (dag : list (list A)) (q : nat) (x : A) : Result (list (list A)) :=
  match dag !! q with
  | Some l => Ok (<[q := l ++ [x]]> dag)
  | None => Err OutOfRange
  end.

Fixpoint dag_push_all {A} (dag : list (list A)) (qs : list nat) (x : A) : Result (list (list A)) :=
  match qs with
  | [] => Ok dag
  | q :: qs' => let* d := dag_push dag q x in dag_push_all d qs' x
  end.

Definition dag_pop_back (dag : DAG) (q : nat) : Result DAG :=
  match dag !! q with
  | Some l => Ok (<[q := removelast l]> dag)
  | None => Err OutOfRange
  end.

(** [addToDag]: the slot goes to every control lane, then every target
    lane. *)
Definition addToDag (dag : DAG) (op : Operation) (i : nat) : Result DAG :=
  dag_push_all dag (map cqubit (getControls op) ++ getTargets op) i.

(** [addNonStandardOperationToDag]. *)
Definition addNonStandardOperationToDag (dag : DAG) (op : Operation) (i : nat) : Result DAG :=
  match op with
  | CompoundOperation _ => dag_push_all dag (getUsedQubits op) i
  | NonUnitaryOperation _ _ _ _ => dag_push_all dag (getTargets op) i
  | ClassicControlledOperation cop _ _ =>
      dag_push_all dag (map cqubit (getControls cop) ++ getTargets cop) i
  | _ => Err UnexpectedOperation
  end.

Definition addOperationToDag (dag : DAG) (op : Operation) (i : nat) : Result DAG :=
  if isStandardOperation op then addToDag dag op i
  else addNonStandardOperationToDag dag op i.

Fixpoint res_fold_left {A B} (f : A -> B -> Result A) (l : list B) (a : A) : Result A :=
  match l with
  | [] => Ok a
  | b :: l' => let* a' := f a b in res_fold_left f l' a'
  end.

(** [constructDAG]: every slot in program order. *)
Definition constructDAG (qc : QuantumComputation) : Result DAG :=
  res_fold_left
    (fun dag i => match qc_ops qc !! i with
                  | Some op => addOperationToDag dag op i
                  | None => Ok dag
                  end)
    (seq 0 (length (qc_ops qc))) (emptyDAG (S (highestPhysicalQubit qc))).

(* ------------------------------------------------------------------ *)
(** ** [CircuitOptimizer::swapReconstruction] *)

(** [getType() == X && getNcontrols() == 1 && controls.begin()->type == Pos];
    the result is the control qubit. *)
Definition posCNOTControl (op : Operation) : option nat :=
  match op with
  | StandardOperation OpType.X [c] _ =>
      match ctype c with Pos => Some (cqubit c) | Neg => None end
  | _ => None
  end.

Definition setGate (op : Operation) (ty : OpType.t) : Operation :=
  match op with
  | StandardOperation _ cs ts => StandardOperation ty cs ts
  | _ => op
  end.

Definition clearControls (op : Operation) : Operation :=
  match op with
  | StandardOperation ty _ ts => StandardOperation ty [] ts
  | _ => op
  end.

Definition setTargets (op : Operation) (ts : list nat) : Operation :=
  match op with
  | StandardOperation ty cs _ => StandardOperation ty cs ts
  | _ => op
  end.

Definition setControls (op : Operation) (cs : list Control) : Operation :=
  match op with
  | StandardOperation ty _ ts => StandardOperation ty cs ts
  | _ => op
  end.

(** One iteration of the loop over [qc.ops], at slot [i]. *)
Definition swapReconstructionStep (st : list Operation * DAG) (i : nat)
  : Result (list Operation * DAG) :=
  let '(ops, dag) := st in
  let* op := vat ops i in
  let add := let* d := addToDag dag op i in Ok (ops, d) in
  if negb (isStandardOperation op) then
    let* d := addNonStandardOperationToDag dag op i in Ok (ops, d)
  else
  match posCNOTControl op with
  | None => add
  | Some control =>
    let* target := vat (getTargets op) 0 in
    let* laneC := vat dag control in
    let* laneT := vat dag target in
    match last laneC, last laneT with
    | Some jC, Some jT =>
      let* opC := vat ops jC in
      let* opT := vat ops jT in
      match posCNOTControl opC, posCNOTControl opT with
      | Some opCcontrol, Some opTcontrol =>
        let* opCtarget := vat (getTargets opC) 0 in
        let* opTtarget := vat (getTargets opT) 0 in
        if negb ((opCcontrol =? opTcontrol) && (opCtarget =? opTtarget)) then add
        else if (control =? opCcontrol) && (target =? opCtarget) then
          (* elimination *)
          let* d1 := dag_pop_back dag control in
          let* d2 := dag_pop_back d1 target in
          let ops1 := <[jC := clearControls (setGate opC OpType.I)]> ops in
          let ops2 := <[i := clearControls (setGate op OpType.I)]> ops1 in
          Ok (ops2, d2)
        else if (control =? opCtarget) && (target =? opCcontrol) then
          (* replace with SWAP + CNOT *)
          let* d1 := dag_pop_back dag control in
          let* d2 := dag_pop_back d1 target in
          let swapTargets := if control <? target then [control; target] else [target; control] in
          let opC' := clearControls (setTargets (setGate opC OpType.SWAP) swapTargets) in
          let ops1 := <[jC := opC']> ops in
          let* d3 := addToDag d2 opC' jC in
          let op' := setControls (setTargets op [control]) [mkControl target Pos] in
          let ops2 := <[i := op']> ops1 in
          let* d4 := addToDag d3 op' i in
          Ok (ops2, d4)
        else add
      | _, _ => add
      end
    | _, _ => add
    end
  end.

Definition swapReconstruction (qc : QuantumComputation) : Result QuantumComputation :=
  let* st := res_fold_left swapReconstructionStep (seq 0 (length (qc_ops qc)))
               (qc_ops qc, emptyDAG (S (highestPhysicalQubit qc))) in
  Ok (removeIdentities (with_ops qc (fst st))).

(* ------------------------------------------------------------------ *)
(** ** [CircuitOptimizer::isDynamicCircuit] *)

(** The lanes of this pass hold the operations themselves (top-level ones
    and the children of top-level Compounds); only their kinds are read. *)
Definition addToOpDag (dag : list (list Operation)) (op : Operation)
  : Result (list (list Operation)) :=
  dag_push_all dag (map cqubit (getControls op) ++ getTargets op) op.

(** The children of a Compound; [None] is the early [return true]. *)
Fixpoint dynamicScanCompound (cops : list Operation) (dag : list (list Operation))
  (hasMeasurements : bool) : Result (option (list (list Operation) * bool)) :=
  match cops with
  | [] => Ok (Some (dag, hasMeasurements))
  | op :: rest =>
      if bool_decide (getType op = OpType.Reset) || isClassicControlledOperation op then Ok None
      else
        let hasM := hasMeasurements || bool_decide (getType op = OpType.Measure) in
        let* d := (if isNonUnitaryOperation op then dag_push_all dag (getTargets op) op
                   else addToOpDag dag op) in
        dynamicScanCompound rest d hasM
  end.

(** The loop over [qc.ops]. *)
Fixpoint dynamicScan (ops : list Operation) (dag : list (list Operation))
  (hasMeasurements : bool) : Result (option (list (list Operation) * bool)) :=
  match ops with
  | [] => Ok (Some (dag, hasMeasurements))
  | op :: rest =>
      if negb (isStandardOperation op) then
        if isNonUnitaryOperation op then
          if decide (getType op = OpType.Reset) then Ok None
          else
            let hasM := hasMeasurements || bool_decide (getType op = OpType.Measure) in
            let* d := dag_push_all dag (getTargets op) op in
            dynamicScan rest d hasM
        else if isClassicControlledOperation op then Ok None
        else match op with
             | CompoundOperation cops =>
                 let* r := dynamicScanCompound cops dag hasMeasurements in
                 match r with
                 | None => Ok None
                 | Some (d, hasM) => dynamicScan rest d hasM
                 end
             | _ => dynamicScan rest dag hasMeasurements
             end
      else
        let* d := addToOpDag dag op in
        dynamicScan rest d hasMeasurements
  end.

(** The backward walk over one lane: [(measurement, operation)]. *)
Fixpoint laneWalk (rlane : list Operation) : bool * bool :=
  match rlane with
  | [] => (false, false)
  | op :: rest =>
      if decide (getType op = OpType.Measure) then (true, false)
      else
        let '(m, o) := laneWalk rest in
        (m, o || isStandardOperation op || isClassicControlledOperation op
              || isCompoundOperation op || bool_decide (getType op = OpType.Reset))
  end.

Definition isDynamicCircuit (qc : QuantumComputation) : Result bool :=
  let* r := dynamicScan (qc_ops qc) (repeat [] (S (highestPhysicalQubit qc))) false in
  match r with
  | None => Ok true
  | Some (dag, hasMeasurements) =>
      if negb hasMeasurements then Ok false
      else Ok (existsb (fun lane => let '(m, o) := laneWalk (rev lane) in m && o) dag)
  end.

(* ------------------------------------------------------------------ *)
(** ** [CircuitOptimizer::deferMeasurements] *)

(** [std::vector::insert] at a position. *)
Definition insert_at {A} (i : nat) (x : A) (l : list A) : list A :=
  take i l ++ x :: drop i l.

(** [std::vector::erase] at a position. *)
Definition erase_at {A} (i : nat) (l : list A) : list A :=
  take i l ++ drop (S i) l.

Definition ctype_leb (a b : ControlType) : bool :=
  match a, b with Pos, Neg => false | _, _ => true end.

(** [Controls::emplace]: [std::set<Control>] ordered by qubit, then type
    ([Neg] before [Pos]). *)
Fixpoint control_insert (c : Control) (cs : list Control) : list Control :=
  match cs with
  | [] => [c]
  | d :: cs' =>
      if cqubit c <? cqubit d then c :: cs
      else if cqubit d <? cqubit c then d :: control_insert c cs'
      else if decide (ctype c = ctype d) then cs
      else if ctype_leb (ctype c) (ctype d) then c :: cs
      else d :: control_insert c cs'
  end.

Definition list_nat_eqb (a b : list nat) : bool := bool_decide (a = b).

(** The inner loop over the operations following a removed measurement
    of qubit [mq] into bit [mb]; returns the operations and the outer
    iterator [it].  A non-unitary operation other than a Reset, a Measure
    or a classic-controlled operation leaves the loop state unchanged,
    and the loop then repeats forever. *)
Fixpoint deferInner (fuel : nat) (ops : list Operation) (it opIt cp : nat)
  (mq mb : nat) (targets classics : list nat) : Result (list Operation * nat) :=
  match fuel with
  | 0 => Err OutOfFuel
  | S fuel' =>
    match ops !! opIt with
    | None => Ok (ops, it)
    | Some operation =>
      if isUnitary operation then
        deferInner fuel' ops it (S opIt) (if actsOn operation mq then cp else S cp)
          mq mb targets classics
      else if decide (getType operation = OpType.Reset) then Err ResetInDeferral
      else
      match operation with
      | NonUnitaryOperation OpType.Measure _ _ classics2 =>
          if list_nat_eqb targets (getTargets operation) && list_nat_eqb classics classics2
          then Ok (ops, it)
          else deferInner fuel' ops it (S opIt) (S cp) mq mb targets classics
      | ClassicControlledOperation cop (regStart, regLen) expectedValue =>
          if negb (regLen =? 1) && (expectedValue <=? 1) then Err MultiBitClassicControl
          else if regStart =? mb then
            match cop with
            | StandardOperation ty ctrls targs =>
                if nat_mem mq targs then Err ImplicitReset
                else
                  let controls := control_insert
                      (mkControl mq (if expectedValue =? 1 then Pos else Neg)) ctrls in
                  let itInvalidated := opIt <=? it in
                  let insertionPointInvalidated := opIt <=? cp in
                  let ops1 := erase_at opIt ops in
                  let it1 := if itInvalidated then opIt else it in
                  let cp1 := if insertionPointInvalidated then opIt else cp in
                  let itInvalidated2 := cp1 <=? it1 in
                  let ops2 := insert_at cp1 (StandardOperation ty controls targs) ops1 in
                  let it2 := if itInvalidated2 then cp1 else it1 in
                  deferInner fuel' ops2 it2 (S cp1) (S cp1) mq mb targets classics
            | _ => Err UnderlyingNotStandard
            end
          else deferInner fuel' ops it (S opIt) (if actsOn operation mq then cp else S cp)
                 mq mb targets classics
      | _ => Err NoProgress
      end
    end
  end.

(** The outer loop; [toAdd] is [qubitsToAddMeasurements]. *)
Fixpoint deferOuter (fuel : nat) (ops : list Operation) (it : nat) (toAdd : gmap nat nat)
  : Result (list Operation * gmap nat nat) :=
  match fuel with
  | 0 => Err OutOfFuel
  | S fuel' =>
    match ops !! it with
    | None => Ok (ops, toAdd)
    | Some op =>
      match op with
      | NonUnitaryOperation OpType.Measure _ _ classics =>
          let targets := getTargets op in
          if negb (length targets =? 1) && negb (length classics =? 1)
          then Err MultiTargetMeasurement
          else if S it =? length ops then Ok (ops, toAdd)
          else
            let* mq := vat targets 0 in
            let* mb := vat classics 0 in
            let ops1 := erase_at it ops in
            let* r := deferInner fuel' ops1 it it it mq mb targets classics in
            deferOuter fuel' (fst r) (S (snd r)) (<[mq := mb]> toAdd)
      | _ => deferOuter fuel' ops (S it) toAdd
      end
    end
  end.

(** After the loops every recorded qubit is measured again at the end
    ([qc.measure(qubit, clbit)]), in the iteration order of the
    [unordered_map], taken here as ascending qubit order; the rebuilt
    I/O mapping does not touch the operations and is not modelled. *)
Definition deferMeasurements (fuel : nat) (qc : QuantumComputation) : Result QuantumComputation :=
  let* r := deferOuter fuel (qc_ops qc) 0 ∅ in
  let '(ops, toAdd) := r in
  Ok (with_ops qc
        (ops ++ map (fun '(q, c) => NonUnitaryOperation OpType.Measure [] [q] [c])
                    (map_to_list toAdd))).

(* ------------------------------------------------------------------ *)
(** ** [CircuitOptimizer::reorderOperations] *)

(** The scheduler reads the lanes of [constructDAG] and [actsOn] of the
    operation in a slot ([acts i q]); [out] collects the moved slots in
    order.  A slot already moved out holds a null [unique_ptr]. *)
Definition lane_at (lanes : DAG) (q : nat) : list nat := default [] (lanes !! q).

Definition cursor_at (cur : list nat) (q : nat) : nat := default 0 (cur !! q).

(** Is [i] at the cursor of every other qubit it acts on?  The qubits are
    checked from the highest down, the check stops at the first failure;
    a cursor already at the end of its lane is dereferenced (only an
    [assert] guards it). *)
Fixpoint executable (lanes : DAG) (acts : nat -> nat -> bool) (cur : list nat)
  (q i : nat) (qbs : list nat) : Result bool :=
  match qbs with
  | [] => Ok true
  | qb :: rest =>
      if negb (qb =? q) && acts i qb then
        match lane_at lanes qb !! cursor_at cur qb with
        | None => Err OutOfRange
        | Some j => if j =? i then executable lanes acts cur q i rest else Ok false
        end
      else executable lanes acts cur q i rest
  end.

Definition advance (cur : list nat) (adv : list nat) : list nat :=
  imap (fun q c => if nat_mem q adv then S c else c) cur.

(** The visit of qubit [q] in one sweep; the flag is [done]. *)
Definition visitQubit (lanes : DAG) (acts : nat -> nat -> bool) (n : nat)
  (st : bool * list nat * list nat) (q : nat) : Result (bool * list nat * list nat) :=
  let '(done, cur, out) := st in
  match lane_at lanes q !! cursor_at cur q with
  | None => Ok st
  | Some i =>
      if nat_mem i out then Err NullDereference
      else
        let qbs := rev (seq 0 n) in
        let* ex := executable lanes acts cur q i qbs in
        if ex then
          let adv := q :: filter (fun qb => negb (qb =? q) && acts i qb) qbs in
          Ok (false, advance cur adv, out ++ [i])
        else Ok (false, cur, out)
  end.

Definition sweep (lanes : DAG) (acts : nat -> nat -> bool) (n : nat)
  (cur out : list nat) : Result (bool * list nat * list nat) :=
  res_fold_left (visitQubit lanes acts n) (rev (seq 0 n)) (true, cur, out).

(** [while (!done)]: at most [fuel] sweeps. *)
Fixpoint schedule (fuel : nat) (lanes : DAG) (acts : nat -> nat -> bool) (n : nat)
  (cur out : list nat) : Result (list nat) :=
  match fuel with
  | 0 => Err OutOfFuel
  | S fuel' =>
      let* r := sweep lanes acts n cur out in
      let '(done, cur', out') := r in
      if done then Ok out' else schedule fuel' lanes acts n cur' out'
  end.

Definition slotActs (ops : list Operation) (i q : nat) : bool :=
  match ops !! i with Some op => actsOn op q | None => false end.

Definition reorderOperations (fuel : nat) (qc : QuantumComputation) : Result QuantumComputation :=
  let* dag := constructDAG qc in
  let n := length dag in
  let* out := schedule fuel dag (slotActs (qc_ops qc)) n (repeat 0 n) [] in
  Ok (with_ops qc (omap (fun i => qc_ops qc !! i) out)).

(* ------------------------------------------------------------------ *)
(** ** [DSU] and [CircuitOptimizer::collectBlocks] *)

(** The circuit during block collection: a slot is [None] once its
    [unique_ptr] has been moved from.  The four maps of [DSU] keep their
    names; [currentBlockInCircuit] holds a slot index or [None]
    ([nullptr]), [currentBlockOperations] a body or [None] (a moved-from
    [unique_ptr<CompoundOperation>]).  [written] records, in order, every
    operation [finalizeBlock] writes back into the circuit. *)
Record BlockState := mkBlockState {
  slots : list (option Operation);
  parent : gmap nat nat;
  bitBlocks : gmap nat (list nat);
  currentBlockInCircuit : gmap nat (option nat);
  currentBlockOperations : gmap nat (option (list Operation));
  written : list Operation
}.

Definition set_slots (st : BlockState) (s : list (option Operation)) : BlockState :=
  mkBlockState s (parent st) (bitBlocks st) (currentBlockInCircuit st)
    (currentBlockOperations st) (written st).
Definition set_parent (st : BlockState) (p : gmap nat nat) : BlockState :=
  mkBlockState (slots st) p (bitBlocks st) (currentBlockInCircuit st)
    (currentBlockOperations st) (written st).
Definition set_bitBlocks (st : BlockState) (b : gmap nat (list nat)) : BlockState :=
  mkBlockState (slots st) (parent st) b (currentBlockInCircuit st)
    (currentBlockOperations st) (written st).
Definition set_anchor (st : BlockState) (a : gmap nat (option nat)) : BlockState :=
  mkBlockState (slots st) (parent st) (bitBlocks st) a
    (currentBlockOperations st) (written st).
Definition set_body (st : BlockState) (o : gmap nat (option (list Operation))) : BlockState :=
  mkBlockState (slots st) (parent st) (bitBlocks st) (currentBlockInCircuit st) o
    (written st).
Definition set_written (st : BlockState) (w : list Operation) : BlockState :=
  mkBlockState (slots st) (parent st) (bitBlocks st) (currentBlockInCircuit st)
    (currentBlockOperations st) w.

(** [bitBlocks[b]] and [currentBlockInCircuit[b]] of a key never
    initialised read as the default values. *)
Definition getBits (st : BlockState) (b : nat) : list nat := default [] (bitBlocks st !! b).
Definition getAnchor (st : BlockState) (b : nat) : option nat :=
  default None (currentBlockInCircuit st !! b).
Definition getBody (st : BlockState) (b : nat) : Result (list Operation) :=
  match currentBlockOperations st !! b with
  | Some (Some l) => Ok l
  | _ => Err NullDereference
  end.

(** A fresh singleton block with an empty body and no anchor. *)
Definition resetQubit (st : BlockState) (i : nat) : BlockState :=
  mkBlockState (slots st) (<[i := i]> (parent st)) (<[i := [i]]> (bitBlocks st))
    (<[i := None]> (currentBlockInCircuit st)) (<[i := Some []]> (currentBlockOperations st))
    (written st).

(** [DSU::findBlock], with path compression; [fuel] bounds the recursion
    along the parent chain. *)
Fixpoint findBlock (fuel : nat) (st : BlockState) (index : nat) : Result (BlockState * nat) :=
  let st := match parent st !! index with None => resetQubit st index | Some _ => st end in
  match parent st !! index with
  | None => Ok (st, index)
  | Some p =>
      if p =? index then Ok (st, index)
      else match fuel with
           | 0 => Err OutOfFuel
           | S fuel' =>
               let* r := findBlock fuel' st p in
               let '(st', root) := r in
               Ok (set_parent st' (<[index := root]> (parent st')), root)
           end
  end.

(** [DSU::blockEmpty]. *)
Definition blockEmpty (fuel : nat) (st : BlockState) (index : nat) : Result (BlockState * bool) :=
  let* r := findBlock fuel st index in
  let '(st', b) := r in
  Ok (st', match getAnchor st' b with None => true | Some _ => false end).

(** [StandardOperation(0, I)]. *)
Definition identityPlaceholder : Operation := StandardOperation OpType.I [] [0].

(** [DSU::unionBlock].  [CompoundOperation::merge] (header, modelled from
    the spec) appends the other body's operations. *)
Definition unionBlock (fuel : nat) (st : BlockState) (block1 block2 : nat) : Result BlockState :=
  let* r1 := findBlock fuel st block1 in
  let '(st1, parent1) := r1 in
  let* r2 := findBlock fuel st1 block2 in
  let '(st2, parent2) := r2 in
  if parent1 =? parent2 then Ok st2
  else
    let* o1 := getBody st2 parent1 in
    let* o2 := getBody st2 parent2 in
    let '(parent1, parent2) :=
      if length o1 <? length o2 then (parent2, parent1) else (parent1, parent2) in
    let* o1 := getBody st2 parent1 in
    let* o2 := getBody st2 parent2 in
    let bits := <[parent1 := getBits st2 parent1 ++ getBits st2 parent2]> (bitBlocks st2) in
    let s := match getAnchor st2 parent2 with
             | Some slot => <[slot := Some identityPlaceholder]> (slots st2)
             | None => slots st2
             end in
    Ok (mkBlockState s (<[parent2 := parent1]> (parent st2))
          (<[parent2 := []]> bits)
          (<[parent2 := None]> (currentBlockInCircuit st2))
          (<[parent2 := Some []]> (<[parent1 := Some (o1 ++ o2)]> (currentBlockOperations st2)))
          (written st2)).

(** [DSU::finalizeBlock].  [isConvertibleToSingleOperation] and
    [collapseToSingleOperation] (header, modelled from the spec): a body of
    exactly one operation is written back as that operation, which is moved
    out of the body; any other body is moved into the slot as a Compound.
    The loop then runs over the members recorded in [bitBlocks[block]] when
    the loop started. *)
Definition finalizeBlock (fuel : nat) (st : BlockState) (index : nat) : Result BlockState :=
  let* r := findBlock fuel st index in
  let '(st1, block) := r in
  match getAnchor st1 block with
  | None => Ok st1
  | Some slot =>
      let* body := getBody st1 block in
      let '(op, rest) := match body with
                         | [o] => (o, Some [])
                         | _ => (CompoundOperation body, None)
                         end in
      let st2 := mkBlockState (<[slot := Some op]> (slots st1)) (parent st1) (bitBlocks st1)
                   (currentBlockInCircuit st1)
                   (<[block := rest]> (currentBlockOperations st1))
                   (written st1 ++ [op]) in
      Ok (fold_left resetQubit (getBits st1 block) st2)
  end.

Definition res_fold_st {A} (f : BlockState -> A -> Result BlockState) (l : list A)
  (st : BlockState) : Result BlockState :=
  res_fold_left f l st.

(** The iteration orders the code leaves open: the order of the
    [blocksAndSizes] entries after [std::sort] (ties in any order, and the
    [unordered_map] order before the sort), the same for [savings], and the
    iteration order of [dsu.parent] in the final loop. *)
Record Arrangement := mkArrangement {
  arrangeBlocks : list (nat * nat) -> list (nat * nat);
  arrangeSavings : list (nat * Z) -> list (nat * Z);
  arrangeParent : list (nat * nat) -> list (nat * nat)
}.

(** The blocks of the used qubits, as the [unordered_set blockQubits]. *)
Fixpoint findBlocks (fuel : nat) (st : BlockState) (qs : list nat) (acc : list nat)
  : Result (BlockState * list nat) :=
  match qs with
  | [] => Ok (st, acc)
  | q :: qs' =>
      let* r := findBlock fuel st q in
      let '(st', b) := r in
      findBlocks fuel st' qs' (if nat_mem b acc then acc else acc ++ [b])
  end.

Definition sum_list (l : list nat) : nat := fold_right Nat.add 0 l.

(** [blocksAndSizes]: the non-empty blocks of the used qubits. *)
Fixpoint collectBlocksAndSizes (fuel : nat) (st : BlockState) (qs : list nat)
  (m : gmap nat nat) : Result (BlockState * gmap nat nat) :=
  match qs with
  | [] => Ok (st, m)
  | q :: qs' =>
      let* r := findBlock fuel st q in
      let '(st1, block) := r in
      let* e := blockEmpty fuel st1 block in
      let '(st2, empty) := e in
      if empty || bool_decide (is_Some (m !! block))
      then collectBlocksAndSizes fuel st2 qs' m
      else collectBlocksAndSizes fuel st2 qs' (<[block := length (getBits st2 block)]> m)
  end.

(** The [while (nextIt != end && size < maxBlockSize)] loop: returns the
    state, the size and the entries left in [sortedBlocks]. *)
Fixpoint fillBlock (fuel maxBlockSize : nat) (st : BlockState) (block size : nat)
  (next : list (nat * nat)) : Result (BlockState * nat * list (nat * nat)) :=
  match next with
  | [] => Ok (st, size, [])
  | (nextBlock, nextSize) :: next' =>
      if size <? maxBlockSize then
        if size + nextSize <=? maxBlockSize then
          let* st' := unionBlock fuel st block nextBlock in
          fillBlock fuel maxBlockSize st' block (size + nextSize) next'
        else
          let* r := fillBlock fuel maxBlockSize st block size next' in
          let '(st', size', rest) := r in
          Ok (st', size', (nextBlock, nextSize) :: rest)
      else Ok (st, size, next)
  end.

(** The loop over [sortedBlocks]; [sortedBlocks] shrinks at every step. *)
Fixpoint packBlocks (n fuel maxBlockSize : nat) (st : BlockState)
  (sortedBlocks : list (nat * nat)) : Result BlockState :=
  match n with
  | 0 => Err OutOfFuel
  | S n' =>
    match sortedBlocks with
    | [] => Ok st
    | (block, size) :: rest =>
        if size =? maxBlockSize then
          let* st' := finalizeBlock fuel st block in
          packBlocks n' fuel maxBlockSize st' rest
        else
          let* r := fillBlock fuel maxBlockSize st block size rest in
          let '(st1, _, rest') := r in
          let* st2 := finalizeBlock fuel st1 block in
          packBlocks n' fuel maxBlockSize st2 rest'
    end
  end.

(** [savings] and the [totalSize] of the distinct blocks; [size_t]
    arithmetic below zero is read back through [static_cast<int64_t>],
    which gives the same value as the integer subtraction in [Z]. *)
Fixpoint collectSavings (fuel : nat) (st : BlockState) (qs : list nat)
  (savings : gmap nat Z) (totalSize : nat) : Result (BlockState * gmap nat Z * nat) :=
  match qs with
  | [] => Ok (st, savings, totalSize)
  | q :: qs' =>
      let* r := findBlock fuel st q in
      let '(st1, block) := r in
      match savings !! block with
      | Some s => collectSavings fuel st1 qs' (<[block := (s - 1)%Z]> savings) totalSize
      | None =>
          let sz := length (getBits st1 block) in
          collectSavings fuel st1 qs' (<[block := (Z.of_nat sz - 1)%Z]> savings) (totalSize + sz)
      end
  end.

Fixpoint freeSavings (fuel : nat) (st : BlockState) (sorted : list (nat * Z))
  (savingsNeed : Z) : Result BlockState :=
  match sorted with
  | [] => Ok st
  | (index, saving) :: rest =>
      if (0 <? savingsNeed)%Z then
        let* st' := finalizeBlock fuel st index in
        freeSavings fuel st' rest (savingsNeed - saving)%Z
      else freeSavings fuel st rest savingsNeed
  end.

(** [if (makesTooBig)]. *)
Definition shrinkBlocks (fuel maxBlockSize : nat) (arr : Arrangement) (st : BlockState)
  (usedQubits : list nat) : Result BlockState :=
  if maxBlockSize <? length usedQubits then
    let* r := collectBlocksAndSizes fuel st usedQubits ∅ in
    let '(st1, blocksAndSizes) := r in
    let sortedBlocks := arrangeBlocks arr (map_to_list blocksAndSizes) in
    packBlocks (S (length sortedBlocks)) fuel maxBlockSize st1 sortedBlocks
  else
    let* r := collectSavings fuel st usedQubits ∅ 0 in
    let '(st1, savings, totalSize) := r in
    let sortedSavings := arrangeSavings arr (map_to_list savings) in
    freeSavings fuel st1 sortedSavings (Z.of_nat totalSize - Z.of_nat maxBlockSize)%Z.

(** The pairwise [unionBlock(prev, q)] loop over the used qubits. *)
Fixpoint unionAll (fuel : nat) (st : BlockState) (prev : nat) (qs : list nat)
  : Result (BlockState * nat) :=
  match qs with
  | [] => Ok (st, prev)
  | q :: qs' => let* st' := unionBlock fuel st prev q in unionAll fuel st' q qs'
  end.

(** One iteration of the loop over the circuit, at slot [p]; returns the
    state and the slot of the next iteration.  [noQubit] is
    [static_cast<Qubit>(-1)], the largest value of the qubit type. *)
Definition collectStep (fuel maxBlockSize noQubit : nat) (arr : Arrangement)
  (st : BlockState) (p : nat) (op : Operation) : Result (BlockState * nat) :=
  let usedQubits := getUsedQubits op in
  if negb (isUnitary op) then
    let* st' := res_fold_st (fun s q => finalizeBlock fuel s q) usedQubits st in
    Ok (st', S p)
  else
    let* r := findBlocks fuel st usedQubits [] in
    let '(st1, blockQubits) := r in
    let totalSize := sum_list (map (fun b => length (getBits st1 b)) blockQubits) in
    let* st2 := (if maxBlockSize <? totalSize
                 then shrinkBlocks fuel maxBlockSize arr st1 usedQubits
                 else Ok st1) in
    if maxBlockSize <? length usedQubits then Ok (st2, S p)
    else
      let* u := (match usedQubits with
                 | [] => Ok (st2, noQubit)
                 | q :: qs => unionAll fuel st2 q qs
                 end) in
      let '(st3, prev) := u in
      let* f := findBlock fuel st3 prev in
      let '(st4, block) := f in
      let* e := blockEmpty fuel st4 block in
      let '(st5, empty) := e in
      let st6 := if empty
                 then set_anchor st5 (<[block := Some p]> (currentBlockInCircuit st5))
                 else st5 in
      let* body := getBody st6 block in
      let st7 := set_body st6 (<[block := Some (body ++ [op])]> (currentBlockOperations st6)) in
      if empty then Ok (set_slots st7 (<[p := None]> (slots st7)), S p)
      else Ok (set_slots st7 (erase_at p (slots st7)), p).

Fixpoint collectLoop (n fuel maxBlockSize noQubit : nat) (arr : Arrangement)
  (st : BlockState) (p : nat) : Result BlockState :=
  match n with
  | 0 => Err OutOfFuel
  | S n' =>
    match slots st !! p with
    | None => Ok st
    | Some None => Err NullDereference
    | Some (Some op) =>
        let* r := collectStep fuel maxBlockSize noQubit arr st p op in
        let '(st', p') := r in
        collectLoop n' fuel maxBlockSize noQubit arr st' p'
    end
  end.

(** The final loop over [dsu.parent]: every root is finalized. *)
Definition finalizeRoots (fuel : nat) (arr : Arrangement) (st : BlockState) : Result BlockState :=
  res_fold_st
    (fun s '(q, _) =>
       match parent s !! q with
       | Some index => if q =? index then finalizeBlock fuel s q else Ok s
       | None => Ok s
       end)
    (arrangeParent arr (map_to_list (parent st))) st.

Fixpoint all_slots (s : list (option Operation)) : Result (list Operation) :=
  match s with
  | [] => Ok []
  | None :: _ => Err NullDereference
  | Some op :: s' => let* r := all_slots s' in Ok (op :: r)
  end.

Definition emptyBlockState (ops : list Operation) : BlockState :=
  mkBlockState (map Some ops) ∅ ∅ ∅ ∅ [].

(** [collectBlocks]: the circuit after the pass, and the operations the
    DSU wrote back into it. *)
Definition collectBlocks (fuel maxBlockSize noQubit : nat) (arr : Arrangement)
  (qc : QuantumComputation) : Result (QuantumComputation * list Operation) :=
  if length (qc_ops qc) <=? 1 then Ok (qc, [])
  else
    let* qc1 := reorderOperations fuel qc in
    let* qc2 := deferMeasurements fuel qc1 in
    let* st := collectLoop fuel fuel maxBlockSize noQubit arr
                 (emptyBlockState (qc_ops qc2)) 0 in
    let* st' := finalizeRoots fuel arr st in
    let* ops := all_slots (slots st') in
    Ok (removeIdentities (with_ops qc2 ops), written st').

(* ------------------------------------------------------------------ *)
(** ** Reference definitions used in the statements *)

(** The classical action of a gate on a basis state ([nat -> bool]):
    an X flips its target when all controls hold, a SWAP exchanges its two
    targets; used to compare the rewrite of [swapReconstruction] with the
    pair of CNOTs it replaces. *)
Definition controlHolds (s : nat -> bool) (c : Control) : bool :=
  match ctype c with Pos => s (cqubit c) | Neg => negb (s (cqubit c)) end.

Definition applyClassical (op : Operation) (s : nat -> bool) : nat -> bool :=
  match op with
  | StandardOperation OpType.X cs [t] =>
      if forallb (controlHolds s) cs
      then fun q => if q =? t then negb (s t) else s q
      else s
  | StandardOperation OpType.SWAP [] [a; b] =>
      fun q => if q =? a then s b else if q =? b then s a else s q
  | _ => s
  end.

(** Circuits without a Compound nested in a Compound. *)
Definition flatOp (op : Operation) : Prop :=
  match op with
  | CompoundOperation cs => Forall (fun c => isCompoundOperation c = false) cs
  | _ => True
  end.

(** No identity at the top level, none among the children of a
    top-level Compound. *)
Definition noIdentityOp (op : Operation) : Prop :=
  isIdentity op = false /\
  match op with
  | CompoundOperation cs => Forall (fun c => isIdentity c = false) cs
  | _ => True
  end.

(** The output shape of [removeIdentitiesOps] on flat circuits. *)
Definition cleanOp (op : Operation) : Prop :=
  isIdentity op = false /\
  match op with
  | CompoundOperation cs =>
      2 <= length cs /\ Forall (fun c => isIdentity c = false /\ isCompoundOperation c = false) cs
  | _ => True
  end.

(** The replacement the spec describes for a SWAP on [(a, b)]. *)
Definition swapAsCNOTs (op : Operation) : list Operation :=
  match op with
  | StandardOperation OpType.SWAP _ [a; b] => [cnot a b; cnot b a; cnot a b]
  | _ => [op]
  end.

(** The expected result of [decomposeSWAP] with [directed = false]:
    SWAPs at the top level and among the children of a top-level Compound
    are replaced. *)
Definition decomposeSWAPExpected (ops : list Operation) : list Operation :=
  concat (map (fun op =>
    match op with
    | CompoundOperation cs => [CompoundOperation (concat (map swapAsCNOTs cs))]
    | _ => swapAsCNOTs op
    end) ops).

(** A standard SWAP has exactly two targets. *)
Definition swapWellFormed (op : Operation) : Prop :=
  match op with
  | StandardOperation OpType.SWAP _ ts => length ts = 2
  | _ => True
  end.

Definition swapWellFormedTop (op : Operation) : Prop :=
  swapWellFormed op /\
  match op with
  | CompoundOperation cs => Forall swapWellFormed cs
  | _ => True
  end.

(** The lanes [addOperationToDag] pushes a slot onto, in push order. *)
Definition laneQubits (op : Operation) : list nat :=
  if isStandardOperation op then map cqubit (getControls op) ++ getTargets op
  else match op with
       | CompoundOperation _ => getUsedQubits op
       | NonUnitaryOperation _ _ _ _ => getTargets op
       | ClassicControlledOperation cop _ _ => map cqubit (getControls cop) ++ getTargets cop
       | _ => []
       end.

Definition slotQubits (ops : list Operation) (i : nat) : list nat :=
  match ops !! i with Some op => laneQubits op | None => [] end.

(** The lane of qubit [p] built from the slots [s .. s+m-1]: each slot
    once per occurrence of [p] in its lane list. *)
Definition laneFrom (ops : list Operation) (s m p : nat) : list nat :=
  concat (map (fun i => repeat i (count_occ Nat.eq_dec (slotQubits ops i) p)) (seq s m)).

(** What a run of the scheduler keeps true: no slot is moved out twice,
    the part of every lane behind its cursor has been moved out in lane
    order, and only slots of some lane are moved out. *)
Definition SchedInv (lanes : list (list nat)) (cur out : list nat) : Prop :=
  NoDup out /\
  (forall q, take (cursor_at cur q) (lane_at lanes q) `sublist_of` out) /\
  (forall x, x ∈ out -> exists q, x ∈ lane_at lanes q).

(** Position of [x] in [l] (its first occurrence). *)
Fixpoint index_of (l : list nat) (x : nat) : nat :=
  match l with
  | [] => 0
  | y :: l' => if x =? y then 0 else S (index_of l' x)
  end.

(** ** Invariant of the block collection

    [R] maps every qubit the DSU knows to its root; a root's members are
    the qubits in its [bitBlocks] entry; a root's body only uses its
    members, and its members are at most [maxBlockSize] unless every
    operation of the body uses no qubit. *)

(** [R] is the root map of the DSU: parents stay in one class, roots are
    fixed points, and a root's [bitBlocks] entry lists its members once. *)
Record Core (R : nat -> nat) (st : BlockState) : Prop := {
  core_parent : forall x p, parent st !! x = Some p -> is_Some (parent st !! p) /\ R p = R x;
  core_root : forall x, is_Some (parent st !! x) -> parent st !! R x = Some (R x);
  core_self : forall x, parent st !! x = Some x -> R x = x;
  core_bits : forall r, parent st !! r = Some r ->
    forall y, y ∈ getBits st r <-> is_Some (parent st !! y) /\ R y = r;
  core_nodup : forall r, parent st !! r = Some r -> NoDup (getBits st r)
}.

(** [R] with [q] sent to [v]. *)
Definition upd (R : nat -> nat) (q v : nat) : nat -> nat :=
  fun x => if x =? q then v else R x.

(** The state [findBlock] starts from: [q] reset when it is new. *)
Definition ensureQubit (st : BlockState) (q : nat) : BlockState :=
  match parent st !! q with None => resetQubit st q | Some _ => st end.

(** The body of root [r] only uses members of [r]; the block has at most
    [k] members unless no operation of its body uses a qubit. *)
Definition RootOK (k : nat) (st : BlockState) (r : nat) : Prop :=
  forall ops, getBody st r = Ok ops ->
    Forall (fun o => forall y, y ∈ getUsedQubits o -> y ∈ getBits st r) ops /\
    (length (getBits st r) <= k \/ Forall (fun o => getUsedQubits o = []) ops).

(** The invariant of the collection.  A root outside [ex] without an
    anchor is a singleton; every operation written back spans at most [k]
    qubits. *)
Record Good (k : nat) (R : nat -> nat) (ex : nat -> Prop) (st : BlockState) : Prop := {
  good_core : Core R st;
  good_ok : forall r, parent st !! r = Some r -> RootOK k st r;
  good_single : forall r, parent st !! r = Some r -> ~ ex r ->
    getAnchor st r = None -> getBits st r = [r];
  good_written : Forall (fun op => length (getUsedQubits op) <= k) (written st)
}.

(** No root exempted. *)
Definition noex : nat -> Prop := fun _ => False.

(** The root map after block [b] is finalized: its members become roots. *)
Definition splitR (R : nat -> nat) (b : nat) : nat -> nat :=
  fun x => if R x =? b then x else R x.

(** The root map after root [l] is merged into root [a]. *)
Definition mergeR (R : nat -> nat) (l a : nat) : nat -> nat :=
  fun x => if R x =? l then a else R x.

(** Root [r] of [st] is still a root of [st'] with the same members and anchor. *)
Definition keeps (st st' : BlockState) (r : nat) : Prop :=
  parent st' !! r = Some r /\ getBits st' r = getBits st r /\ getAnchor st' r = getAnchor st r.

(** [st] and [st'] know the same qubits. *)
Definition sameDom (st st' : BlockState) : Prop :=
  forall x, is_Some (parent st' !! x) <-> is_Some (parent st !! x).

(** The members of the blocks of the qubits [U]. *)
Definition Wset (R : nat -> nat) (st : BlockState) (U : list nat) : gset nat :=
  ⋃ (map (fun q => list_to_set (getBits st (R q))) U).

(** An entry [(block, size)] of [blocksAndSizes]. *)
Definition Entry (st : BlockState) (e : nat * nat) : Prop :=
  parent st !! e.1 = Some e.1 /\ length (getBits st e.1) = e.2 /\ getAnchor st e.1 <> None.

(** Sum of the values of a list of entries. *)
Definition sumZ (l : list (nat * Z)) : Z := fold_right (fun e acc => (e.2 + acc)%Z) 0%Z l.

(** The number of qubits of [P] in block [b]. *)
Definition countIn (R : nat -> nat) (b : nat) (P : list nat) : nat :=
  length (filter (fun q => R q = b) P).

(** The [savings] map after the qubits [P]: one entry per block met, its
    size less the qubits of [P] in it. *)
Definition SavOK (R : nat -> nat) (st : BlockState) (P : list nat) (sv : gmap nat Z) : Prop :=
  forall b s, sv !! b = Some s ->
    (exists q, q ∈ P /\ R q = b) /\
    s = (Z.of_nat (length (getBits st b)) - Z.of_nat (countIn R b P))%Z.

(** [flattenCompoundOperation] (l. 1390-1417): the children of the Compound at [it] are
    moved in front of it, the Compound is erased, and [it] is moved back
    to the first moved operation, i.e. it keeps its index. *)
Definition flattenCompoundOperation (ops : list Operation) (it : nat)
  : Result (list Operation * nat) :=
  match ops !! it with
  | Some (CompoundOperation cops) => Ok (take it ops ++ cops ++ drop (S it) ops, it)
  | _ => Err UnexpectedOperation
  end.

(** The loop of [CircuitOptimizer::flattenOperations]. *)
Fixpoint flattenLoop (fuel : nat) (ops : list Operation) (it : nat) : Result (list Operation) :=
  match fuel with
  | 0 => Err OutOfFuel
  | S fuel' =>
      match ops !! it with
      | None => Ok ops
      | Some op =>
          if isCompoundOperation op then
            let* r := flattenCompoundOperation ops it in
            flattenLoop fuel' r.1 r.2
          else flattenLoop fuel' ops (S it)
      end
  end.

(** [CircuitOptimizer::flattenOperations] (l. 1419-1428); [fuel] bounds
    the number of iterations of its loop. *)
Definition flattenOperations (fuel : nat) (qc : QuantumComputation) : Result QuantumComputation :=
  let* ops := flattenLoop fuel (qc_ops qc) 0 in Ok (with_ops qc ops).

(** The operations of a tree, leaves in order. *)
Fixpoint flattenOp (op : Operation) : list Operation :=
  match op with
  | CompoundOperation ops => concat (map flattenOp ops)
  | _ => [op]
  end.

(** Number of nodes of the operation trees. *)
Fixpoint opSize (op : Operation) : nat :=
  match op with
  | CompoundOperation ops => S (sum_list (map opSize ops))
  | _ => 1
  end.

Definition opsSize (ops : list Operation) : nat := sum_list (map opSize ops).

(** One slot of [replaceMCXWithMCZ] (l. 1596-1624): an X with controls on
    [targets[0]] becomes [H; Z with the same controls; H] on that target;
    the loop resumes after the three inserted operations, so they are not
    visited again.  A Compound is handled recursively.  [targets[0]] of an
    X without targets reads outside the vector (the [assert] excludes it). *)
Fixpoint replaceMCXOp (op : Operation) : Result (list Operation) :=
  if bool_decide (getType op = OpType.X) && (0 <? getNcontrols op) then
    match getTargets op with
    | t :: _ => Ok [StandardOperation OpType.H [] [t];
                    StandardOperation OpType.Z (getControls op) [t];
                    StandardOperation OpType.H [] [t]]
    | [] => Err OutOfRange
    end
  else
    match op with
    | CompoundOperation cops =>
        let* cops' := res_concat_map replaceMCXOp cops in Ok [CompoundOperation cops']
    | _ => Ok [op]
    end.

Definition replaceMCXWithMCZ (qc : QuantumComputation) : Result QuantumComputation :=
  let* ops := res_concat_map replaceMCXOp (qc_ops qc) in Ok (with_ops qc ops).

(** An X with controls. *)
Definition isMCX (op : Operation) : bool :=
  bool_decide (getType op = OpType.X) && (0 <? getNcontrols op).

(** No X with controls, at the top level or inside Compounds. *)
Fixpoint mcxFree (op : Operation) : bool :=
  match op with
  | CompoundOperation cops => forallb mcxFree cops
  | _ => negb (isMCX op)
  end.

(** Every X with controls, at the top level or inside Compounds, has
    exactly one target. *)
Fixpoint mcxOneTarget (op : Operation) : bool :=
  match op with
  | CompoundOperation cops => forallb mcxOneTarget cops
  | _ => negb (isMCX op) || (length (getTargets op) =? 1)
  end.

(** [perm.at(q)] on a [Permutation] ([std::map<Qubit, Qubit>]): a missing
    key throws [std::out_of_range]. *)
Definition permAt (perm : gmap nat nat) (q : nat) : Result nat :=
  match perm !! q with Some p => Ok p | None => Err OutOfRange end.

(** One of the two loops of [NonUnitaryOperation::equals] (Measure branch,
    NonUnitaryOperation.cpp l. 279-303): the set of (qubit, classical bit)
    pairs, each qubit mapped through [perm] unless [perm] is empty. Running
    out of classical bits before the qubits are exhausted reads past the end
    of [classics] (the constructors and an [assert] rule it out); it is kept
    as an [OutOfRange] error. *)
Fixpoint measurementSet (perm : gmap nat nat) (qubits classics : list nat)
    : Result (gset (nat * nat)) :=
  match qubits, classics with
  | [], _ => Ok ∅
  | q :: qs, c :: cs =>
      let* q' := (if decide (perm = ∅) then Ok q else permAt perm q) in
      let* rest := measurementSet perm qs cs in
      Ok ({[(q', c)]} ∪ rest)
  | _ :: _, [] => Err OutOfRange
  end.

(** [NonUnitaryOperation::equals] (NonUnitaryOperation.cpp l. 261-312);
    [Operation::equals], which the non-Measure branch calls and which is
    defined in a header outside this embedding, is a parameter. *)
Section NonUnitaryEquals.
Variable operationEquals : Operation -> Operation -> gmap nat nat -> gmap nat nat -> bool.

Definition nonUnitaryEquals (ty : OpType.t) (targets qubits classics : list nat)
    (op : Operation) (perm1 perm2 : gmap nat nat) : Result bool :=
  match op with
  | NonUnitaryOperation ty' targets' qubits' classics' =>
      if negb (bool_decide (ty = ty')) then Ok false
      else if bool_decide (ty = OpType.Measure) then
        if negb (length qubits =? length qubits') then Ok false
        else
          let* measurements1 := measurementSet perm1 qubits classics in
          let* measurements2 := measurementSet perm2 qubits' classics' in
          Ok (bool_decide (measurements1 = measurements2))
      else Ok (operationEquals (NonUnitaryOperation ty targets qubits classics) op perm1 perm2)
  | _ => Ok false
  end.
End NonUnitaryEquals.

(** [Operation::isControlled()]: the operation has a control. *)
Definition isControlled (op : Operation) : bool := negb (getNcontrols op =? 0).

(** The state threaded through [backpropagateOutputPermutation]
    (ComplexNumbers.hpp l. 1630-1739): the partial layout [permutation],
    the [missingLogicalQubits] set, and the number of times an element was
    taken through [missingLogicalQubits.begin()]. The iteration order of
    the [std::unordered_set] is not fixed by the code, so the element that
    [begin()] returns is given by an oracle [picks] from that count and the
    current set. *)
Record BPState := mkBP {
  bp_perm : gmap nat nat;
  bp_missing : gset nat;
  bp_picks : nat
}.

(** The shared step of cases 2 and 3 and of the fill loop: take the
    preferred qubit if it is missing, else [*missingLogicalQubits.begin()]
    (dereferencing [end()] of an empty set is a null dereference), and
    erase the taken qubit from the set. *)
Definition takeMissing (picks : nat -> gset nat -> nat) (st : BPState) (preferred : nat)
    : Result (nat * BPState) :=
  if decide (preferred ∈ bp_missing st) then
    Ok (preferred, mkBP (bp_perm st) (bp_missing st ∖ {[preferred]}) (bp_picks st))
  else if decide (bp_missing st = ∅) then Err NullDereference
  else let v := picks (bp_picks st) (bp_missing st) in
       Ok (v, mkBP (bp_perm st) (bp_missing st ∖ {[v]}) (S (bp_picks st))).

(** The body of the loop of the free function
    [backpropagateOutputPermutation] for a non-Compound operation: an
    uncontrolled SWAP with two targets updates the permutation in one of
    the four cases of the source; any other operation leaves it alone. *)
Definition backpropagateSwap (picks : nat -> gset nat -> nat) (op : Operation) (st : BPState)
    : Result BPState :=
  if bool_decide (getType op = OpType.SWAP) && negb (isControlled op)
     && (length (getTargets op) =? 2) then
    match getTargets op with
    | [t0; t1] =>
        match bp_perm st !! t0, bp_perm st !! t1 with
        | Some v0, Some v1 =>
            Ok (mkBP (<[t1:=v0]> (<[t0:=v1]> (bp_perm st))) (bp_missing st) (bp_picks st))
        | Some v0, None =>
            let* r := takeMissing picks (mkBP (<[t1:=v0]> (bp_perm st)) (bp_missing st)
                                              (bp_picks st)) t0 in
            Ok (mkBP (<[t0:=r.1]> (bp_perm r.2)) (bp_missing r.2) (bp_picks r.2))
        | None, Some v1 =>
            let* r := takeMissing picks (mkBP (<[t0:=v1]> (bp_perm st)) (bp_missing st)
                                              (bp_picks st)) t1 in
            Ok (mkBP (<[t1:=r.1]> (bp_perm r.2)) (bp_missing r.2) (bp_picks r.2))
        | None, None => Ok st
        end
    | _ => Ok st
    end
  else Ok st.

(** A loop over a vector from [rbegin()] to [rend()]. *)
Fixpoint res_fold_back {A B} (f : A -> B -> Result B) (l : list A) (b : B) : Result B :=
  match l with
  | [] => Ok b
  | a :: l' => let* b' := res_fold_back f l' b in f a b'
  end.

(** One operation of the reverse loop: a Compound recurses on its
    operations. *)
Fixpoint backpropagateOp (picks : nat -> gset nat -> nat) (op : Operation) (st : BPState)
    : Result BPState :=
  match op with
  | CompoundOperation cops => res_fold_back (backpropagateOp picks) cops st
  | _ => backpropagateSwap picks op st
  end.

(** One iteration of the fill loop of
    [CircuitOptimizer::backpropagateOutputPermutation]. *)
Definition fillStep (picks : nat -> gset nat -> nat) (st : BPState) (i : nat) : Result BPState :=
  match bp_perm st !! i with
  | Some _ => Ok st
  | None =>
      let* r := takeMissing picks st i in
      Ok (mkBP (<[i:=r.1]> (bp_perm r.2)) (bp_missing r.2) (bp_picks r.2))
  end.

(** [CircuitOptimizer::backpropagateOutputPermutation]: the initial layout
    it computes from [qc.outputPermutation] and [qc.ops] on [nqubits]
    qubits. *)
Definition backpropagateOutputPermutation (picks : nat -> gset nat -> nat) (nqubits : nat)
    (outputPermutation : gmap nat nat) (ops : list Operation) : Result (gmap nat nat) :=
  let logicalQubits : gset nat := map_img outputPermutation in
  let missingLogicalQubits : gset nat :=
    list_to_set (filter (fun i => i ∉ logicalQubits) (seq 0 nqubits)) in
  let* st := res_fold_back (backpropagateOp picks) ops
                           (mkBP outputPermutation missingLogicalQubits 0) in
  if size (bp_perm st) =? nqubits then Ok (bp_perm st)
  else let* st' := res_fold_left (fillStep picks) (seq 0 nqubits) st in Ok (bp_perm st').

(** Every target, at any depth, is below [n]. *)
Fixpoint targetsBelow (n : nat) (op : Operation) : bool :=
  match op with
  | CompoundOperation cops => forallb (targetsBelow n) cops
  | _ => forallb (fun t => t <? n) (getTargets op)
  end.

(** The invariant of the pass on [n] qubits: the partial layout is an
    injection on [[0, n)] and the missing set is exactly the complement of
    its image. *)
Record BPInv (n : nat) (st : BPState) : Prop := {
  bp_range : forall k v, bp_perm st !! k = Some v -> k < n /\ v < n;
  bp_inj : forall k1 k2 v, bp_perm st !! k1 = Some v -> bp_perm st !! k2 = Some v -> k1 = k2;
  bp_missing_spec : forall v, v ∈ bp_missing st <-> v < n /\ v ∉ (map_img (bp_perm st) : gset nat)
}.

(** An oracle for [begin()]: the first element of the set's enumeration. *)
Definition firstElement (k : nat) (s : gset nat) : nat :=
  match elements s with x :: _ => x | [] => 0 end.

(** [std::map<Qubit, Qubit>] as an association list sorted by key. *)
Fixpoint smap_find (k : nat) (m : list (nat * nat)) : option nat :=
  match m with
  | [] => None
  | (k', v) :: m' => if k =? k' then Some v else smap_find k m'
  end.

(** [m[k] = v], [try_emplace] of an absent key, or the assignment through
    the iterator [find] returned. *)
Fixpoint smap_assign (k v : nat) (m : list (nat * nat)) : list (nat * nat) :=
  match m with
  | [] => [(k, v)]
  | (k', v') :: m' =>
      if k <? k' then (k, v) :: m
      else if k =? k' then (k, v) :: m'
      else (k', v') :: smap_assign k v m'
  end.

Definition changeTargets (targets : list nat) (replacementMap : list (nat * nat)) : list nat :=
  map (fun t => match smap_find t replacementMap with Some t' => t' | None => t end) targets.

Fixpoint control_erase (c : Control) (cs : list Control) : list Control :=
  match cs with
  | [] => []
  | d :: cs' => if decide (c = d) then cs' else d :: control_erase c cs'
  end.

(** [controls.find(from)]: the first control on qubit [from] in the set's
    order. *)
Definition control_find (q : nat) (cs : list Control) : option Control :=
  find (fun c => cqubit c =? q) cs.

Definition changeControls (controls : list Control) (replacementMap : list (nat * nat))
    : list Control :=
  match controls, replacementMap with
  | [], _ | _, [] => controls
  | _, _ =>
      fold_left (fun cs '(from, to) =>
                   match control_find from cs with
                   | Some c => control_insert (mkControl to (ctype c)) (control_erase c cs)
                   | None => cs
                   end) replacementMap controls
  end.

(** Writing through the references [getTargets()] and [getControls()]
    return: a Measure's targets are its measured qubits, a
    ClassicControlledOperation's are those of the operation it wraps, a
    Compound has none of its own. *)
Fixpoint mapTargets (f : list nat -> list nat) (op : Operation) : Operation :=
  match op with
  | StandardOperation ty cs ts => StandardOperation ty cs (f ts)
  | NonUnitaryOperation ty ts qs cls =>
      if decide (ty = OpType.Measure) then NonUnitaryOperation ty ts (f qs) cls
      else NonUnitaryOperation ty (f ts) qs cls
  | CompoundOperation _ => op
  | ClassicControlledOperation o reg v => ClassicControlledOperation (mapTargets f o) reg v
  end.

Fixpoint mapControls (g : list Control -> list Control) (op : Operation) : Operation :=
  match op with
  | StandardOperation ty cs ts => StandardOperation ty (g cs) ts
  | ClassicControlledOperation o reg v => ClassicControlledOperation (mapControls g o) reg v
  | _ => op
  end.

(** The renaming of one operation: targets and controls of a standard or
    classic-controlled operation, targets of a non-unitary one. *)
Definition renameOperation (replacementMap : list (nat * nat)) (op : Operation) : Operation :=
  if isStandardOperation op || isClassicControlledOperation op then
    mapControls (fun cs => changeControls cs replacementMap)
      (mapTargets (fun ts => changeTargets ts replacementMap) op)
  else if isNonUnitaryOperation op then
    mapTargets (fun ts => changeTargets ts replacementMap) op
  else op.

(** The state of the pass: [qc.getNqubits()], [qc.initialLayout] and the
    replacement map.  [qc.addQubit(i, i, i)] appends qubit [i] with the
    identity mapping. *)
Record ERState := mkER {
  er_nqubits : nat;
  er_layout : list (nat * nat);
  er_map : list (nat * nat)
}.

Definition addResetTarget (st : ERState) (target : nat) : ERState :=
  let indexAddQubit := er_nqubits st in
  mkER (S indexAddQubit) (smap_assign indexAddQubit indexAddQubit (er_layout st))
       (smap_assign target indexAddQubit (er_map st)).

Definition addResetTargets (st : ERState) (targets : list nat) : ERState :=
  fold_left addResetTarget targets st.

Fixpoint eliminateResetsCompound (cops : list Operation) (st : ERState) : list Operation * ERState :=
  match cops with
  | [] => ([], st)
  | c :: rest =>
      if decide (getType c = OpType.Reset) then
        eliminateResetsCompound rest (addResetTargets st (getTargets c))
      else
        let c' := renameOperation (er_map st) c in
        let '(rest', st') := eliminateResetsCompound rest st in (c' :: rest', st')
  end.

Fixpoint eliminateResetsOps (ops : list Operation) (st : ERState) : list Operation * ERState :=
  match ops with
  | [] => ([], st)
  | op :: rest =>
      if decide (getType op = OpType.Reset) then
        eliminateResetsOps rest (addResetTargets st (getTargets op))
      else if decide (er_map st = []) then
        let '(rest', st') := eliminateResetsOps rest st in (op :: rest', st')
      else
        let '(op1, st1) :=
          match op with
          | CompoundOperation cops =>
              let '(cops', st') := eliminateResetsCompound cops st in (CompoundOperation cops', st')
          | _ => (op, st)
          end in
        let op2 := renameOperation (er_map st1) op1 in
        let '(rest', st2) := eliminateResetsOps rest st1 in (op2 :: rest', st2)
  end.

(** The pass on a circuit of [nqubits] qubits: the new circuit and its
    qubit count. *)
Definition eliminateResets (qc : QuantumComputation) (nqubits : nat) : QuantumComputation * nat :=
  let '(ops, st) := eliminateResetsOps (qc_ops qc) (mkER nqubits (initialLayout qc) []) in
  (mkQC ops (er_layout st), er_nqubits st).

Definition usesBelow (n : nat) (op : Operation) : Prop :=
  forall q, q ∈ getUsedQubits op -> q < n.

Fixpoint noReset (op : Operation) : bool :=
  match op with
  | CompoundOperation cops => forallb noReset cops
  | _ => negb (bool_decide (getType op = OpType.Reset))
  end.

Fixpoint distinctControls (op : Operation) : bool :=
  match op with
  | CompoundOperation cops => forallb distinctControls cops
  | _ => bool_decide (NoDup (map cqubit (getControls op)))
  end.

Definition renamedBy (q n : nat) (o o' : Operation) : Prop :=
  forall y, y ∈ getUsedQubits o' <-> (y ∈ getUsedQubits o /\ y <> q) \/ (y = n /\ q ∈ getUsedQubits o).

Definition resetExample : QuantumComputation :=
  mkQC [hadamard 0; NonUnitaryOperation OpType.Reset [0] [] []; cnot 0 1;
        CompoundOperation [NonUnitaryOperation OpType.Reset [1] [] []; StandardOperation OpType.X [] [1]];
        NonUnitaryOperation OpType.Measure [] [0; 1] [0; 1]] [(0, 0); (1, 1)].

Definition resetExampleResult : QuantumComputation :=
  mkQC [hadamard 0; cnot 2 1; CompoundOperation [StandardOperation OpType.X [] [3]];
        NonUnitaryOperation OpType.Measure [] [2; 3] [0; 1]] [(0, 0); (1, 1); (2, 2); (3, 3)].

(* ------------------------------------------------------------------ *)
(** ** [CircuitOptimizer::cancelCNOTs] *)

(** [cancelCNOTs]: the test [getType() == X && getNcontrols() == 1 &&
    getControls().begin()->type == Control::Type::Pos] (ComplexNumbers.hpp,
    l. 1446-1448, 1474-1476, 1520-1522). *)
Definition isCNOTOp (op : Operation) : bool :=
  bool_decide (getType op = OpType.X) && (getNcontrols op =? 1) &&
  match getControls op with
  | c :: _ => match ctype c with Pos => true | Neg => false end
  | [] => false
  end.

(** [getType() == SWAP && getNcontrols() == 0] (l. 1449, 1477-1478). *)
Definition isSWAPOp (op : Operation) : bool :=
  bool_decide (getType op = OpType.SWAP) && (getNcontrols op =? 0).

(** [getControls().begin()->qubit]; there is no first control of an empty
    set. *)
Definition firstControlQubit (op : Operation) : Result nat :=
  match getControls op with c :: _ => Ok (cqubit c) | [] => Err NullDereference end.

(** One iteration of the loop over [qc.ops] in
    [CircuitOptimizer::cancelCNOTs] (l. 1438-1591), at slot [i].  The lanes
    hold slot indices, so comparing operation pointers compares indices;
    [dag.at(q).back()] is the last index of the lane, [++rbegin()] the one
    before it. *)
Definition cancelCNOTsStep (st : list Operation * DAG) (i : nat)
  : Result (list Operation * DAG) :=
  let '(ops, dag) := st in
  let* op := vat ops i in
  let add := let* d := addToDag dag op i in Ok (ops, d) in
  if negb (isStandardOperation op) then
    let* d := addNonStandardOperationToDag dag op i in Ok (ops, d)
  else
  let isCNOT := isCNOTOp op in
  let isSWAP := isSWAPOp op in
  if negb isCNOT && negb isSWAP then add else
  let* q0 := vat (getTargets op) 0 in
  let* q1 := if isSWAP then vat (getTargets op) 1 else firstControlQubit op in
  let* lane0 := vat dag q0 in
  match last lane0 with None => add | Some j0 =>
  let* lane1 := vat dag q1 in
  match last lane1 with None => add | Some j1 =>
  if negb (j0 =? j1) then add else
  let* op0 := vat ops j0 in
  let prevCNOT := isCNOTOp op0 in
  let prevSWAP := isSWAPOp op0 in
  if negb prevCNOT && negb prevSWAP then add else
  let* pq0 := vat (getTargets op0) 0 in
  let* pq1 := if prevSWAP then vat (getTargets op0) 1 else firstControlQubit op0 in
  if isCNOT && prevCNOT then
    if (q0 =? pq0) && (q1 =? pq1) then
      let* d1 := dag_pop_back dag q0 in
      let* d2 := dag_pop_back d1 q1 in
      let ops1 := <[j0 := clearControls (setGate op0 OpType.I)]> ops in
      let* opi := vat ops1 i in
      Ok (<[i := clearControls (setGate opi OpType.I)]> ops1, d2)
    else
      if (length lane0 <? 2) || (length lane1 <? 2) then add else
      let* k0 := vat lane0 (length lane0 - 2) in
      let* k1 := vat lane1 (length lane1 - 2) in
      if negb (k0 =? k1) then add else
      let* opk := vat ops k0 in
      if negb (isCNOTOp opk) then add else
      let* ppq0 := vat (getTargets opk) 0 in
      let* ppq1 := firstControlQubit opk in
      if (q0 =? ppq0) && (q1 =? ppq1) then
        let swapTargets := if pq1 <? pq0 then [pq1; pq0] else [pq0; pq1] in
        let ops1 := <[k0 := setTargets (clearControls (setGate opk OpType.SWAP)) swapTargets]> ops in
        let* op0' := vat ops1 j0 in
        let ops2 := <[j0 := clearControls (setGate op0' OpType.I)]> ops1 in
        let* opi := vat ops2 i in
        let ops3 := <[i := clearControls (setGate opi OpType.I)]> ops2 in
        let* d1 := dag_pop_back dag q0 in
        let* d2 := dag_pop_back d1 q1 in
        Ok (ops3, d2)
      else add
  else if isSWAP && prevSWAP then
    if bool_decide (to_set [q0; q1] = to_set [pq0; pq1]) then
      let* d1 := dag_pop_back dag q0 in
      let* d2 := dag_pop_back d1 q1 in
      let ops1 := <[j0 := clearControls (setGate op0 OpType.I)]> ops in
      let* opi := vat ops1 i in
      Ok (<[i := clearControls (setGate opi OpType.I)]> ops1, d2)
    else add
  else if isCNOT && prevSWAP then
    let ops1 := <[j0 := setControls (setTargets (setGate op0 OpType.X) [q0]) [mkControl q1 Pos]]> ops in
    let* opi := vat ops1 i in
    let opi' := setControls (setTargets opi [q1]) [mkControl q0 Pos] in
    let* d := addToDag dag opi' i in
    Ok (<[i := opi']> ops1, d)
  else if isSWAP && prevCNOT then
    let ops1 := <[j0 := setControls (setTargets op0 [pq1]) [mkControl pq0 Pos]]> ops in
    let* opi := vat ops1 i in
    let opi' := setControls (setTargets (setGate opi OpType.X) [pq0]) [mkControl pq1 Pos] in
    let* d := addToDag dag opi' i in
    Ok (<[i := opi']> ops1, d)
  else Ok (ops, dag)
  end end.

(** [CircuitOptimizer::cancelCNOTs] (l. 1430-1594): the loop, then
    [removeIdentities]. *)
Definition cancelCNOTs (qc : QuantumComputation) : Result QuantumComputation :=
  let* st := res_fold_left cancelCNOTsStep (seq 0 (length (qc_ops qc)))
               (qc_ops qc, emptyDAG (S (highestPhysicalQubit qc))) in
  Ok (removeIdentities (with_ops qc (fst st))).

(** The qubits a gate touches: its controls, then its targets. *)
Definition acts (op : Operation) : list nat := map cqubit (getControls op) ++ getTargets op.

(** Running a list of gates on a classical basis state. *)
Definition runClassical (ops : list Operation) (s : nat -> bool) : nat -> bool :=
  fold_left (fun s op => applyClassical op s) ops s.

(** The gates with a classical action on qubits below [n]: an X with
    distinct control and target qubits (any number of controls, of either
    polarity) or a SWAP of two distinct qubits without controls. *)
Definition classicalGate (n : nat) (op : Operation) : Prop :=
  match op with
  | StandardOperation OpType.X cs [t] =>
      NoDup (t :: map cqubit cs) /\ Forall (fun q => q < n) (t :: map cqubit cs)
  | StandardOperation OpType.SWAP [] [a; b] => a <> b /\ a < n /\ b < n
  | _ => False
  end.

(** A gate that commutes with every gate on the qubits [Q]. *)
Definition indep (Q : list nat) (M : Operation) : Prop :=
  getType M = OpType.I \/ forall q, q ∈ Q -> q ∉ acts M.

(** Same action on every classical basis state. *)
Definition sem_equiv (l l' : list Operation) : Prop :=
  forall s q, runClassical l s q = runClassical l' s q.

(** Slot [j] is on the lane of qubit [q]: its gate is not an identity and
    touches [q]. *)
Definition onLane (ops : list Operation) (q j : nat) : bool :=
  match ops !! j with
  | Some o => negb (isIdentity o) && nat_mem q (acts o)
  | None => false
  end.

(** The loop invariant of [cancelCNOTs] after [i] slots of a circuit
    [ops0] of classical gates: the slots from [i] on are untouched, those
    before hold classical gates or identities, each lane lists the
    non-identity slots before [i] on its qubit, and the classical action is
    that of [ops0]. *)
Record CCInv (N : nat) (ops0 : list Operation) (i : nat) (ops : list Operation) (dag : DAG)
  : Prop := {
  cc_len : length ops = length ops0;
  cc_tail : forall j, i <= j -> ops !! j = ops0 !! j;
  cc_done : forall j o, j < i -> ops !! j = Some o -> classicalGate N o \/ getType o = OpType.I;
  cc_lanes : dag = map (fun q => List.filter (onLane ops q) (seq 0 i)) (seq 0 N);
  cc_sem : sem_equiv ops ops0
}.

(** The lanes of the first [i] slots. *)
Definition lanes (N : nat) (ops : list Operation) (i : nat) : DAG :=
  map (fun q => List.filter (onLane ops q) (seq 0 i)) (seq 0 N).

(** A SWAP and an identity gate. *)
Definition swapOp (a b : nat) : Operation := StandardOperation OpType.SWAP [] [a; b].
Definition idOp (ts : list nat) : Operation := StandardOperation OpType.I [] ts.


(* ================================================================== *)
(** * Properties *)

Lemma nat_mem_In q l : nat_mem q l = true <-> In q l.
Proof.
  unfold nat_mem. rewrite existsb_exists. split.
  - intros [x [Hx Heq]]. apply Nat.eqb_eq in Heq. subst. exact Hx.
  - intros H. exists q. split; [exact H | apply Nat.eqb_refl].
Qed.

(** C10: a Barrier, Snapshot or ShowProbabilities acts on no qubit, even
    its own targets; a non-unitary operation acts on [q] exactly when it is
    a Measure measuring [q] or a Reset targeting [q]. *)
Theorem actsOn_nonunitary ty targets qubits classics :
  (ty = OpType.Barrier \/ ty = OpType.Snapshot \/ ty = OpType.ShowProbabilities ->
   forall q, actsOn (NonUnitaryOperation ty targets qubits classics) q = false) /\
  (forall q, actsOn (NonUnitaryOperation ty targets qubits classics) q = true <->
             (ty = OpType.Measure /\ In q qubits) \/ (ty = OpType.Reset /\ In q targets)).
Proof.
  split.
  - intros Hty q. simpl. unfold actsOnNonUnitary.
    destruct Hty as [-> | [-> | ->]]; reflexivity.
  - intros q. simpl. unfold actsOnNonUnitary.
    destruct (decide (ty = OpType.Measure)) as [->|Hm].
    + rewrite nat_mem_In. split; [tauto|]. intros [[_ H]|[H _]]; [exact H | discriminate].
    + destruct (decide (ty = OpType.Reset)) as [->|Hr].
      * rewrite nat_mem_In. split; [tauto|]. intros [[H _]|[_ H]]; [discriminate | exact H].
      * split; [discriminate|]. intros [[H _]|[H _]]; contradiction.
Qed.

(** C9: every Measure a constructor builds has as many measured qubits as
    classical bits; the register constructor throws exactly when the two
    registers differ in length, and otherwise keeps both registers in the
    given order (the i-th qubit is measured into the i-th bit). *)
Theorem measure_registers_match :
  (forall c op, construct c = Ok op -> getType op = OpType.Measure ->
     match op with
     | NonUnitaryOperation _ _ qubits classics => length qubits = length classics
     | _ => False
     end) /\
  (forall nq qs cs,
     construct (MeasureRegisterCtor nq qs cs) = Err InvalidArgument <-> length qs <> length cs) /\
  (forall nq qs cs, length qs = length cs ->
     construct (MeasureRegisterCtor nq qs cs) = Ok (NonUnitaryOperation OpType.Measure [] qs cs)).
Proof.
  split; [|split].
  - intros [nq qs cs|nq q cl|nq qs n|nq qs ty] op Hc Hty; simpl in Hc.
    + destruct (length qs =? length cs) eqn:E; simpl in Hc; [|discriminate].
      injection Hc as <-. apply Nat.eqb_eq. exact E.
    + injection Hc as <-. reflexivity.
    + injection Hc as <-. discriminate.
    + injection Hc as <-. reflexivity.
  - intros nq qs cs. simpl.
    destruct (length qs =? length cs) eqn:E; simpl.
    + apply Nat.eqb_eq in E. split; [discriminate | contradiction].
    + apply Nat.eqb_neq in E. split; [intros _; exact E | reflexivity].
  - intros nq qs cs H. simpl. apply Nat.eqb_eq in H. rewrite H. reflexivity.
Qed.

(** C9, witness. *)
Lemma measure_registers_match_witness :
  construct (MeasureRegisterCtor 2 [0; 1] [1; 0])
  = Ok (NonUnitaryOperation OpType.Measure [] [0; 1] [1; 0]).
Proof.
  destruct measure_registers_match as [_ [_ H]]. apply H. reflexivity.
Defined.

(** C10, witness: a Barrier on qubit 0 does not act on qubit 0. *)
Lemma actsOn_nonunitary_witness :
  actsOn (NonUnitaryOperation OpType.Barrier [0] [] []) 0 = false.
Proof.
  apply (proj1 (actsOn_nonunitary OpType.Barrier [0] [] [])). left. reflexivity.
Defined.

Lemma res_bind_Ok {A B} (a : A) (k : A -> Result B) : res_bind (Ok a) k = k a.
Proof. reflexivity. Qed.

Lemma dag_push_all_ok_lt (dag : DAG) qs x :
  Forall (fun q => q < length dag) qs -> exists d, dag_push_all dag qs x = Ok d /\ length d = length dag.
Proof.
  revert dag. induction qs as [|q qs IH]; intros dag Hq; simpl.
  - eauto.
  - inversion Hq as [|? ? Hlt Hrest]; subst.
    unfold dag_push. destruct (lookup_lt_is_Some_2 dag q Hlt) as [l Hl]. rewrite Hl. simpl.
    destruct (IH (<[q:=l ++ [x]]> dag)) as [d [Hd Hlen]].
    + rewrite length_insert. exact Hrest.
    + exists d. split; [exact Hd|]. rewrite Hlen, length_insert. reflexivity.
Qed.

(** Applying a CNOT [t -> c] and then a CNOT [c -> t] has the classical
    action of a SWAP followed by the CNOT [t -> c]: the pair the reversed
    branch of [swapReconstruction] rewrites, and its rewrite. *)
Lemma cnot_pair_is_swap_then_cnot c t (s : nat -> bool) q :
  c <> t ->
  applyClassical (cnot c t) (applyClassical (cnot t c) s) q =
  applyClassical (cnot t c)
    (applyClassical (StandardOperation OpType.SWAP [] (if c <? t then [c; t] else [t; c])) s) q.
Proof.
  intros Hct. unfold cnot, applyClassical, controlHolds. simpl.
  destruct (s c) eqn:Esc, (s t) eqn:Est;
    destruct (c <? t); simpl;
    repeat (match goal with |- context [?a =? ?b] => destruct (Nat.eqb_spec a b) end;
            subst; simpl; rewrite ?Esc, ?Est; simpl);
    congruence.
Qed.

(** C1 (as the code does it): when the operation at slot [i] is the
    positive-control CNOT [c -> t] and the last operation on both of its
    lanes is the same slot [j] holding the reversed CNOT [t -> c], the
    step rewrites slot [j] into a SWAP on the two qubits, targets in
    ascending order, and slot [i] into the CNOT [t -> c]: control and
    target of the current operation are exchanged, which is the rewrite
    that keeps the circuit's action (see [cnot_pair_is_swap_then_cnot]). *)
Theorem swapReconstruction_reversed_pair ops dag i j c t lc lt :
  c <> t ->
  ops !! i = Some (cnot c t) ->
  dag !! c = Some lc -> last lc = Some j ->
  dag !! t = Some lt -> last lt = Some j ->
  ops !! j = Some (cnot t c) ->
  exists dag',
    swapReconstructionStep (ops, dag) i =
    Ok (<[i := cnot t c]>
          (<[j := StandardOperation OpType.SWAP [] (if c <? t then [c; t] else [t; c])]> ops),
        dag').
Proof.
  intros Hct Hi Hc Hlc Ht Hlt Hj.
  assert (Hcl : c < length dag) by (apply lookup_lt_Some in Hc; exact Hc).
  assert (Htl : t < length dag) by (apply lookup_lt_Some in Ht; exact Ht).
  unfold swapReconstructionStep, vat. rewrite Hi. simpl. rewrite Hc, Ht. simpl.
  rewrite Hlc, Hlt, Hj. simpl.
  rewrite !Nat.eqb_refl. simpl.
  assert (E1 : (c =? t) = false) by (apply Nat.eqb_neq; exact Hct).
  rewrite E1. simpl.
  unfold dag_pop_back. rewrite Hc. simpl.
  rewrite list_lookup_insert_ne by (intros ->; contradiction). rewrite Ht. simpl.
  set (d2 := <[t:=removelast lt]> (<[c:=removelast lc]> dag)).
  assert (Hd2 : length d2 = length dag) by (unfold d2; rewrite !length_insert; reflexivity).
  set (sw := if c <? t then [c; t] else [t; c]).
  assert (Hsw : Forall (fun q => q < length d2) sw).
  { rewrite Hd2. unfold sw. destruct (c <? t); repeat constructor; assumption. }
  unfold addToDag at 1. simpl.
  destruct (dag_push_all_ok_lt d2 sw j Hsw) as [d3 [Hd3 Hd3l]].
  rewrite Hd3. simpl.
  unfold addToDag. simpl.
  destruct (dag_push_all_ok_lt d3 [t; c] i) as [d4 [Hd4 _]].
  { rewrite Hd3l, Hd2. repeat constructor; assumption. }
  simpl in Hd4. rewrite Hd4. simpl. exists d4. reflexivity.
Qed.

(** C1, witness: the pair [CNOT 0 -> 1; CNOT 1 -> 0] at slots 0 and 1. *)
Lemma swapReconstruction_reversed_pair_witness :
  exists dag',
    swapReconstructionStep ([cnot 0 1; cnot 1 0], [[0]; [0]]) 1 =
    Ok (<[1 := cnot 0 1]> (<[0 := StandardOperation OpType.SWAP [] [0; 1]]> [cnot 0 1; cnot 1 0]),
        dag').
Proof.
  apply (swapReconstruction_reversed_pair [cnot 0 1; cnot 1 0] [[0]; [0]] 1 0 1 0 [0] [0]);
    first [discriminate | reflexivity].
Defined.

(** C1, counterexample: on [CNOT 1 -> 0; CNOT 0 -> 1] the pass leaves a
    SWAP followed by [CNOT 1 -> 0], not by the CNOT [0 -> 1] it started
    from. *)
Lemma swapReconstruction_direction_counterexample :
  swapReconstruction (mkQC [cnot 1 0; cnot 0 1] [(0, 0); (1, 1)]) =
  Ok (mkQC [StandardOperation OpType.SWAP [] [0; 1]; cnot 1 0] [(0, 0); (1, 1)]).
Proof. vm_compute. reflexivity. Qed.

Lemma filter_negb_cons (f : Operation -> bool) a l :
  filter (fun c => negb (f c)) (a :: l) =
  if f a then filter (fun c => negb (f c)) l else a :: filter (fun c => negb (f c)) l.
Proof.
  destruct (f a) eqn:E.
  - rewrite filter_cons_False; [reflexivity|]. rewrite E. simpl. tauto.
  - rewrite filter_cons_True; [reflexivity|]. rewrite E. exact I.
Qed.

Lemma filter_no_identity cs :
  Forall (fun c => isIdentity c = false) cs ->
  filter (fun c => negb (isIdentity c)) cs = cs.
Proof.
  induction cs as [|a cs IH]; intros H; [reflexivity|].
  inversion H as [|? ? Ha Hcs]; subst.
  rewrite filter_negb_cons, Ha, IH by exact Hcs. reflexivity.
Qed.

Lemma filter_identity_forall cs :
  Forall (fun c => isCompoundOperation c = false) cs ->
  Forall (fun c => isIdentity c = false /\ isCompoundOperation c = false)
    (filter (fun c => negb (isIdentity c)) cs).
Proof.
  induction cs as [|a cs IH]; intros H; [constructor|].
  inversion H as [|? ? Ha Hcs]; subst.
  rewrite filter_negb_cons. destruct (isIdentity a) eqn:E.
  - exact (IH Hcs).
  - constructor; [split; assumption | exact (IH Hcs)].
Qed.

Lemma removeIdentitiesOps_clean ops :
  Forall cleanOp ops -> removeIdentitiesOps ops = ops.
Proof.
  induction ops as [|op ops IH]; intros H; [reflexivity|].
  inversion H as [|? ? [HnI Hc] Hops]; subst.
  simpl. rewrite HnI. rewrite (IH Hops).
  destruct op as [ty cs ts|ty ts qs cls|cops|cop reg ev]; try reflexivity.
  destruct Hc as [Hlen Hcs].
  rewrite filter_no_identity by (eapply Forall_impl; [exact Hcs | intros x [Hx _]; exact Hx]).
  destruct cops as [|a [|b rest]]; simpl in Hlen; [lia | lia | reflexivity].
Qed.

Lemma removeIdentitiesOps_flat ops :
  Forall flatOp ops -> Forall cleanOp (removeIdentitiesOps ops).
Proof.
  induction ops as [|op ops IH]; intros H; [constructor|].
  inversion H as [|? ? Hop Hops]; subst.
  simpl. destruct (isIdentity op) eqn:EI; [exact (IH Hops)|].
  destruct op as [ty cs ts|ty ts qs cls|cops|cop reg ev].
  - constructor; [split; [exact EI | exact I] | exact (IH Hops)].
  - constructor; [split; [exact EI | exact I] | exact (IH Hops)].
  - simpl in Hop. pose proof (filter_identity_forall cops Hop) as Hf.
    destruct (filter (fun c => negb (isIdentity c)) cops) as [|a [|b rest]] eqn:Ef.
    + exact (IH Hops).
    + inversion Hf as [|? ? [HaI HaC] _]; subst.
      constructor; [|exact (IH Hops)].
      split; [exact HaI|]. destruct a; try exact I. discriminate.
    + constructor; [|exact (IH Hops)].
      split; [reflexivity|]. split; [simpl; lia | exact Hf].
  - constructor; [split; [exact EI | exact I] | exact (IH Hops)].
Qed.

Lemma cleanOp_noIdentityOp op : cleanOp op -> noIdentityOp op.
Proof.
  intros [HnI Hc]. split; [exact HnI|].
  destruct op; try exact I. destruct Hc as [_ Hcs].
  eapply Forall_impl; [exact Hcs | intros x [Hx _]; exact Hx].
Qed.

(** C2 (as the code does it): on a circuit whose Compounds hold no
    Compound, [removeIdentities] is idempotent and leaves no identity at
    the top level or among the children of a Compound. *)
Theorem removeIdentities_idempotent_flat qc :
  Forall flatOp (qc_ops qc) ->
  removeIdentities (removeIdentities qc) = removeIdentities qc /\
  Forall noIdentityOp (qc_ops (removeIdentities qc)).
Proof.
  intros Hflat. pose proof (removeIdentitiesOps_flat _ Hflat) as Hc.
  split.
  - unfold removeIdentities at 1. simpl. rewrite (removeIdentitiesOps_clean _ Hc).
    destruct qc. reflexivity.
  - simpl. eapply Forall_impl; [exact Hc | exact cleanOp_noIdentityOp].
Qed.

(** C2, witness: an identity at the top level and one inside a Compound. *)
Lemma removeIdentities_idempotent_flat_witness :
  let qc := mkQC [StandardOperation OpType.I [] [0];
                  CompoundOperation [StandardOperation OpType.I [] [1];
                                     hadamard 0; hadamard 1]] [(0, 0); (1, 1)] in
  Forall flatOp (qc_ops qc) /\
  removeIdentities (removeIdentities qc) = removeIdentities qc /\
  Forall noIdentityOp (qc_ops (removeIdentities qc)).
Proof.
  intros qc.
  assert (H : Forall flatOp (qc_ops qc)) by (repeat constructor).
  split; [exact H | exact (removeIdentities_idempotent_flat qc H)].
Defined.

(** C2, counterexample: an identity inside a Compound inside a Compound
    survives the first run (the outer Compound is replaced by its only
    child) and is only removed by a second run. *)
Lemma removeIdentities_nested_counterexample :
  let qc := mkQC [CompoundOperation [CompoundOperation [StandardOperation OpType.I [] [0]]]]
                 [(0, 0)] in
  removeIdentities qc = mkQC [CompoundOperation [StandardOperation OpType.I [] [0]]] [(0, 0)] /\
  removeIdentities (removeIdentities qc) = mkQC [] [(0, 0)].
Proof. split; vm_compute; reflexivity. Qed.

Lemma res_concat_map_Ok {A B} (f : A -> Result (list B)) (g : A -> list B) l :
  Forall (fun x => f x = Ok (g x)) l -> res_concat_map f l = Ok (concat (map g l)).
Proof.
  induction l as [|a l IH]; intros H; [reflexivity|].
  inversion H as [|? ? Ha Hl]; subst. simpl. rewrite Ha. simpl. rewrite (IH Hl). reflexivity.
Qed.

Lemma decomposeSWAPOp_undirected op :
  swapWellFormed op -> decomposeSWAPOp false op = Ok (swapAsCNOTs op).
Proof.
  intros H. destruct op as [ty cs ts| | |]; try reflexivity.
  destruct ty; try reflexivity. simpl in H.
  destruct ts as [|a [|b [|c ts]]]; simpl in H; try discriminate. reflexivity.
Qed.

(** C6 (as the code does it): with [directed = false], every SWAP at the
    top level and every SWAP among the children of a top-level Compound is
    replaced in place by [CNOT(a,b); CNOT(b,a); CNOT(a,b)]; everything else
    is kept, SWAPs in deeper Compounds included. *)
Theorem decomposeSWAP_undirected qc :
  Forall swapWellFormedTop (qc_ops qc) ->
  decomposeSWAP qc false = Ok (with_ops qc (decomposeSWAPExpected (qc_ops qc))).
Proof.
  intros H. unfold decomposeSWAP, decomposeSWAPOps, decomposeSWAPExpected.
  rewrite (res_concat_map_Ok _
             (fun op => match op with
                        | CompoundOperation cs => [CompoundOperation (concat (map swapAsCNOTs cs))]
                        | _ => swapAsCNOTs op
                        end)).
  { reflexivity. }
  eapply Forall_impl; [exact H|]. intros op [Hop Hcs].
  destruct op as [ty cs ts|ty ts qs cls|cops|cop reg ev].
  - exact (decomposeSWAPOp_undirected _ Hop).
  - reflexivity.
  - rewrite (res_concat_map_Ok _ swapAsCNOTs).
    + reflexivity.
    + eapply Forall_impl; [exact Hcs | exact decomposeSWAPOp_undirected].
  - reflexivity.
Qed.

(** C6, witness: a SWAP at the top level and one inside a Compound. *)
Lemma decomposeSWAP_undirected_witness :
  decomposeSWAP (mkQC [StandardOperation OpType.SWAP [] [0; 1];
                       CompoundOperation [hadamard 0; StandardOperation OpType.SWAP [] [1; 0]]]
                      [(0, 0); (1, 1)]) false =
  Ok (mkQC [cnot 0 1; cnot 1 0; cnot 0 1;
            CompoundOperation [hadamard 0; cnot 1 0; cnot 0 1; cnot 1 0]] [(0, 0); (1, 1)]).
Proof.
  rewrite decomposeSWAP_undirected; [reflexivity|].
  repeat constructor.
Defined.

(** C6, counterexample: a SWAP inside a Compound inside a Compound is not
    decomposed. *)
Lemma decomposeSWAP_nested_counterexample :
  let qc := mkQC [CompoundOperation [CompoundOperation [StandardOperation OpType.SWAP [] [0; 1]]]]
                 [(0, 0); (1, 1)] in
  decomposeSWAP qc false = Ok qc.
Proof. vm_compute. reflexivity. Qed.

(** C4: a measurement of two qubits that directly follows a deferred
    measurement is never checked: after the first measurement is erased,
    the outer loop's [++it] passes over the operation that took its place.
    The pass raises no error and leaves the two-qubit measurement in the
    circuit. *)
Lemma deferMeasurements_skips_multi_target :
  deferMeasurements 10
    (mkQC [NonUnitaryOperation OpType.Measure [] [0] [0];
           NonUnitaryOperation OpType.Measure [] [0; 1] [0; 1]] [(0, 0); (1, 1)]) =
  Ok (mkQC [NonUnitaryOperation OpType.Measure [] [0; 1] [0; 1];
            NonUnitaryOperation OpType.Measure [] [0] [0]] [(0, 0); (1, 1)]).
Proof. vm_compute. reflexivity. Qed.

(** C5: the guard [controlRegister.second != 1 && expectedValue <= 1]
    lets a classic-controlled operation on a two-bit register through
    when its expected value is 2; it is rewritten as if it were controlled
    by bit 0 alone (a negative control on the measured qubit). *)
Lemma deferMeasurements_accepts_two_bit_register :
  deferMeasurements 10
    (mkQC [NonUnitaryOperation OpType.Measure [] [0] [0];
           ClassicControlledOperation (StandardOperation OpType.X [] [1]) (0, 2) 2]
          [(0, 0); (1, 1)]) =
  Ok (mkQC [StandardOperation OpType.X [mkControl 0 Neg] [1];
            NonUnitaryOperation OpType.Measure [] [0] [0]] [(0, 0); (1, 1)]).
Proof. vm_compute. reflexivity. Qed.

(** C7: a top-level Compound holding a Reset is non-unitary, so it takes
    the non-unitary branch, whose type test sees [Compound]; its children
    are never inspected and the circuit is reported as not dynamic. *)
Lemma isDynamicCircuit_misses_reset_in_compound :
  isDynamicCircuit (mkQC [CompoundOperation [NonUnitaryOperation OpType.Reset [0] [] []]]
                         [(0, 0)]) = Ok false.
Proof. vm_compute. reflexivity. Qed.

(* ------------------------------------------------------------------ *)
(** ** [constructDAG] in closed form *)

Lemma res_fold_left_ext {A B} (f g : A -> B -> Result A) l a :
  (forall x y, f x y = g x y) -> res_fold_left f l a = res_fold_left g l a.
Proof.
  intros Hfg. revert a. induction l as [|b l IH]; intros a; simpl; [reflexivity|].
  rewrite Hfg. destruct (g a b); simpl; [apply IH|reflexivity].
Qed.

Lemma map_seq_lookup {A} (F : nat -> A) s n q :
  map F (seq s n) !! q = if q <? n then Some (F (s + q)) else None.
Proof.
  revert s q. induction n as [|n IH]; intros s [|q]; simpl; try reflexivity.
  - rewrite Nat.add_0_r. reflexivity.
  - rewrite IH. rewrite Nat.add_succ_r. reflexivity.
Qed.

Lemma repeat_map_seq {A} (x : A) s n : repeat x n = map (fun _ => x) (seq s n).
Proof. revert s. induction n as [|n IH]; intros s; simpl; [reflexivity|]. f_equal. apply IH. Qed.

Lemma insert_map_seq {A} (F : nat -> A) n q v :
  q < n -> <[q := v]> (map F (seq 0 n)) = map (fun p => if p =? q then v else F p) (seq 0 n).
Proof.
  intros Hq. apply list_eq. intros i.
  rewrite list_lookup_insert, !map_seq_lookup, length_map, length_seq.
  destruct (decide (q = i /\ q < n)) as [[-> _]|Hn].
  - rewrite (proj2 (Nat.ltb_lt i n) Hq), Nat.eqb_refl. reflexivity.
  - destruct (i <? n) eqn:Hi; [|reflexivity].
    apply Nat.ltb_lt in Hi. simpl. destruct (Nat.eqb_spec i q); [subst; tauto|reflexivity].
Qed.

Lemma dag_push_all_seq {A} (F : nat -> list A) n qs x :
  dag_push_all (map F (seq 0 n)) qs x =
  if forallb (fun q => q <? n) qs
  then Ok (map (fun p => F p ++ repeat x (count_occ Nat.eq_dec qs p)) (seq 0 n))
  else Err OutOfRange.
Proof.
  revert F. induction qs as [|q qs IH]; intros F; simpl.
  - f_equal. apply map_ext. intros. rewrite app_nil_r. reflexivity.
  - unfold dag_push. rewrite map_seq_lookup. destruct (q <? n) eqn:Hq; simpl; [|reflexivity].
    apply Nat.ltb_lt in Hq.
    rewrite insert_map_seq by exact Hq. rewrite IH.
    destruct (forallb _ qs); [|reflexivity]. f_equal. apply map_ext. intros p.
    destruct (Nat.eq_dec q p) as [<-|Hne].
    + rewrite Nat.eqb_refl, <- app_assoc. reflexivity.
    + destruct (Nat.eqb_spec p q); [congruence|reflexivity].
Qed.

Lemma constructDAG_step ops dag i :
  (match ops !! i with Some op => addOperationToDag dag op i | None => Ok dag end)
  = dag_push_all dag (slotQubits ops i) i.
Proof. unfold slotQubits. destruct (ops !! i) as [op|]; [|reflexivity]. destruct op; reflexivity. Qed.

Lemma fold_lanes ops n s m G :
  res_fold_left (fun dag i => dag_push_all dag (slotQubits ops i) i) (seq s m) (map G (seq 0 n)) =
  if forallb (fun i => forallb (fun q => q <? n) (slotQubits ops i)) (seq s m)
  then Ok (map (fun p => G p ++ laneFrom ops s m p) (seq 0 n)) else Err OutOfRange.
Proof.
  revert s G. induction m as [|m IH]; intros s G; simpl.
  - f_equal. apply map_ext. intros. unfold laneFrom. simpl. rewrite app_nil_r. reflexivity.
  - rewrite dag_push_all_seq. destruct (forallb _ (slotQubits ops s)); simpl; [|reflexivity].
    rewrite IH. destruct (forallb _ (seq (S s) m)); [|reflexivity].
    f_equal. apply map_ext. intros p. rewrite <- app_assoc. reflexivity.
Qed.

Lemma constructDAG_lanes qc :
  constructDAG qc =
  if forallb (fun i => forallb (fun q => q <? S (highestPhysicalQubit qc)) (slotQubits (qc_ops qc) i))
       (seq 0 (length (qc_ops qc)))
  then Ok (map (laneFrom (qc_ops qc) 0 (length (qc_ops qc))) (seq 0 (S (highestPhysicalQubit qc))))
  else Err OutOfRange.
Proof.
  unfold constructDAG, emptyDAG. rewrite (repeat_map_seq _ 0).
  erewrite res_fold_left_ext by (intros; apply constructDAG_step).
  rewrite fold_lanes. reflexivity.
Qed.

(* ------------------------------------------------------------------ *)
(** ** A successful run of the scheduler *)

Lemma res_fold_left_inv {A B} (P : A -> Prop) (f : A -> B -> Result A) l a b :
  (forall a b x, P a -> f a x = Ok b -> P b) -> P a -> res_fold_left f l a = Ok b -> P b.
Proof.
  intros Hf. revert a. induction l as [|x l IH]; intros a Ha H; simpl in H.
  - injection H as <-. exact Ha.
  - destruct (f a x) as [a'|e] eqn:E; simpl in H; [|discriminate].
    exact (IH a' (Hf _ _ _ Ha E) H).
Qed.

Lemma executable_true lanes acts cur q i qbs :
  executable lanes acts cur q i qbs = Ok true ->
  forall qb, In qb qbs -> qb <> q -> acts i qb = true ->
  lane_at lanes qb !! cursor_at cur qb = Some i.
Proof.
  induction qbs as [|qb0 qbs IH]; intros H qb Hin Hne Hact; simpl in *; [contradiction|].
  destruct (negb (qb0 =? q) && acts i qb0) eqn:E.
  - destruct (lane_at lanes qb0 !! cursor_at cur qb0) as [j|] eqn:Hj; [|discriminate].
    destruct (Nat.eqb_spec j i) as [->|]; [|discriminate].
    destruct Hin as [<-|Hin]; [exact Hj|exact (IH H qb Hin Hne Hact)].
  - destruct Hin as [<-|Hin]; [|exact (IH H qb Hin Hne Hact)].
    apply Nat.eqb_neq in Hne. rewrite Hne, Hact in E. discriminate.
Qed.

Lemma cursor_advance cur adv q :
  cursor_at (advance cur adv) q =
  if nat_mem q adv && (q <? length cur) then S (cursor_at cur q) else cursor_at cur q.
Proof.
  unfold cursor_at, advance. rewrite list_lookup_imap.
  destruct (cur !! q) as [c|] eqn:E; simpl.
  - rewrite (proj2 (Nat.ltb_lt q (length cur)) (lookup_lt_Some _ _ _ E)), andb_true_r.
    reflexivity.
  - rewrite (proj2 (Nat.ltb_ge q (length cur)) (lookup_ge_None_1 _ _ E)), andb_false_r.
    reflexivity.
Qed.

Lemma visitQubit_inv lanes acts n d cur out q d' cur' out' :
  SchedInv lanes cur out ->
  visitQubit lanes acts n (d, cur, out) q = Ok (d', cur', out') ->
  SchedInv lanes cur' out'.
Proof.
  intros (Hnd & Hsub & Hel) H. unfold visitQubit in H.
  destruct (lane_at lanes q !! cursor_at cur q) as [i|] eqn:Hl;
    [|injection H as _ <- <-; repeat split; assumption].
  destruct (nat_mem i out) eqn:Hm; [discriminate|].
  destruct (executable lanes acts cur q i (rev (seq 0 n))) as [ex|e] eqn:Hex;
    simpl in H; [|discriminate].
  destruct ex; injection H as _ <- <-; [|repeat split; assumption].
  assert (Hni : i ∉ out).
  { rewrite list_elem_of_In, <- nat_mem_In, Hm. discriminate. }
  repeat split.
  - apply NoDup_app. split; [exact Hnd|]. split; [|apply NoDup_singleton].
    intros x Hx Hx'. apply list_elem_of_singleton in Hx'. subst. contradiction.
  - intros q''. rewrite cursor_advance.
    destruct (nat_mem q'' _ && (q'' <? length cur)) eqn:E.
    + apply andb_prop in E as [E _]. apply nat_mem_In in E.
      assert (Hq'' : lane_at lanes q'' !! cursor_at cur q'' = Some i).
      { destruct E as [<-|E]; [exact Hl|].
        apply list_elem_of_In, list_elem_of_filter in E as [Hp Hin].
        apply Is_true_eq_true, andb_prop in Hp as [Hp1 Hp2]. apply negb_true_iff, Nat.eqb_neq in Hp1.
        apply list_elem_of_In in Hin.
        exact (executable_true _ _ _ _ _ _ Hex q'' Hin Hp1 Hp2). }
      rewrite (take_S_r _ _ _ Hq''). apply sublist_app; [apply Hsub|reflexivity].
    + apply sublist_inserts_r, Hsub.
  - intros x Hx. apply elem_of_app in Hx as [Hx|Hx]; [exact (Hel x Hx)|].
    apply list_elem_of_singleton in Hx. subst. exists q.
    exact (list_elem_of_lookup_2 _ _ _ Hl).
Qed.

Lemma visitQubit_false lanes acts n cur out q d' cur' out' :
  visitQubit lanes acts n (false, cur, out) q = Ok (d', cur', out') -> d' = false.
Proof.
  unfold visitQubit. destruct (_ !! _); [|congruence].
  destruct (nat_mem _ _); [discriminate|].
  destruct (executable _ _ _ _ _ _) as [[]|]; simpl; congruence.
Qed.

Lemma sweep_false lanes acts n qs cur out d' cur' out' :
  res_fold_left (visitQubit lanes acts n) qs (false, cur, out) = Ok (d', cur', out') -> d' = false.
Proof.
  intros H. apply (res_fold_left_inv (fun st => fst (fst st) = false)) in H; [exact H| |reflexivity].
  intros [[a c] o] [[b c'] o'] x Ha Hv. simpl in *. subst. exact (visitQubit_false _ _ _ _ _ _ _ _ _ Hv).
Qed.

Lemma sweep_true lanes acts n qs cur out cur' out' :
  res_fold_left (visitQubit lanes acts n) qs (true, cur, out) = Ok (true, cur', out') ->
  cur' = cur /\ out' = out /\ forall q, In q qs -> lane_at lanes q !! cursor_at cur q = None.
Proof.
  revert cur out. induction qs as [|q qs IH]; intros cur out H; simpl in H.
  - injection H as <- <-. repeat split. intros ? [].
  - unfold visitQubit at 1 in H.
    destruct (lane_at lanes q !! cursor_at cur q) as [i|] eqn:Hl.
    + destruct (nat_mem i out); [discriminate|].
      destruct (executable _ _ _ _ _ _) as [[]|]; simpl in H; try discriminate;
        apply sweep_false in H; discriminate.
    + simpl in H. destruct (IH _ _ H) as (-> & -> & Hq). repeat split.
      intros q' [<-|Hq']; [exact Hl|exact (Hq q' Hq')].
Qed.

Lemma schedule_inv fuel lanes acts n cur out res :
  SchedInv lanes cur out ->
  schedule fuel lanes acts n cur out = Ok res ->
  exists cur', SchedInv lanes cur' res /\
    forall q, In q (rev (seq 0 n)) -> lane_at lanes q !! cursor_at cur' q = None.
Proof.
  revert cur out. induction fuel as [|fuel IH]; intros cur out Hinv H; simpl in H; [discriminate|].
  destruct (sweep lanes acts n cur out) as [[[d c'] o']|e] eqn:Hs; simpl in H; [|discriminate].
  unfold sweep in Hs. destruct d.
  - injection H as <-. destruct (sweep_true _ _ _ _ _ _ _ _ Hs) as (-> & -> & Hq).
    exists cur. split; assumption.
  - apply (IH c' o'); [|exact H].
    apply (res_fold_left_inv (fun st => SchedInv lanes (snd (fst st)) (snd st))) in Hs;
      [exact Hs| |exact Hinv].
    intros [[a c] o] [[b c''] o''] x Ha Hv. exact (visitQubit_inv _ _ _ _ _ _ _ _ _ _ Ha Hv).
Qed.

Lemma schedule_covers fuel lanes acts res :
  schedule fuel lanes acts (length lanes) (repeat 0 (length lanes)) [] = Ok res ->
  NoDup res /\ (forall q, lane_at lanes q `sublist_of` res) /\
  (forall x, x ∈ res -> exists q, x ∈ lane_at lanes q).
Proof.
  intros H. apply schedule_inv in H as (cur' & (Hnd & Hsub & Hel) & Hdone).
  - split; [exact Hnd|]. split; [|exact Hel]. intros q.
    destruct (decide (q < length lanes)) as [Hq|Hq].
    + specialize (Hsub q). rewrite take_ge in Hsub; [exact Hsub|].
      apply lookup_ge_None_1, Hdone. apply (proj1 (in_rev _ _)), in_seq. lia.
    + unfold lane_at. rewrite (lookup_ge_None_2 lanes q) by lia. apply sublist_nil_l.
  - split; [constructor|]. split.
    + intros q. unfold cursor_at.
      destruct (repeat 0 (length lanes) !! q) as [c|] eqn:E; [|apply sublist_nil_l].
      apply list_elem_of_lookup_2, list_elem_of_In, repeat_spec in E. subst.
      apply sublist_nil_l.
    + intros x Hx. inversion Hx.
Qed.

(* ------------------------------------------------------------------ *)
(** ** Running the scheduler on renamed slots *)

Lemma map_lookup {A B} (g : A -> B) l i : map g l !! i = g <$> l !! i.
Proof. revert i. induction l as [|x l IH]; intros [|i]; simpl; auto. Qed.

Section Renaming.
Variables (lanes : list (list nat)) (acts acts' : nat -> nat -> bool) (f : nat -> nat)
  (P : nat -> Prop).
Hypothesis HP : forall q x, x ∈ lane_at lanes q -> P x.
Hypothesis Hinj : forall x y, P x -> P y -> f x = f y -> x = y.
Hypothesis Hacts : forall x q, P x -> acts' (f x) q = acts x q.

Lemma lane_at_map q : lane_at (map (map f) lanes) q = map f (lane_at lanes q).
Proof. unfold lane_at. rewrite map_lookup. destruct (lanes !! q); reflexivity. Qed.

Lemma executable_rename cur q i qbs :
  P i -> executable (map (map f) lanes) acts' cur q (f i) qbs = executable lanes acts cur q i qbs.
Proof.
  intros Hi. induction qbs as [|qb qbs IH]; simpl; [reflexivity|].
  rewrite Hacts by exact Hi. destruct (negb (qb =? q) && acts i qb); [|exact IH].
  rewrite lane_at_map, map_lookup.
  destruct (lane_at lanes qb !! cursor_at cur qb) as [j|] eqn:Hj; simpl; [|reflexivity].
  assert (Hpj : P j) by exact (HP qb j (list_elem_of_lookup_2 _ _ _ Hj)).
  destruct (Nat.eqb_spec (f j) (f i)) as [E|E]; destruct (Nat.eqb_spec j i); subst;
    try exact IH; try reflexivity.
  - pose proof (Hinj _ _ Hpj Hi E). contradiction.
  - contradiction.
Qed.

Lemma nat_mem_rename i out :
  P i -> Forall P out -> nat_mem (f i) (map f out) = nat_mem i out.
Proof.
  intros Hi Hout. unfold nat_mem. induction Hout as [|x out Hx Hout IH]; simpl; [reflexivity|].
  rewrite IH. destruct (Nat.eqb_spec (f i) (f x)) as [E|E]; destruct (Nat.eqb_spec i x);
    subst; try reflexivity.
  - pose proof (Hinj _ _ Hi Hx E). contradiction.
  - contradiction.
Qed.

Lemma visitQubit_rename n d cur out q d' cur' out' :
  Forall P out ->
  visitQubit lanes acts n (d, cur, out) q = Ok (d', cur', out') ->
  visitQubit (map (map f) lanes) acts' n (d, cur, map f out) q = Ok (d', cur', map f out') /\
  Forall P out'.
Proof.
  intros Hout. unfold visitQubit. rewrite lane_at_map, map_lookup.
  destruct (lane_at lanes q !! cursor_at cur q) as [i|] eqn:Hl; simpl;
    [|intros H; injection H as <- <- <-; split; [reflexivity|exact Hout]].
  assert (Hi : P i) by exact (HP q i (list_elem_of_lookup_2 _ _ _ Hl)).
  rewrite nat_mem_rename by assumption. destruct (nat_mem i out); [discriminate|].
  rewrite executable_rename by exact Hi.
  destruct (executable lanes acts cur q i (rev (seq 0 n))) as [[]|e]; simpl; intros H;
    [|injection H as <- <- <-; split; [reflexivity|exact Hout]|discriminate].
  injection H as <- <- <-. split.
  - rewrite map_app. simpl. do 5 f_equal.
    apply list_filter_iff. intros x. rewrite Hacts by exact Hi. reflexivity.
  - apply Forall_app. split; [exact Hout|]. constructor; [exact Hi|constructor].
Qed.

Lemma sweep_rename n qs d cur out d' cur' out' :
  Forall P out ->
  res_fold_left (visitQubit lanes acts n) qs (d, cur, out) = Ok (d', cur', out') ->
  res_fold_left (visitQubit (map (map f) lanes) acts' n) qs (d, cur, map f out)
    = Ok (d', cur', map f out') /\ Forall P out'.
Proof.
  revert d cur out. induction qs as [|q qs IH]; intros d cur out Hout H; cbn [res_fold_left] in *.
  - injection H as <- <- <-. split; [reflexivity|exact Hout].
  - destruct (visitQubit lanes acts n (d, cur, out) q) as [[[d1 c1] o1]|e] eqn:Hv;
      simpl in H; [|discriminate].
    destruct (visitQubit_rename _ _ _ _ _ _ _ _ Hout Hv) as [-> Ho1]. simpl.
    exact (IH _ _ _ Ho1 H).
Qed.

Lemma schedule_rename fuel n cur out res :
  Forall P out ->
  schedule fuel lanes acts n cur out = Ok res ->
  schedule fuel (map (map f) lanes) acts' n cur (map f out) = Ok (map f res).
Proof.
  revert cur out. induction fuel as [|fuel IH]; intros cur out Hout H; cbn [schedule] in *; [discriminate|].
  unfold sweep in *.
  destruct (res_fold_left (visitQubit lanes acts n) (rev (seq 0 n)) (true, cur, out))
    as [[[d c1] o1]|e] eqn:Hs; simpl in H; [|discriminate].
  destruct (sweep_rename _ _ _ _ _ _ _ _ Hout Hs) as [-> Ho1]. simpl.
  destruct d; [injection H as <-; reflexivity|exact (IH _ _ Ho1 H)].
Qed.

End Renaming.

(* ------------------------------------------------------------------ *)
(** ** Lanes of the reordered circuit *)

Lemma in_laneFrom ops s m p x : In x (laneFrom ops s m p) -> s <= x < s + m.
Proof.
  unfold laneFrom. rewrite in_concat. intros (l & Hl & Hx).
  apply in_map_iff in Hl as (i & <- & Hi). apply repeat_spec in Hx. subst.
  apply in_seq in Hi. exact Hi.
Qed.

Lemma count_laneFrom ops s m p x :
  s <= x < s + m ->
  count_occ Nat.eq_dec (laneFrom ops s m p) x = count_occ Nat.eq_dec (slotQubits ops x) p.
Proof.
  revert s. induction m as [|m IH]; intros s Hx; [lia|].
  assert (E : laneFrom ops s (S m) p
              = repeat s (count_occ Nat.eq_dec (slotQubits ops s) p) ++ laneFrom ops (S s) m p)
    by reflexivity.
  rewrite E, count_occ_app.
  destruct (Nat.eq_dec x s) as [->|Hne].
  - rewrite count_occ_repeat_eq by reflexivity.
    assert (Hn : ~ In s (laneFrom ops (S s) m p)) by (intros Hin; apply in_laneFrom in Hin; lia).
    apply (count_occ_not_In Nat.eq_dec) in Hn. rewrite Hn. lia.
  - rewrite count_occ_repeat_neq by exact Hne. apply IH. lia.
Qed.

Lemma sublist_filter_elem (Q : nat -> Prop) `{!forall x, Decision (Q x)} l out :
  l `sublist_of` out -> NoDup out -> (forall y, y ∈ out -> (Q y <-> y ∈ l)) -> filter Q out = l.
Proof.
  induction 1 as [|x l1 l2 Hs IH|x l1 l2 Hs IH]; intros Hnd HQ.
  - reflexivity.
  - apply NoDup_cons in Hnd as [Hx Hnd].
    rewrite filter_cons_True by (apply HQ; constructor).
    f_equal. apply IH; [exact Hnd|]. intros y Hy. rewrite HQ by (constructor; exact Hy).
    rewrite elem_of_cons. split; [intros [->|Hy2]; [contradiction|exact Hy2]|intros Hy2; right; exact Hy2].
  - apply NoDup_cons in Hnd as [Hx Hnd].
    rewrite filter_cons_False.
    + apply IH; [exact Hnd|]. intros y Hy. apply HQ. constructor. exact Hy.
    + rewrite HQ by constructor. intros Hl1. apply Hx. exact (elem_of_sublist _ _ _ Hl1 Hs).
Qed.

Lemma concat_repeat_filter (Q : nat -> Prop) `{!forall x, Decision (Q x)} (c : nat -> nat) l :
  (forall k, In k l -> c k = if decide (Q k) then 1 else 0) ->
  concat (map (fun k => repeat k (c k)) l) = filter Q l.
Proof.
  induction l as [|k l IH]; intros Hc; simpl; [reflexivity|].
  rewrite filter_cons, (Hc k (or_introl eq_refl)).
  destruct (decide (Q k)); simpl; [f_equal|]; apply IH; intros; apply Hc; right; assumption.
Qed.

Lemma filter_map_S (Q : nat -> Prop) `{!forall x, Decision (Q x)} l :
  filter Q (map S l) = map S (filter (fun k => Q (S k)) l).
Proof.
  induction l as [|k l IH]; simpl; [reflexivity|]. rewrite !filter_cons.
  destruct (decide (Q (S k))); simpl; rewrite IH; reflexivity.
Qed.

Lemma index_of_filter (Q : nat -> Prop) `{!forall x, Decision (Q x)} out :
  NoDup out ->
  map (index_of out) (filter Q out) = filter (fun k => Q (out !!! k)) (seq 0 (length out)).
Proof.
  induction out as [|x xs IH]; intros Hnd; [reflexivity|].
  apply NoDup_cons in Hnd as [Hx Hnd].
  assert (Hm : map (index_of (x :: xs)) (filter Q xs) = map S (map (index_of xs) (filter Q xs))).
  { rewrite map_map. apply map_ext_in. intros y Hy. simpl.
    destruct (Nat.eqb_spec y x); [|reflexivity]. subst. exfalso. apply Hx.
    apply list_elem_of_In, list_elem_of_filter in Hy. tauto. }
  cbn [length seq]. rewrite <- seq_shift, !filter_cons, filter_map_S.
  change ((x :: xs) !!! 0) with x.
  replace (filter (fun k => Q ((x :: xs) !!! S k)) (seq 0 (length xs)))
    with (filter (fun k => Q (xs !!! k)) (seq 0 (length xs))) by reflexivity.
  rewrite <- IH by exact Hnd.
  destruct (decide (Q x)); cbn [map]; [|exact Hm].
  simpl index_of at 1. rewrite Nat.eqb_refl, Hm. reflexivity.
Qed.

Lemma filter_True_all (l : list nat) : filter (fun _ => True) l = l.
Proof. induction l as [|x l IH]; [reflexivity|]. rewrite filter_cons_True by exact I. f_equal. exact IH. Qed.

Lemma index_of_seq out : NoDup out -> map (index_of out) out = seq 0 (length out).
Proof.
  intros Hnd. pose proof (index_of_filter (fun _ => True) out Hnd) as E.
  rewrite !filter_True_all in E. exact E.
Qed.

Lemma index_of_lookup l x : x ∈ l -> l !! index_of l x = Some x.
Proof.
  induction l as [|y l IH]; intros H; [inversion H|]. simpl.
  destruct (Nat.eqb_spec x y) as [->|Hne]; [reflexivity|].
  apply elem_of_cons in H as [->|H]; [contradiction|]. exact (IH H).
Qed.

Lemma omap_lookup_is_Some {A B} (g : A -> option B) l k :
  Forall (fun x => is_Some (g x)) l -> omap g l !! k = l !! k ≫= g.
Proof.
  intros Hl. revert k. induction Hl as [|x l [y Hy] Hl IH]; intros k; [reflexivity|].
  simpl. rewrite Hy. destruct k; simpl; [rewrite Hy; reflexivity|apply IH].
Qed.

Lemma length_omap_is_Some {A B} (g : A -> option B) l :
  Forall (fun x => is_Some (g x)) l -> length (omap g l) = length l.
Proof.
  induction 1 as [|x l [y Hy] Hl IH]; [reflexivity|]. simpl. rewrite Hy. simpl. f_equal. exact IH.
Qed.

Lemma omap_seq {A} (g : nat -> option A) l s :
  (forall k, k < length l -> g (s + k) = l !! k) -> omap g (seq s (length l)) = l.
Proof.
  revert s. induction l as [|x l IH]; intros s Hg; [reflexivity|].
  cbn [length seq]. simpl. pose proof (Hg 0 ltac:(simpl; lia)) as H0.
  rewrite Nat.add_0_r in H0. rewrite H0. f_equal. apply IH. intros k Hk.
  replace (S s + k) with (s + S k) by lia. apply (Hg (S k)). simpl. lia.
Qed.

Lemma laneFrom_reordered ops out p :
  NoDup out ->
  (forall x, x ∈ out -> x < length ops) ->
  laneFrom ops 0 (length ops) p `sublist_of` out ->
  laneFrom (omap (fun i => ops !! i) out) 0 (length (omap (fun i => ops !! i) out)) p
  = map (index_of out) (laneFrom ops 0 (length ops) p).
Proof.
  intros Hnd Hlt Hsub. set (lp := laneFrom ops 0 (length ops) p) in *.
  assert (Hsome : Forall (fun x => is_Some (ops !! x)) out).
  { apply Forall_forall. intros x Hx. apply lookup_lt_is_Some_2, Hlt, Hx. }
  assert (Hndp : NoDup lp) by exact (sublist_NoDup _ _ Hnd Hsub).
  rewrite (length_omap_is_Some _ _ Hsome).
  transitivity (map (index_of out) (filter (fun x => x ∈ lp) out));
    [|rewrite (sublist_filter_elem (fun x => x ∈ lp) lp out Hsub Hnd (fun y _ => iff_refl _));
      reflexivity].
  rewrite index_of_filter by exact Hnd.
  unfold laneFrom at 1. apply concat_repeat_filter.
  intros k Hk. apply in_seq in Hk.
  destruct (lookup_lt_is_Some_2 out k ltac:(lia)) as [x Hx].
  rewrite (list_lookup_total_correct _ _ _ Hx).
  assert (Hxlt : x < length ops) by exact (Hlt x (list_elem_of_lookup_2 _ _ _ Hx)).
  assert (Hs : slotQubits (omap (fun i => ops !! i) out) k = slotQubits ops x).
  { unfold slotQubits. rewrite (omap_lookup_is_Some _ _ _ Hsome), Hx. reflexivity. }
  rewrite Hs, <- (count_laneFrom ops 0 (length ops) p x) by lia. fold lp.
  apply NoDup_ListNoDup in Hndp.
  pose proof (proj1 (NoDup_count_occ Nat.eq_dec lp) Hndp x) as Hc.
  destruct (decide (x ∈ lp)) as [Hin|Hin]; rewrite list_elem_of_In in Hin.
  - apply (count_occ_In Nat.eq_dec) in Hin. lia.
  - apply (count_occ_not_In Nat.eq_dec) in Hin. exact Hin.
Qed.

(** C8: [reorderOperations] is idempotent: whenever a run succeeds, a
    second run on its result succeeds and returns that result unchanged,
    so the operation sequence is a fixed point of the pass. *)
Theorem reorderOperations_idempotent fuel qc qc' :
  reorderOperations fuel qc = Ok qc' -> reorderOperations fuel qc' = Ok qc'.
Proof.
  unfold reorderOperations at 1. rewrite constructDAG_lanes.
  set (ops := qc_ops qc). set (h := S (highestPhysicalQubit qc)).
  destruct (forallb _ (seq 0 (length ops))) eqn:Hfit; [|discriminate]. cbn [res_bind].
  set (lanes := map (laneFrom ops 0 (length ops)) (seq 0 h)).
  destruct (schedule fuel lanes (slotActs ops) (length lanes) (repeat 0 (length lanes)) [])
    as [out|e] eqn:Hsch; cbn [res_bind]; [|discriminate].
  intros H. injection H as <-.
  destruct (schedule_covers _ _ _ _ Hsch) as (Hnd & Hsub & Hel).
  assert (Hlane : forall q, lane_at lanes q = if q <? h then laneFrom ops 0 (length ops) q else []).
  { intros q. unfold lane_at, lanes. rewrite map_seq_lookup. destruct (q <? h); reflexivity. }
  assert (Hlt : forall x, x ∈ out -> x < length ops).
  { intros x Hx. destruct (Hel x Hx) as [q Hq]. rewrite Hlane in Hq.
    destruct (q <? h); [|inversion Hq].
    apply list_elem_of_In, in_laneFrom in Hq. lia. }
  assert (Hsome : Forall (fun x => is_Some (ops !! x)) out).
  { apply Forall_forall. intros x Hx. apply lookup_lt_is_Some_2, Hlt, Hx. }
  set (ops' := omap (fun i => ops !! i) out).
  assert (Hlen' : length ops' = length out) by exact (length_omap_is_Some _ _ Hsome).
  unfold reorderOperations. rewrite constructDAG_lanes.
  change (qc_ops (with_ops qc ops')) with ops'.
  change (S (highestPhysicalQubit (with_ops qc ops'))) with h.
  assert (Hfit' : forallb (fun i => forallb (fun q => q <? h) (slotQubits ops' i))
                    (seq 0 (length ops')) = true).
  { apply forallb_forall. intros k Hk. apply in_seq in Hk.
    destruct (lookup_lt_is_Some_2 out k ltac:(lia)) as [x Hx].
    assert (Hs : slotQubits ops' k = slotQubits ops x).
    { unfold slotQubits, ops'. rewrite (omap_lookup_is_Some _ _ _ Hsome), Hx. reflexivity. }
    rewrite Hs. rewrite forallb_forall in Hfit. apply Hfit, in_seq.
    pose proof (Hlt x (list_elem_of_lookup_2 _ _ _ Hx)). lia. }
  rewrite Hfit'. cbn [res_bind].
  assert (Hlanes' : map (laneFrom ops' 0 (length ops')) (seq 0 h) = map (map (index_of out)) lanes).
  { unfold lanes. rewrite map_map. apply map_ext_in. intros p Hp. apply in_seq in Hp.
    apply laneFrom_reordered; [exact Hnd|exact Hlt|].
    specialize (Hsub p). rewrite Hlane in Hsub.
    rewrite (proj2 (Nat.ltb_lt p h)) in Hsub by lia. exact Hsub. }
  rewrite Hlanes', length_map.
  assert (HP : forall q x, x ∈ lane_at lanes q -> x ∈ out)
    by (intros q x Hx; exact (elem_of_sublist _ _ _ Hx (Hsub q))).
  assert (Hinj : forall x y, x ∈ out -> y ∈ out -> index_of out x = index_of out y -> x = y).
  { intros x y Hx Hy E. apply index_of_lookup in Hx, Hy. rewrite E, Hy in Hx. congruence. }
  assert (Hacts : forall x q, x ∈ out -> slotActs ops' (index_of out x) q = slotActs ops x q).
  { intros x q Hx. unfold slotActs, ops'.
    rewrite (omap_lookup_is_Some _ _ _ Hsome), (index_of_lookup _ _ Hx). reflexivity. }
  pose proof (schedule_rename lanes (slotActs ops) (slotActs ops') (index_of out)
                (fun x => x ∈ out) HP Hinj Hacts fuel (length lanes)
                (repeat 0 (length lanes)) [] out (Forall_nil_2 _) Hsch) as Hsch'.
  change (map (index_of out) []) with (@nil nat) in Hsch'. rewrite Hsch'. cbn [res_bind].
  rewrite index_of_seq by exact Hnd. rewrite <- Hlen'.
  rewrite (omap_seq (fun i => ops' !! i) ops' 0) by reflexivity. reflexivity.
Qed.

(** C8, witness: the sweep from the top qubit moves [H 1] before [H 0];
    a second run keeps that order. *)
Lemma reorderOperations_idempotent_witness :
  let qc := mkQC [hadamard 0; hadamard 1; cnot 0 1] [(0, 0); (1, 1)] in
  let qc' := mkQC [hadamard 1; hadamard 0; cnot 0 1] [(0, 0); (1, 1)] in
  reorderOperations 10 qc = Ok qc' /\ reorderOperations 10 qc' = Ok qc'.
Proof.
  intros qc qc'.
  assert (H : reorderOperations 10 qc = Ok qc') by (vm_compute; reflexivity).
  split; [exact H | exact (reorderOperations_idempotent 10 qc qc' H)].
Defined.

(* ------------------------------------------------------------------ *)
(** ** Block collection: the size bound *)

(* definitions (to be moved up) *)

Lemma core_root_iff R st r :
  Core R st -> parent st !! r = Some r <-> is_Some (parent st !! r) /\ R r = r.
Proof.
  intros HC. split.
  - intros Hr. split; [eexists; exact Hr|exact (core_self _ _ HC r Hr)].
  - intros [Hd Hr]. pose proof (core_root _ _ HC r Hd) as H. rewrite Hr in H. exact H.
Qed.

Lemma core_ext R R' st :
  Core R st -> (forall x, is_Some (parent st !! x) -> R' x = R x) -> Core R' st.
Proof.
  intros HC Hext. constructor.
  - intros x p Hp. destruct (core_parent _ _ HC x p Hp) as [Hd HR]. split; [exact Hd|].
    rewrite !Hext by (try exact Hd; eexists; exact Hp). exact HR.
  - intros x Hx. rewrite (Hext x Hx). apply core_root; assumption.
  - intros x Hx. rewrite (Hext x ltac:(eexists; exact Hx)). exact (core_self _ _ HC x Hx).
  - intros r Hr y. rewrite (core_bits _ _ HC r Hr y). split; intros [Hd Hy]; split; try exact Hd.
    + rewrite Hext by exact Hd. exact Hy.
    + rewrite <- Hext by exact Hd. exact Hy.
  - exact (core_nodup _ _ HC).
Qed.

Lemma core_compress R st q :
  Core R st -> is_Some (parent st !! q) -> R q <> q ->
  Core R (set_parent st (<[q := R q]> (parent st))).
Proof.
  intros HC Hq Hne. pose proof (core_root _ _ HC q Hq) as HRq.
  assert (Hnr : forall x, is_Some (parent st !! x) -> R x <> q).
  { intros x Hx E. pose proof (core_root _ _ HC x Hx) as H. rewrite E in H.
    apply Hne. exact (core_self _ _ HC q H). }
  constructor; cbn [parent set_parent].
  - intros x p Hp. apply lookup_insert_Some in Hp as [[-> <-]|[Hxq Hp]].
    + rewrite lookup_insert_ne by (intros E; apply Hne; congruence).
      split; [eexists; exact HRq|exact (core_self _ _ HC _ HRq)].
    + destruct (core_parent _ _ HC x p Hp) as [Hd HR]. split; [|exact HR].
      apply lookup_insert_is_Some'. right. exact Hd.
  - intros x Hx. apply lookup_insert_is_Some' in Hx.
    assert (Hd : is_Some (parent st !! x)) by (destruct Hx as [<-|Hx]; assumption).
    rewrite lookup_insert_ne by (intros E; exact (Hnr x Hd (eq_sym E))).
    exact (core_root _ _ HC x Hd).
  - intros x Hx. apply lookup_insert_Some in Hx as [[-> E]|[_ Hx]];
      [congruence|exact (core_self _ _ HC x Hx)].
  - intros r Hr y. apply lookup_insert_Some in Hr as [[-> E]|[Hrq Hr]]; [congruence|].
    unfold getBits. cbn [bitBlocks set_parent]. fold (getBits st r).
    rewrite (core_bits _ _ HC r Hr y), lookup_insert_is_Some'.
    split; intros [Hd Hy]; split; try exact Hy.
    + right. exact Hd.
    + destruct Hd as [<-|Hd]; [exact Hq|exact Hd].
  - intros r Hr. apply lookup_insert_Some in Hr as [[-> E]|[Hrq Hr]]; [congruence|].
    exact (core_nodup _ _ HC r Hr).
Qed.

(** [findBlock] on a qubit already in the structure: the root, path
    compression only. *)
Lemma findBlock_old R fuel st q st' b :
  Core R st -> is_Some (parent st !! q) -> findBlock fuel st q = Ok (st', b) ->
  b = R q /\ Core R st' /\
  exists P, st' = set_parent st P /\ forall x, is_Some (P !! x) <-> is_Some (parent st !! x).
Proof.
  intros HC [p Hp]. revert q p st' b Hp.
  induction fuel as [|fuel IH]; intros q p st' b Hp H; simpl in H; rewrite Hp in H;
    simpl in H; rewrite Hp in H.
  - destruct (Nat.eqb_spec p q) as [->|Hne]; [|discriminate].
    injection H as <- <-. split; [symmetry; exact (core_self _ _ HC q Hp)|].
    split; [exact HC|]. exists (parent st). split; [destruct st; reflexivity|tauto].
  - destruct (Nat.eqb_spec p q) as [->|Hne].
    + injection H as <- <-. split; [symmetry; exact (core_self _ _ HC q Hp)|].
      split; [exact HC|]. exists (parent st). split; [destruct st; reflexivity|tauto].
    + destruct (findBlock fuel st p) as [[st1 root]|e] eqn:Hf; simpl in H; [|discriminate].
      injection H as <- <-.
      destruct (core_parent _ _ HC q p Hp) as [[pp Hpp] HRp].
      destruct (IH p pp st1 root Hpp Hf) as (-> & HC1 & P & -> & HP).
      assert (HRq : R q <> q).
      { intros E. pose proof (core_root _ _ HC q ltac:(eexists; exact Hp)) as H.
        rewrite E, Hp in H. congruence. }
      assert (Hq1 : is_Some (parent (set_parent st P) !! q)) by (apply HP; eexists; exact Hp).
      rewrite HRp. split; [reflexivity|]. split.
      * exact (core_compress R _ q HC1 Hq1 HRq).
      * exists (<[q := R q]> P). split; [reflexivity|]. intros x.
        rewrite lookup_insert_is_Some', HP. split; [intros [<-|Hx]; [eexists; exact Hp|exact Hx]|].
        intros Hx. right. exact Hx.
Qed.

Lemma set_insert_elem x s y : y ∈ set_insert x s <-> y = x \/ y ∈ s.
Proof.
  induction s as [|z s IH]; simpl.
  - rewrite list_elem_of_singleton. split; [tauto|intros [H|H]; [exact H|inversion H]].
  - destruct (Nat.ltb_spec x z).
    + rewrite elem_of_cons. tauto.
    + destruct (Nat.eqb_spec x z) as [->|Hne].
      * rewrite elem_of_cons. tauto.
      * rewrite !elem_of_cons, IH. tauto.
Qed.

Lemma set_insert_sorted x s :
  StronglySorted lt s -> StronglySorted lt (set_insert x s).
Proof.
  induction s as [|z s IH]; intros Hs; simpl.
  - repeat constructor.
  - inversion Hs as [|? ? Hs' Hz]; subst.
    destruct (Nat.ltb_spec x z).
    + constructor; [exact Hs|]. constructor; [exact H|].
      eapply Forall_impl; [exact Hz|]. intros y Hy. lia.
    + destruct (Nat.eqb_spec x z) as [->|Hne]; [exact Hs|].
      constructor; [exact (IH Hs')|]. apply Forall_forall. intros y Hy.
      rewrite set_insert_elem in Hy. destruct Hy as [->|Hy]; [lia|].
      rewrite Forall_forall in Hz. apply Hz. exact Hy.
Qed.

Lemma sorted_NoDup s : StronglySorted lt s -> NoDup s.
Proof.
  induction 1 as [|z s Hs IH Hz]; constructor; [|exact IH].
  intros Hin. rewrite Forall_forall in Hz. specialize (Hz z Hin). lia.
Qed.

Lemma to_set_elem l y : y ∈ to_set l <-> y ∈ l.
Proof.
  induction l as [|x l IH]; simpl.
  - split; intros H; inversion H.
  - rewrite set_insert_elem, elem_of_cons, IH. tauto.
Qed.

Lemma to_set_NoDup l : NoDup (to_set l).
Proof.
  apply sorted_NoDup. induction l as [|x l IH]; simpl; [constructor|].
  apply set_insert_sorted, IH.
Qed.

Lemma usedQubits_NoDup op : NoDup (getUsedQubits op).
Proof. destruct op; simpl; apply to_set_NoDup. Qed.

Lemma usedQubits_compound ops y :
  y ∈ getUsedQubits (CompoundOperation ops) <-> exists o, o ∈ ops /\ y ∈ getUsedQubits o.
Proof.
  simpl. rewrite to_set_elem, list_elem_of_In, in_concat.
  split.
  - intros (l & Hl & Hy). apply in_map_iff in Hl as (o & <- & Ho).
    exists o. rewrite !list_elem_of_In. tauto.
  - intros (o & Ho & Hy). exists (getUsedQubits o).
    rewrite in_map_iff, <- !list_elem_of_In. split; [exists o; split; [reflexivity|apply list_elem_of_In, Ho]|exact Hy].
Qed.

Lemma good_ex_mono k R ex ex' st :
  Good k R ex st -> (forall r, parent st !! r = Some r -> ex r -> ex' r) -> Good k R ex' st.
Proof.
  intros [HC Hok Hs Hw] Hex. constructor; try assumption.
  intros r Hr Hn. apply Hs; [exact Hr|]. intros E. exact (Hn (Hex r Hr E)).
Qed.

(** Compressing the parent map keeps the invariant. *)
Lemma good_set_parent k R ex st P :
  Good k R ex st -> Core R (set_parent st P) ->
  (forall x, is_Some (P !! x) <-> is_Some (parent st !! x)) ->
  Good k R ex (set_parent st P).
Proof.
  intros [HC Hok Hs Hw] HC' HP.
  assert (Hroot : forall r, P !! r = Some r -> parent st !! r = Some r).
  { intros r Hr. apply (core_root_iff R st r HC).
    pose proof (proj1 (core_root_iff R _ r HC') Hr) as [Hd HR].
    split; [apply HP, Hd|exact HR]. }
  constructor.
  - exact HC'.
  - intros r Hr. apply (Hok r (Hroot r Hr)).
  - intros r Hr. apply (Hs r (Hroot r Hr)).
  - exact Hw.
Qed.

Lemma core_reset R st q :
  Core R st -> parent st !! q = None -> Core (upd R q q) (resetQubit st q).
Proof.
  intros HC Hq. unfold upd.
  assert (Hdq : forall x, is_Some (parent st !! x) -> x <> q).
  { intros x [p Hx] ->. congruence. }
  assert (HRq : forall x, is_Some (parent st !! x) -> R x <> q).
  { intros x Hx E. pose proof (core_root _ _ HC x Hx) as H. rewrite E, Hq in H. discriminate. }
  constructor; cbn [parent resetQubit].
  - intros x p Hp. apply lookup_insert_Some in Hp as [[-> <-]|[Hxq Hp]].
    + rewrite lookup_insert_eq. split; [eexists; reflexivity|reflexivity].
    + destruct (core_parent _ _ HC x p Hp) as [Hd HR].
      rewrite lookup_insert_ne by (exact (not_eq_sym (Hdq p Hd))).
      split; [exact Hd|].
      rewrite (proj2 (Nat.eqb_neq p q) (Hdq p Hd)), (proj2 (Nat.eqb_neq x q) (not_eq_sym Hxq)). exact HR.
  - intros x Hx. destruct (Nat.eqb_spec x q) as [->|Hxq].
    + apply lookup_insert_eq.
    + rewrite lookup_insert_ne in Hx by congruence.
      rewrite lookup_insert_ne by (exact (not_eq_sym (HRq x Hx))).
      exact (core_root _ _ HC x Hx).
  - intros x Hx. destruct (Nat.eqb_spec x q) as [->|Hxq]; [reflexivity|].
    rewrite lookup_insert_ne in Hx by congruence. exact (core_self _ _ HC x Hx).
  - intros r Hr y. unfold getBits. cbn [bitBlocks resetQubit].
    destruct (Nat.eqb_spec r q) as [->|Hrq].
    + rewrite lookup_insert_eq. simpl. rewrite list_elem_of_singleton.
      destruct (Nat.eqb_spec y q) as [->|Hyq].
      * split; [intros _; split; [rewrite lookup_insert_eq; eexists; reflexivity|reflexivity]|reflexivity].
      * split; [intros ->; congruence|]. intros [Hd E].
        rewrite lookup_insert_ne in Hd by congruence. exfalso. exact (HRq y Hd E).
    + rewrite lookup_insert_ne by congruence. rewrite lookup_insert_ne in Hr by congruence.
      fold (getBits st r). rewrite (core_bits _ _ HC r Hr y).
      destruct (Nat.eqb_spec y q) as [->|Hyq].
      * rewrite Hq. split; [intros [[? ?] _]; discriminate|intros [_ E]; congruence].
      * rewrite lookup_insert_ne by congruence. reflexivity.
  - intros r Hr. unfold getBits. cbn [bitBlocks resetQubit].
    destruct (Nat.eqb_spec r q) as [->|Hrq].
    + rewrite lookup_insert_eq. apply NoDup_singleton.
    + rewrite lookup_insert_ne by congruence. rewrite lookup_insert_ne in Hr by congruence.
      exact (core_nodup _ _ HC r Hr).
Qed.

Lemma good_reset k R ex st q :
  Good k R ex st -> parent st !! q = None -> Good k (upd R q q) ex (resetQubit st q).
Proof.
  intros [HC Hok Hs Hw] Hq. constructor.
  - exact (core_reset R st q HC Hq).
  - intros r Hr ops Hb. unfold RootOK, getBody, getBits, resetQubit in *. cbn [parent bitBlocks currentBlockInCircuit currentBlockOperations] in Hr, Hb |- *.
    destruct (Nat.eqb_spec r q) as [->|Hrq].
    + rewrite lookup_insert_eq in Hb. injection Hb as <-. split; [constructor|right; constructor].
    + rewrite lookup_insert_ne in Hb by congruence. rewrite lookup_insert_ne in Hr by congruence. rewrite lookup_insert_ne by congruence. exact (Hok r Hr ops Hb).
  - intros r Hr Hn Ha. unfold getAnchor, getBits, resetQubit in *. cbn [parent bitBlocks currentBlockInCircuit currentBlockOperations] in Hr, Ha |- *.
    destruct (Nat.eqb_spec r q) as [->|Hrq].
    + rewrite lookup_insert_eq. reflexivity.
    + rewrite lookup_insert_ne in Ha by congruence. rewrite lookup_insert_ne in Hr by congruence. rewrite lookup_insert_ne by congruence. exact (Hs r Hr Hn Ha).
  - exact Hw.
Qed.

Lemma ensureQubit_Some st q : is_Some (parent st !! q) -> ensureQubit st q = st.
Proof. intros [p Hp]. unfold ensureQubit. rewrite Hp. reflexivity. Qed.

(** [findBlock] in general: the qubit is added as a fresh singleton if
    needed, then only the parent map changes. *)
Lemma findBlock_good k R ex fuel st q st' b :
  Good k R ex st -> findBlock fuel st q = Ok (st', b) ->
  exists R', Good k R' ex st' /\ b = R' q /\
    (forall x, is_Some (parent st !! x) -> R' x = R x) /\
    (forall x, is_Some (parent st' !! x) <-> x = q \/ is_Some (parent st !! x)) /\
    exists P, st' = set_parent (ensureQubit st q) P.
Proof.
  intros HG Hf.
  assert (Hfind : forall R0, Good k R0 ex (ensureQubit st q) ->
            is_Some (parent (ensureQubit st q) !! q) ->
            findBlock fuel (ensureQubit st q) q = Ok (st', b) ->
            Good k R0 ex st' /\ b = R0 q /\
            (forall x, is_Some (parent st' !! x) <-> is_Some (parent (ensureQubit st q) !! x)) /\
            exists P, st' = set_parent (ensureQubit st q) P).
  { intros R0 HG0 Hq0 Hf0.
    destruct (findBlock_old R0 fuel _ q st' b (good_core _ _ _ _ HG0) Hq0 Hf0)
      as (-> & HC' & P & -> & HP).
    split; [exact (good_set_parent k R0 ex _ P HG0 HC' HP)|].
    split; [reflexivity|]. split; [exact HP|]. exists P. reflexivity. }
  destruct (parent st !! q) as [p|] eqn:Hq.
  - assert (He : ensureQubit st q = st) by (apply ensureQubit_Some; rewrite Hq; eexists; reflexivity).
    rewrite <- He in HG, Hf.
    destruct (Hfind R HG ltac:(rewrite He, Hq; eexists; reflexivity) Hf) as (HG' & Hb & HD & HP).
    exists R. split; [exact HG'|]. split; [exact Hb|]. split; [reflexivity|].
    split; [|exact HP]. intros x. rewrite HD, He. split; [tauto|].
    intros [->|Hx]; [rewrite Hq; eexists; reflexivity|exact Hx].
  - assert (He : ensureQubit st q = resetQubit st q) by (unfold ensureQubit; rewrite Hq; reflexivity).
    assert (HG0 := good_reset k R ex st q HG Hq). rewrite <- He in HG0.
    assert (Hf0 : findBlock fuel (ensureQubit st q) q = Ok (st', b)).
    { assert (Hr : parent (resetQubit st q) !! q = Some q)
        by (cbn [resetQubit parent]; apply lookup_insert_eq).
      rewrite He. rewrite <- Hf.
      destruct fuel; cbn [findBlock]; rewrite Hr, Hq; lazy beta iota zeta;
        rewrite Hr, Nat.eqb_refl; reflexivity. }
    assert (Hq0 : is_Some (parent (ensureQubit st q) !! q))
      by (rewrite He; cbn; rewrite lookup_insert_eq; eexists; reflexivity).
    destruct (Hfind _ HG0 Hq0 Hf0) as (HG' & Hb & HD & HP).
    exists (upd R q q). split; [exact HG'|]. split; [exact Hb|]. split.
    + intros x [px Hx]. unfold upd. destruct (Nat.eqb_spec x q) as [->|]; [congruence|reflexivity].
    + split; [|exact HP]. intros x. rewrite HD, He. cbn. rewrite lookup_insert_is_Some'.
      split; intros [E|Hx]; (left; congruence) || (right; exact Hx).
Qed.

Lemma fold_reset_fields L st :
  (forall x, parent (fold_left resetQubit L st) !! x =
     if decide (x ∈ L) then Some x else parent st !! x) /\
  (forall x, bitBlocks (fold_left resetQubit L st) !! x =
     if decide (x ∈ L) then Some [x] else bitBlocks st !! x) /\
  (forall x, currentBlockInCircuit (fold_left resetQubit L st) !! x =
     if decide (x ∈ L) then Some None else currentBlockInCircuit st !! x) /\
  (forall x, currentBlockOperations (fold_left resetQubit L st) !! x =
     if decide (x ∈ L) then Some (Some []) else currentBlockOperations st !! x) /\
  written (fold_left resetQubit L st) = written st.
Proof.
  revert st. induction L as [|a L IH]; intros st; simpl.
  - repeat split; intros x; rewrite decide_False by (intros H; inversion H); reflexivity.
  - destruct (IH (resetQubit st a)) as (H1 & H2 & H3 & H4 & H5).
    repeat split; [intros x; rewrite ?H1, ?H2, ?H3, ?H4; cbn [resetQubit parent bitBlocks
      currentBlockInCircuit currentBlockOperations];
      destruct (decide (x ∈ L)) as [Hx|Hx];
        [rewrite decide_True by (apply elem_of_cons; right; exact Hx); reflexivity|];
      destruct (Nat.eq_dec x a) as [->|Hxa];
        [rewrite decide_True by (apply elem_of_cons; left; reflexivity);
         rewrite lookup_insert_eq; reflexivity|];
      rewrite decide_False by (rewrite elem_of_cons; tauto);
      rewrite lookup_insert_ne by congruence; reflexivity ..|].
    rewrite H5. reflexivity.
Qed.

Lemma good_ext k R R' ex st :
  Good k R ex st -> (forall x, is_Some (parent st !! x) -> R' x = R x) -> Good k R' ex st.
Proof.
  intros [HC Hok Hs Hw] Hext. constructor; try assumption. exact (core_ext R R' st HC Hext).
Qed.

Lemma used_le_bits k B ops :
  (forall o, o ∈ ops -> forall y, y ∈ getUsedQubits o -> y ∈ B) ->
  (length B <= k \/ forall o, o ∈ ops -> getUsedQubits o = []) -> NoDup B ->
  length (getUsedQubits (CompoundOperation ops)) <= k /\
  forall o, o ∈ ops -> length (getUsedQubits o) <= k.
Proof.
  intros Hsub Hk HB. split.
  - destruct Hk as [Hk|Hk].
    + etransitivity; [|exact Hk]. apply NoDup_incl_length.
      * apply NoDup_ListNoDup, usedQubits_NoDup.
      * intros y Hy. apply list_elem_of_In in Hy. apply list_elem_of_In.
        apply usedQubits_compound in Hy as (o & Ho & Hy). exact (Hsub o Ho y Hy).
    + destruct (getUsedQubits (CompoundOperation ops)) as [|y l] eqn:E; [simpl; lia|].
      exfalso. assert (Hy : y ∈ getUsedQubits (CompoundOperation ops)) by (rewrite E; left).
      apply usedQubits_compound in Hy as (o & Ho & Hy). rewrite (Hk o Ho) in Hy. inversion Hy.
  - intros o Ho. destruct Hk as [Hk|Hk].
    + etransitivity; [|exact Hk]. apply NoDup_incl_length.
      * apply NoDup_ListNoDup, usedQubits_NoDup.
      * intros y Hy. apply list_elem_of_In in Hy. apply list_elem_of_In. exact (Hsub o Ho y Hy).
    + rewrite (Hk o Ho). simpl. lia.
Qed.


Lemma core_finalize R st st' b :
  Core R st -> parent st !! b = Some b ->
  (forall x, parent st' !! x = if decide (x ∈ getBits st b) then Some x else parent st !! x) ->
  (forall x, bitBlocks st' !! x = if decide (x ∈ getBits st b) then Some [x] else bitBlocks st !! x) ->
  Core (splitR R b) st'.
Proof.
  intros HC Hb HP HB. unfold splitR.
  pose proof (core_bits _ _ HC b Hb) as Hmem.
  assert (HRR : forall x, is_Some (parent st !! x) -> R (R x) = R x).
  { intros x Hx. exact (core_self _ _ HC _ (core_root _ _ HC x Hx)). }
  assert (HD : forall x, is_Some (parent st' !! x) -> is_Some (parent st !! x)).
  { intros x Hx. rewrite HP in Hx. destruct (decide (x ∈ getBits st b)) as [Hm|Hm];
      [exact (proj1 (proj1 (Hmem x) Hm))|exact Hx]. }
  constructor.
  - intros x p Hp. rewrite HP in Hp. destruct (decide (x ∈ getBits st b)) as [Hm|Hm].
    + injection Hp as <-. rewrite HP, decide_True by exact Hm. split; [eexists; reflexivity|reflexivity].
    + destruct (core_parent _ _ HC x p Hp) as [Hd HR].
      assert (Hxb : R x <> b) by (intros E; apply Hm, Hmem; split; [eexists; exact Hp|exact E]).
      split.
      * rewrite HP. destruct (decide _); [eexists; reflexivity|exact Hd].
      * rewrite HR, (proj2 (Nat.eqb_neq _ _) Hxb). reflexivity.
  - intros x Hx. pose proof (HD x Hx) as Hd.
    destruct (Nat.eqb_spec (R x) b) as [E|Hxb].
    + rewrite HP, decide_True; [reflexivity|]. apply Hmem. split; [exact Hd|exact E].
    + rewrite HP, decide_False.
      * exact (core_root _ _ HC x Hd).
      * intros Hm. apply Hmem in Hm as [_ E]. rewrite HRR in E by exact Hd. exact (Hxb E).
  - intros x Hx. rewrite HP in Hx. destruct (Nat.eqb_spec (R x) b) as [E|Hxb]; [reflexivity|].
    destruct (decide (x ∈ getBits st b)) as [Hm|Hm]; [exfalso; apply Hxb, Hmem, Hm|].
    exact (core_self _ _ HC x Hx).
  - intros r Hr y. rewrite HP in Hr. unfold getBits at 1. rewrite HB.
    destruct (decide (r ∈ getBits st b)) as [Hm|Hm].
    + simpl. rewrite list_elem_of_singleton. apply Hmem in Hm as [Hdr Hrb].
      split.
      * intros ->. split; [rewrite HP, decide_True by (apply Hmem; tauto); eexists; reflexivity|].
        rewrite Hrb, Nat.eqb_refl. reflexivity.
      * intros [Hy E]. pose proof (HD y Hy) as Hdy.
        destruct (Nat.eqb_spec (R y) b) as [Ey|Hyb]; [exact E|].
        exfalso. apply Hyb. rewrite <- Hrb, <- E. symmetry. apply HRR, Hdy.
    + fold (getBits st r). rewrite (core_bits _ _ HC r Hr y).
      assert (Hrb : r <> b) by (intros ->; apply Hm, Hmem; split; [eexists; exact Hb|exact (core_self _ _ HC b Hb)]).
      split.
      * intros [Hdy E]. assert (Hyb : R y <> b) by congruence.
        split; [rewrite HP; destruct (decide _); [eexists; reflexivity|exact Hdy]|].
        rewrite (proj2 (Nat.eqb_neq _ _) Hyb). exact E.
      * intros [Hy E]. pose proof (HD y Hy) as Hdy.
        destruct (Nat.eqb_spec (R y) b) as [Ey|Hyb]; [|split; [exact Hdy|exact E]].
        subst y. exfalso. apply Hm, Hmem. split; [exact Hdy|exact Ey].
  - intros r Hr. rewrite HP in Hr. unfold getBits. rewrite HB.
    destruct (decide (r ∈ getBits st b)) as [Hm|Hm]; [apply NoDup_singleton|].
    exact (core_nodup _ _ HC r Hr).
Qed.

Lemma finalize_tail k R st1 b st' :
  Good k R noex st1 -> parent st1 !! b = Some b ->
  match getAnchor st1 b with
  | None => Ok st1
  | Some slot =>
      let* body := getBody st1 b in
      let '(op, rest) := match body with
                         | [o] => (o, Some [])
                         | _ => (CompoundOperation body, None)
                         end in
      let st2 := mkBlockState (<[slot := Some op]> (slots st1)) (parent st1) (bitBlocks st1)
                   (currentBlockInCircuit st1)
                   (<[b := rest]> (currentBlockOperations st1))
                   (written st1 ++ [op]) in
      Ok (fold_left resetQubit (getBits st1 b) st2)
  end = Ok st' ->
  Good k (splitR R b) noex st' /\
  (forall x, is_Some (parent st' !! x) <-> is_Some (parent st1 !! x)) /\
  (forall r, parent st1 !! r = Some r -> r <> b ->
     parent st' !! r = Some r /\ getBits st' r = getBits st1 r /\ getAnchor st' r = getAnchor st1 r) /\
  (forall x, is_Some (parent st1 !! x) -> R x = b -> parent st' !! x = Some x /\ getBits st' x = [x]).
Proof.
  intros HG Hb H. pose proof (good_core _ _ _ _ HG) as HC.
  pose proof (core_bits _ _ HC b Hb) as Hmem.
  assert (Hbb : R b = b) by exact (core_self _ _ HC b Hb).
  destruct (getAnchor st1 b) as [slot|] eqn:Ha.
  - destruct (getBody st1 b) as [ops|e] eqn:Hbody; cbn [res_bind] in H; [|discriminate].
    assert (Hop : exists op (rest : option (list Operation)), (op = CompoundOperation ops \/ ops = [op]) /\
              (match ops with [o] => (o, Some []) | _ => (CompoundOperation ops, None) end) = (op, rest)).
    { destruct ops as [|o [|o2 ops']]; eexists _, _; (split; [|reflexivity]); tauto. }
    destruct Hop as (op & rest & Hop & E). rewrite E in H. injection H as <-.
    set (st2 := mkBlockState _ _ _ _ _ _).
    destruct (fold_reset_fields (getBits st1 b) st2) as (HP & HB & HA & HO & HW).
    cbn [parent bitBlocks currentBlockInCircuit currentBlockOperations written st2] in HP, HB, HA, HO, HW.
    assert (HbL : b ∈ getBits st1 b) by (apply Hmem; split; [eexists; exact Hb|exact Hbb]).
    assert (HD : forall x, is_Some (parent (fold_left resetQubit (getBits st1 b) st2) !! x)
                      <-> is_Some (parent st1 !! x)).
    { intros x. rewrite HP. destruct (decide _) as [Hm|Hm]; [|reflexivity].
      split; [intros _; exact (proj1 (proj1 (Hmem x) Hm))|intros _; eexists; reflexivity]. }
    assert (Hold : forall r, parent st1 !! r = Some r -> r <> b ->
              r ∉ getBits st1 b).
    { intros r Hr Hrb Hm. apply Hmem in Hm as [_ Er]. rewrite (core_self _ _ HC r Hr) in Er. exact (Hrb Er). }
    split; [|split; [exact HD|split]].
    + constructor.
      * exact (core_finalize R st1 _ b HC Hb HP HB).
      * intros r Hr. unfold RootOK. intros ops' Hb'. unfold getBody in Hb'. rewrite HO in Hb'.
        unfold getBits. rewrite HB.
        rewrite HP in Hr. destruct (decide (r ∈ getBits st1 b)) as [Hm|Hm].
        -- injection Hb' as <-. split; [constructor|right; constructor].
        -- assert (Hrb : r <> b) by (intros ->; exact (Hm HbL)).
           rewrite lookup_insert_ne in Hb' by congruence.
           apply (good_ok _ _ _ _ HG r Hr ops' Hb').
      * intros r Hr _ Han. unfold getAnchor in Han. rewrite HA in Han. unfold getBits. rewrite HB.
        rewrite HP in Hr. destruct (decide (r ∈ getBits st1 b)) as [Hm|Hm]; [reflexivity|].
        exact (good_single _ _ _ _ HG r Hr (fun x => x) Han).
      * rewrite HW. apply Forall_app. split; [exact (good_written _ _ _ _ HG)|].
        constructor; [|constructor].
        destruct (good_ok _ _ _ _ HG b Hb ops Hbody) as [Hsub Hk].
        rewrite Forall_forall in Hsub. rewrite !Forall_forall in Hk.
        destruct (used_le_bits k (getBits st1 b) ops Hsub Hk (core_nodup _ _ HC b Hb)) as [H1 H2].
        destruct Hop as [Eop | Eop]; [rewrite Eop; exact H1|apply H2; rewrite Eop; left].
    + intros r Hr Hrb. pose proof (Hold r Hr Hrb) as Hm.
      unfold getBits, getAnchor. rewrite HP, HB, HA, !decide_False by exact Hm. tauto.
    + intros x Hx Hxb. assert (Hm : x ∈ getBits st1 b) by (apply Hmem; tauto).
      unfold getBits. rewrite HP, HB, !decide_True by exact Hm. tauto.
  - injection H as <-.
    assert (Hsing : getBits st1 b = [b]) by exact (good_single _ _ _ _ HG b Hb (fun x => x) Ha).
    assert (Hx : forall x, is_Some (parent st1 !! x) -> R x = b -> x = b).
    { intros x Hx E. assert (Hm : x ∈ getBits st1 b) by (apply Hmem; tauto).
      rewrite Hsing in Hm. apply list_elem_of_singleton in Hm. exact Hm. }
    split; [|split; [reflexivity|split]].
    + apply (good_ext k R); [exact HG|]. intros x Hd. unfold splitR.
      destruct (Nat.eqb_spec (R x) b) as [E|]; [rewrite (Hx x Hd E); symmetry; exact Hbb|reflexivity].
    + intros r Hr _. tauto.
    + intros x Hd E. rewrite (Hx x Hd E). tauto.
Qed.

Lemma roots_same R st st' :
  Core R st -> Core R st' ->
  (forall x, is_Some (parent st' !! x) <-> is_Some (parent st !! x)) ->
  forall r, parent st' !! r = Some r <-> parent st !! r = Some r.
Proof.
  intros HC HC' HD r. rewrite (core_root_iff R st r HC), (core_root_iff R st' r HC'), HD.
  reflexivity.
Qed.

Lemma finalize_good k R fuel st index st' :
  Good k R noex st -> finalizeBlock fuel st index = Ok st' -> exists R', Good k R' noex st'.
Proof.
  intros HG H. unfold finalizeBlock in H.
  destruct (findBlock fuel st index) as [[st1 b]|e] eqn:Hf; cbn [res_bind] in H; [|discriminate].
  destruct (findBlock_good k R noex fuel st index st1 b HG Hf) as (R0 & HG0 & -> & _ & HD & _).
  assert (Hb : parent st1 !! R0 index = Some (R0 index)).
  { apply (core_root _ _ (good_core _ _ _ _ HG0)). apply HD. left. reflexivity. }
  destruct (finalize_tail k R0 st1 (R0 index) st' HG0 Hb H) as (HG' & _).
  exists (splitR R0 (R0 index)). exact HG'.
Qed.

(** Finalizing a root [b]: its members become singletons, the other roots
    keep their blocks. *)
Lemma finalize_root k R fuel st b st' :
  Good k R noex st -> parent st !! b = Some b -> finalizeBlock fuel st b = Ok st' ->
  Good k (splitR R b) noex st' /\
  (forall x, is_Some (parent st' !! x) <-> is_Some (parent st !! x)) /\
  (forall r, parent st !! r = Some r -> r <> b ->
     parent st' !! r = Some r /\ getBits st' r = getBits st r /\ getAnchor st' r = getAnchor st r) /\
  (forall x, is_Some (parent st !! x) -> R x = b -> parent st' !! x = Some x /\ getBits st' x = [x]).
Proof.
  intros HG Hb H. unfold finalizeBlock in H. pose proof (good_core _ _ _ _ HG) as HC.
  destruct (findBlock fuel st b) as [[st1 b']|e] eqn:Hf; cbn [res_bind] in H; [|discriminate].
  destruct (findBlock_old R fuel st b st1 b' HC ltac:(eexists; exact Hb) Hf)
    as (-> & HC1 & P & -> & HP).
  rewrite (core_self _ _ HC b Hb) in H.
  pose proof (good_set_parent k R noex st P HG HC1 HP) as HG1.
  pose proof (roots_same R st _ HC HC1 HP) as Hroots.
  assert (Hb1 : parent (set_parent st P) !! b = Some b) by (apply Hroots, Hb).
  destruct (finalize_tail k R _ b st' HG1 Hb1 H) as (HG' & HD' & Hr' & Hm').
  split; [exact HG'|]. split; [intros x; rewrite HD'; apply HP|]. split.
  - intros r Hr Hrb. exact (Hr' r (proj2 (Hroots r) Hr) Hrb).
  - intros x Hx E. apply Hm'; [apply HP, Hx|exact E].
Qed.

Lemma merge_spec k R ex st a l oa ol s :
  Good k R ex st -> parent st !! a = Some a -> parent st !! l = Some l -> a <> l ->
  getBody st a = Ok oa -> getBody st l = Ok ol ->
  length (getBits st a ++ getBits st l) <= k ->
  let st' := mkBlockState s (<[l := a]> (parent st))
               (<[l := []]> (<[a := getBits st a ++ getBits st l]> (bitBlocks st)))
               (<[l := None]> (currentBlockInCircuit st))
               (<[l := Some []]> (<[a := Some (oa ++ ol)]> (currentBlockOperations st)))
               (written st) in
  Good k (mergeR R l a) (fun r => r = a \/ ex r) st' /\ sameDom st st' /\
  (forall r, parent st !! r = Some r -> r <> a -> r <> l -> keeps st st' r) /\
  parent st' !! a = Some a /\ getBits st' a = getBits st a ++ getBits st l /\
  getAnchor st' a = getAnchor st a.
Proof.
  intros HG Ha Hl Hal Hoa Hol Hk st'. pose proof (good_core _ _ _ _ HG) as HC.
  assert (HRa : R a = a) by exact (core_self _ _ HC a Ha).
  assert (HRl : R l = l) by exact (core_self _ _ HC l Hl).
  assert (Hla : l <> a) by congruence.
  assert (HRR : forall x, is_Some (parent st !! x) -> R (R x) = R x).
  { intros x Hx. exact (core_self _ _ HC _ (core_root _ _ HC x Hx)). }
  assert (HD : sameDom st st').
  { intros x. cbn [st' parent]. rewrite lookup_insert_is_Some'.
    split; [intros [<-|Hx]; [eexists; exact Hl|exact Hx]|intros Hx; right; exact Hx]. }
  assert (Hpar : forall x, x <> l -> parent st' !! x = parent st !! x).
  { intros x Hx. cbn [st' parent]. apply lookup_insert_ne. congruence. }
  assert (Hbits : forall x, x <> l -> x <> a -> getBits st' x = getBits st x).
  { intros x Hx Hx'. unfold getBits. cbn [st' bitBlocks].
    rewrite !lookup_insert_ne by congruence. reflexivity. }
  assert (Hba : getBits st' a = getBits st a ++ getBits st l).
  { unfold getBits at 1. cbn [st' bitBlocks].
    rewrite lookup_insert_ne by exact Hla. rewrite lookup_insert_eq. reflexivity. }
  assert (Hanc : forall x, x <> l -> getAnchor st' x = getAnchor st x).
  { intros x Hx. unfold getAnchor. cbn [st' currentBlockInCircuit].
    rewrite lookup_insert_ne by congruence. reflexivity. }
  assert (Hroot' : forall r, parent st' !! r = Some r -> r <> l /\ parent st !! r = Some r).
  { intros r Hr. destruct (decide (r = l)) as [->|Hrl].
    - cbn [st' parent] in Hr. rewrite lookup_insert_eq in Hr. congruence.
    - rewrite Hpar in Hr by exact Hrl. tauto. }
  assert (HC' : Core (mergeR R l a) st').
  { unfold mergeR. constructor.
    - intros x p Hp. destruct (decide (x = l)) as [->|Hxl].
      + cbn [st' parent] in Hp. rewrite lookup_insert_eq in Hp. injection Hp as <-.
        rewrite HRa, HRl, Nat.eqb_refl, (proj2 (Nat.eqb_neq a l) Hal).
        split; [rewrite Hpar by exact Hal; eexists; exact Ha|reflexivity].
      + rewrite Hpar in Hp by exact Hxl. destruct (core_parent _ _ HC x p Hp) as [Hd HR].
        split; [apply HD, Hd|rewrite HR; reflexivity].
    - intros x Hx. apply HD in Hx. destruct (Nat.eqb_spec (R x) l) as [E|Hxl].
      + rewrite Hpar by exact Hal. exact Ha.
      + rewrite Hpar by exact Hxl. exact (core_root _ _ HC x Hx).
    - intros x Hx. destruct (Hroot' x Hx) as [Hxl Hx'].
      rewrite (core_self _ _ HC x Hx'), (proj2 (Nat.eqb_neq x l) Hxl). reflexivity.
    - intros r Hr y. destruct (Hroot' r Hr) as [Hrl Hr0]. rewrite (HD y).
      destruct (decide (r = a)) as [->|Hra].
      + rewrite Hba, elem_of_app, !(core_bits _ _ HC _ Ha y), (core_bits _ _ HC _ Hl y).
        destruct (Nat.eqb_spec (R y) l) as [E|E].
        * split; [intros [[Hy _]|[Hy _]]; split; [exact Hy|reflexivity|exact Hy|reflexivity]|].
          intros [Hy _]. right. split; [exact Hy|exact E].
        * split; [intros [[Hy E']|[Hy E']]; [split; [exact Hy|exact E']|congruence]|].
          intros [Hy E']. left. split; [exact Hy|exact E'].
      + rewrite Hbits by assumption. rewrite (core_bits _ _ HC r Hr0 y).
        destruct (Nat.eqb_spec (R y) l); split; intros [Hy E]; split; try exact Hy; congruence.
    - intros r Hr. destruct (Hroot' r Hr) as [Hrl Hr0]. destruct (decide (r = a)) as [->|Hra].
      + rewrite Hba. apply NoDup_app. split; [exact (core_nodup _ _ HC a Ha)|].
        split; [|exact (core_nodup _ _ HC l Hl)].
        intros y Hy1 Hy2. apply (core_bits _ _ HC a Ha) in Hy1 as [_ E1].
        apply (core_bits _ _ HC l Hl) in Hy2 as [_ E2]. congruence.
      + rewrite Hbits by assumption. exact (core_nodup _ _ HC r Hr0). }
  split; [|split; [exact HD|split; [|split; [rewrite Hpar by exact Hal; exact Ha|split; [exact Hba|apply Hanc, Hal]]]]].
  - constructor.
    + exact HC'.
    + intros r Hr. destruct (Hroot' r Hr) as [Hrl Hr0]. unfold RootOK. intros ops Hops.
      destruct (decide (r = a)) as [->|Hra].
      * unfold getBody in Hops. cbn [st' currentBlockOperations] in Hops.
        rewrite lookup_insert_ne in Hops by exact Hla. rewrite lookup_insert_eq in Hops.
        injection Hops as <-. rewrite Hba. split; [|left; exact Hk].
        destruct (good_ok _ _ _ _ HG a Ha oa Hoa) as [H1 _].
        destruct (good_ok _ _ _ _ HG l Hl ol Hol) as [H2 _].
        apply Forall_app. split; eapply Forall_impl; try eassumption;
          intros o Ho y Hy; apply elem_of_app; [left|right]; exact (Ho y Hy).
      * unfold getBody in Hops. cbn [st' currentBlockOperations] in Hops.
        rewrite !lookup_insert_ne in Hops by congruence. rewrite Hbits by assumption.
        exact (good_ok _ _ _ _ HG r Hr0 ops Hops).
    + intros r Hr Hn Han. destruct (Hroot' r Hr) as [Hrl Hr0].
      assert (Hra : r <> a) by (intros E; apply Hn; left; exact E).
      rewrite Hanc in Han by exact Hrl. rewrite Hbits by assumption.
      apply (good_single _ _ _ _ HG r Hr0); [intros E; apply Hn; right; exact E|exact Han].
    + exact (good_written _ _ _ _ HG).
  - intros r Hr Hra Hrl. split; [rewrite Hpar by exact Hrl; exact Hr|].
    split; [apply Hbits; assumption|apply Hanc, Hrl].
Qed.

Lemma findBlock_root_pair k R ex fuel st q st' b :
  Good k R ex st -> is_Some (parent st !! q) -> findBlock fuel st q = Ok (st', b) ->
  b = R q /\ Good k R ex st' /\ sameDom st st' /\
  (forall r, parent st !! r = Some r -> keeps st st' r) /\
  getBits st' = getBits st /\ getAnchor st' = getAnchor st /\ getBody st' = getBody st /\
  written st' = written st.
Proof.
  intros HG Hq Hf. pose proof (good_core _ _ _ _ HG) as HC.
  destruct (findBlock_old R fuel st q st' b HC Hq Hf) as (-> & HC' & P & -> & HP).
  split; [reflexivity|]. split; [exact (good_set_parent k R ex st P HG HC' HP)|].
  split; [exact HP|]. split; [|repeat split].
  intros r Hr. split; [apply (roots_same R st _ HC HC' HP), Hr|split; reflexivity].
Qed.

Lemma union_good k R ex fuel st b1 b2 st' :
  Good k R ex st -> is_Some (parent st !! b1) -> is_Some (parent st !! b2) ->
  (R b1 <> R b2 -> length (getBits st (R b1) ++ getBits st (R b2)) <= k) ->
  unionBlock fuel st b1 b2 = Ok st' ->
  (R b1 = R b2 /\ Good k R ex st' /\ sameDom st st' /\
     forall r, parent st !! r = Some r -> keeps st st' r) \/
  (R b1 <> R b2 /\ exists a l, ((a = R b1 /\ l = R b2) \/ (a = R b2 /\ l = R b1)) /\
     Good k (mergeR R l a) (fun r => r = a \/ ex r) st' /\ sameDom st st' /\
     (forall r, parent st !! r = Some r -> r <> a -> r <> l -> keeps st st' r) /\
     parent st' !! a = Some a /\ getBits st' a = getBits st a ++ getBits st l /\
     getAnchor st' a = getAnchor st a).
Proof.
  intros HG H1 H2 Hk H. unfold unionBlock in H. pose proof (good_core _ _ _ _ HG) as HC.
  destruct (findBlock fuel st b1) as [[st1 p1]|e] eqn:Hf1; cbn [res_bind] in H; [|discriminate].
  destruct (findBlock_root_pair k R ex fuel st b1 st1 p1 HG H1 Hf1)
    as (-> & HG1 & HD1 & Hk1 & Eb1 & Ea1 & Eo1 & Ew1).
  assert (H2' : is_Some (parent st1 !! b2)) by (apply HD1, H2).
  destruct (findBlock fuel st1 b2) as [[st2 p2]|e] eqn:Hf2; cbn [res_bind] in H; [|discriminate].
  destruct (findBlock_root_pair k R ex fuel st1 b2 st2 p2 HG1 H2' Hf2)
    as (-> & HG2 & HD2 & Hk2 & Eb2 & Ea2 & Eo2 & Ew2).
  pose proof (good_core _ _ _ _ HG2) as HC2.
  assert (HD : sameDom st st2) by (intros x; rewrite (HD2 x); apply HD1).
  assert (Hkeep : forall r, parent st !! r = Some r -> keeps st st2 r).
  { intros r Hr. destruct (Hk1 r Hr) as (Hr1 & B1 & A1). destruct (Hk2 r Hr1) as (Hr2 & B2 & A2).
    split; [exact Hr2|split; congruence]. }
  destruct (Nat.eqb_spec (R b1) (R b2)) as [E|Hne].
  - injection H as <-. left. split; [exact E|]. split; [exact HG2|]. split; [exact HD|exact Hkeep].
  - right. split; [exact Hne|].
    assert (Hr1 : parent st !! R b1 = Some (R b1)) by exact (core_root _ _ HC b1 H1).
    assert (Hr2 : parent st !! R b2 = Some (R b2)) by exact (core_root _ _ HC b2 H2).
    destruct (getBody st2 (R b1)) as [o1|e] eqn:Ho1; cbn [res_bind] in H; [|discriminate].
    destruct (getBody st2 (R b2)) as [o2|e] eqn:Ho2; cbn [res_bind] in H; [|discriminate].
    assert (Hgen : forall a l, ((a = R b1 /\ l = R b2) \/ (a = R b2 /\ l = R b1)) ->
      (let* o1 := getBody st2 a in
       let* o2 := getBody st2 l in
       let bits := <[a := getBits st2 a ++ getBits st2 l]> (bitBlocks st2) in
       let s := match getAnchor st2 l with
                | Some slot => <[slot := Some identityPlaceholder]> (slots st2)
                | None => slots st2
                end in
       Ok (mkBlockState s (<[l := a]> (parent st2))
             (<[l := []]> bits)
             (<[l := None]> (currentBlockInCircuit st2))
             (<[l := Some []]> (<[a := Some (o1 ++ o2)]> (currentBlockOperations st2)))
             (written st2))) = Ok st' ->
      exists a l, ((a = R b1 /\ l = R b2) \/ (a = R b2 /\ l = R b1)) /\
     Good k (mergeR R l a) (fun r => r = a \/ ex r) st' /\ sameDom st st' /\
     (forall r, parent st !! r = Some r -> r <> a -> r <> l -> keeps st st' r) /\
     parent st' !! a = Some a /\ getBits st' a = getBits st a ++ getBits st l /\
     getAnchor st' a = getAnchor st a).
    { intros a l Hal Hm.
      assert (Ha : parent st2 !! a = Some a) by (destruct Hal as [[-> ->]|[-> ->]]; apply Hkeep; assumption).
      assert (Hl : parent st2 !! l = Some l) by (destruct Hal as [[-> ->]|[-> ->]]; apply Hkeep; assumption).
      assert (Hal' : a <> l) by (destruct Hal as [[-> ->]|[-> ->]]; congruence).
      assert (Hoa : getBody st2 a = Ok (if decide (a = R b1) then o1 else o2))
        by (destruct Hal as [[-> ->]|[-> ->]]; [rewrite decide_True by reflexivity|rewrite decide_False by congruence]; assumption).
      assert (Hol : getBody st2 l = Ok (if decide (l = R b1) then o1 else o2))
        by (destruct Hal as [[-> ->]|[-> ->]]; [rewrite decide_False by congruence|rewrite decide_True by reflexivity]; assumption).
      rewrite Hoa, Hol in Hm. cbn [res_bind] in Hm. injection Hm as <-.
      assert (Hk' : length (getBits st2 a ++ getBits st2 l) <= k).
      { rewrite Eb2, Eb1. destruct Hal as [[-> ->]|[-> ->]]; [exact (Hk Hne)|].
        rewrite length_app, Nat.add_comm, <- length_app. exact (Hk Hne). }
      destruct (merge_spec k R ex st2 a l _ _
        (match getAnchor st2 l with
         | Some slot => <[slot := Some identityPlaceholder]> (slots st2)
         | None => slots st2 end) HG2 Ha Hl Hal' Hoa Hol Hk')
        as (HG' & HD' & Hkp & Ha' & Hba & Haa).
      exists a, l. split; [exact Hal|]. split; [exact HG'|].
      split; [intros x; rewrite (HD' x); apply HD|].
      split; [|split; [exact Ha'|split; [rewrite Hba, Eb2, Eb1; reflexivity|rewrite Haa, Ea2, Ea1; reflexivity]]].
      intros r Hr Hra Hrl. destruct (Hkeep r Hr) as (Hr' & B & A).
      destruct (Hkp r Hr' Hra Hrl) as (Hr'' & B' & A'). split; [exact Hr''|split; congruence]. }
    destruct (length o1 <? length o2).
    + apply (Hgen (R b2) (R b1)); [right; split; reflexivity|]. exact H.
    + apply (Hgen (R b1) (R b2)); [left; split; reflexivity|]. exact H.
Qed.

Lemma findBlock_spec k R ex fuel st q st' b :
  Good k R ex st -> findBlock fuel st q = Ok (st', b) ->
  exists R', Good k R' ex st' /\ b = R' q /\
    (forall x, is_Some (parent st !! x) -> R' x = R x) /\
    (forall x, is_Some (parent st' !! x) <-> x = q \/ is_Some (parent st !! x)) /\
    (forall r, parent st !! r = Some r -> keeps st st' r).
Proof.
  intros HG Hf.
  destruct (findBlock_good k R ex fuel st q st' b HG Hf) as (R' & HG' & Hb & HR & HD & P & Est).
  exists R'. split; [exact HG'|]. split; [exact Hb|]. split; [exact HR|]. split; [exact HD|].
  intros r Hr. pose proof (good_core _ _ _ _ HG) as HC. pose proof (good_core _ _ _ _ HG') as HC'.
  assert (Hd : is_Some (parent st !! r)) by (eexists; exact Hr).
  split.
  - apply (core_root_iff R' st' r HC'). split; [apply HD; right; exact Hd|].
    rewrite (HR r Hd). exact (core_self _ _ HC r Hr).
  - subst st'. unfold ensureQubit, getBits, getAnchor. cbn [set_parent bitBlocks currentBlockInCircuit].
    destruct (parent st !! q) eqn:Hq; [split; reflexivity|].
    assert (r <> q) by congruence. cbn [resetQubit bitBlocks currentBlockInCircuit].
    rewrite !lookup_insert_ne by congruence. split; reflexivity.
Qed.

Lemma findBlocks_good k R ex fuel st qs acc st' acc' :
  Good k R ex st -> findBlocks fuel st qs acc = Ok (st', acc') ->
  exists R', Good k R' ex st' /\
    (forall x, is_Some (parent st !! x) -> R' x = R x) /\
    (forall x, is_Some (parent st' !! x) <-> x ∈ qs \/ is_Some (parent st !! x)) /\
    (forall q, q ∈ qs -> R' q ∈ acc') /\ (forall b, b ∈ acc -> b ∈ acc') /\
    (forall r, parent st !! r = Some r -> keeps st st' r).
Proof.
  revert R st acc. induction qs as [|q qs IH]; intros R st acc HG H; simpl in H.
  - injection H as <- <-. exists R. split; [exact HG|]. split; [reflexivity|].
    split; [intros x; split; [tauto|intros [Hx|Hx]; [inversion Hx|exact Hx]]|].
    split; [intros q Hq; inversion Hq|]. split; [tauto|].
    intros r Hr. split; [exact Hr|split; reflexivity].
  - destruct (findBlock fuel st q) as [[st1 b]|e] eqn:Hf; cbn [res_bind] in H; [|discriminate].
    destruct (findBlock_spec k R ex fuel st q st1 b HG Hf) as (R1 & HG1 & -> & HR1 & HD1 & Hk1).
    destruct (IH R1 st1 _ HG1 H) as (R' & HG' & HR' & HD' & Hin & Hacc & Hk').
    exists R'. split; [exact HG'|]. split.
    { intros x Hx. rewrite HR'; [apply HR1, Hx|]. apply HD1. right. exact Hx. }
    split.
    { intros x. rewrite HD', HD1, elem_of_cons. tauto. }
    split.
    { intros q' Hq'. apply elem_of_cons in Hq' as [->|Hq']; [|exact (Hin q' Hq')].
      apply Hacc. rewrite HR' by (apply HD1; left; reflexivity).
      destruct (nat_mem (R1 q) acc) eqn:Em.
      - apply nat_mem_In, list_elem_of_In in Em. exact Em.
      - apply elem_of_app. right. left. }
    split.
    { intros b Hb. apply Hacc. destruct (nat_mem _ acc); [exact Hb|apply elem_of_app; left; exact Hb]. }
    intros r Hr. destruct (Hk1 r Hr) as (Hr1 & B1 & A1). destruct (Hk' r Hr1) as (Hr' & B' & A').
    split; [exact Hr'|split; congruence].
Qed.


Lemma size_list_to_set_le (l : list nat) : size (list_to_set (C := gset nat) l) <= length l.
Proof.
  induction l as [|x l IH]; [rewrite list_to_set_nil, size_empty; simpl; lia|].
  rewrite list_to_set_cons, size_union_alt. cbn [length]. pose proof (subseteq_size ((list_to_set l : gset nat) ∖ {[x]}) (list_to_set l)
    ltac:(set_solver)). rewrite size_singleton. lia.
Qed.

Lemma elem_of_Wset R st U y :
  y ∈ Wset R st U <-> exists q, q ∈ U /\ y ∈ getBits st (R q).
Proof.
  unfold Wset. rewrite elem_of_union_list. split.
  - intros (X & HX & Hy). apply list_elem_of_In, in_map_iff in HX as (q & <- & Hq).
    exists q. split; [rewrite list_elem_of_In; exact Hq|]. apply elem_of_list_to_set in Hy. exact Hy.
  - intros (q & Hq & Hy). exists (list_to_set (getBits st (R q))). split.
    + apply list_elem_of_In, in_map_iff. exists q. split; [reflexivity|rewrite <- list_elem_of_In; exact Hq].
    + apply elem_of_list_to_set. exact Hy.
Qed.

Lemma size_union_list_le (Xs : list (gset nat)) :
  size (⋃ Xs) <= sum_list (map size Xs).
Proof.
  induction Xs as [|X Xs IH]; [rewrite union_list_nil, size_empty; simpl; lia|].
  rewrite union_list_cons, size_union_alt. cbn [map sum_list fold_right]. pose proof (subseteq_size ((⋃ Xs) ∖ X) (⋃ Xs) ltac:(intros ?; rewrite elem_of_difference; tauto)). unfold sum_list in *. lia.
Qed.

Lemma W_le_sum R st U B :
  (forall q, q ∈ U -> R q ∈ B) ->
  size (Wset R st U) <= sum_list (map (fun b => length (getBits st b)) B).
Proof.
  intros HB. transitivity (size (⋃ (map (fun b => list_to_set (C := gset nat) (getBits st b)) B))).
  - apply subseteq_size. intros y Hy. apply elem_of_Wset in Hy as (q & Hq & Hy).
    apply elem_of_union_list. exists (list_to_set (getBits st (R q))). split.
    + apply list_elem_of_In, in_map_iff. exists (R q). split; [reflexivity|rewrite <- list_elem_of_In; exact (HB q Hq)].
    + apply elem_of_list_to_set. exact Hy.
  - etransitivity; [apply size_union_list_le|]. rewrite map_map. clear HB.
    induction B as [|b B IH]; cbn [map sum_list fold_right]; [lia|].
    unfold sum_list in *. pose proof (size_list_to_set_le (getBits st b)). lia.
Qed.

Lemma good_unexempt k R ex a st :
  Good k R (fun r => r = a \/ ex r) st -> getAnchor st a <> None -> Good k R ex st.
Proof.
  intros [HC Hok Hs Hw] Ha. constructor; try assumption.
  intros r Hr Hn Han. apply (Hs r Hr); [|exact Han]. intros [->|E]; [exact (Ha Han)|exact (Hn E)].
Qed.

Lemma finalize_dom k R fuel st index st' :
  Good k R noex st -> is_Some (parent st !! index) -> finalizeBlock fuel st index = Ok st' ->
  Good k (splitR R (R index)) noex st' /\ sameDom st st' /\
  (forall r, parent st !! r = Some r -> r <> R index -> keeps st st' r) /\
  (forall x, is_Some (parent st !! x) -> R x = R index -> parent st' !! x = Some x /\ getBits st' x = [x]).
Proof.
  intros HG Hi H. unfold finalizeBlock in H. pose proof (good_core _ _ _ _ HG) as HC.
  destruct (findBlock fuel st index) as [[st1 b]|e] eqn:Hf; cbn [res_bind] in H; [|discriminate].
  destruct (findBlock_root_pair k R noex fuel st index st1 b HG Hi Hf)
    as (-> & HG1 & HD1 & Hk1 & Eb1 & Ea1 & Eo1 & Ew1).
  pose proof (good_core _ _ _ _ HG1) as HC1.
  assert (Hb1 : parent st1 !! R index = Some (R index)) by (apply HD1 in Hi; exact (core_root _ _ HC1 _ Hi)).
  destruct (finalize_tail k R st1 (R index) st' HG1 Hb1 H) as (HG' & HD' & Hr' & Hm').
  split; [exact HG'|]. split; [intros x; rewrite (HD' x); apply HD1|]. split.
  - intros r Hr Hrb. destruct (Hk1 r Hr) as (Hr1 & B1 & A1).
    destruct (Hr' r Hr1 Hrb) as (Hr2 & B2 & A2). split; [exact Hr2|split; congruence].
  - intros x Hx E. apply Hm'; [apply HD1, Hx|exact E].
Qed.

Lemma collectBlocksAndSizes_good k R fuel st qs m st' m' :
  Good k R noex st -> (forall b s, m !! b = Some s -> Entry st (b, s)) ->
  collectBlocksAndSizes fuel st qs m = Ok (st', m') ->
  exists R', Good k R' noex st' /\ forall b s, m' !! b = Some s -> Entry st' (b, s).
Proof.
  revert R st m. induction qs as [|q qs IH]; intros R st m HG Hm H; simpl in H.
  - injection H as <- <-. exists R. tauto.
  - destruct (findBlock fuel st q) as [[st1 b]|e] eqn:Hf; cbn [res_bind] in H; [|discriminate].
    destruct (findBlock_spec k R noex fuel st q st1 b HG Hf) as (R1 & HG1 & -> & HR1 & HD1 & Hk1).
    unfold blockEmpty in H.
    destruct (findBlock fuel st1 (R1 q)) as [[st2 b2]|e] eqn:Hf2; cbn [res_bind] in H; [|discriminate].
    assert (Hq1 : is_Some (parent st1 !! R1 q)).
    { eexists. apply (core_root _ _ (good_core _ _ _ _ HG1)). apply HD1. left. reflexivity. }
    destruct (findBlock_root_pair k R1 noex fuel st1 (R1 q) st2 b2 HG1 Hq1 Hf2)
      as (-> & HG2 & HD2 & Hk2 & Eb2 & Ea2 & Eo2 & Ew2).
    assert (Hr2 : parent st2 !! R1 (R1 q) = Some (R1 (R1 q))).
    { apply (core_root _ _ (good_core _ _ _ _ HG2)). apply HD2. exact Hq1. }
    assert (ERR : R1 (R1 q) = R1 q).
    { apply (core_self _ _ (good_core _ _ _ _ HG1)), (core_root _ _ (good_core _ _ _ _ HG1)).
      apply HD1. left. reflexivity. }
    rewrite ERR in H, Hr2.
    assert (Hm2 : forall b s, m !! b = Some s -> Entry st2 (b, s)).
    { intros b s Hb. destruct (Hm b s Hb) as (Hr & Hl & Ha). destruct (Hk1 b Hr) as (Hr1 & B1 & A1).
      destruct (Hk2 b Hr1) as (Hr2' & B2 & A2).
      split; [exact Hr2'|split; [cbn; rewrite B2, B1; exact Hl|cbn; rewrite A2, A1; exact Ha]]. }
    destruct (match getAnchor st2 (R1 q) with None => true | Some _ => false end
              || bool_decide (is_Some (m !! R1 q))) eqn:Ec.
    + exact (IH R1 st2 m HG2 Hm2 H).
    + apply orb_false_iff in Ec as [Ee _].
      refine (IH R1 st2 _ HG2 _ H).
      intros b s Hb. apply lookup_insert_Some in Hb as [[<- <-]|[_ Hb]]; [|exact (Hm2 b s Hb)].
      split; [exact Hr2|split; [reflexivity|]]. cbn.
      destruct (getAnchor st2 (R1 q)); [discriminate|discriminate].
Qed.

Lemma keeps_trans st1 st2 st3 r : keeps st1 st2 r -> keeps st2 st3 r -> keeps st1 st3 r.
Proof. intros (H1 & B1 & A1) (H2 & B2 & A2). split; [exact H2|split; congruence]. Qed.

Lemma entry_keeps st st' e : Entry st e -> keeps st st' e.1 -> Entry st' e.
Proof. intros (H1 & B1 & A1) (H2 & B2 & A2). split; [exact H2|split; congruence]. Qed.

Lemma fillBlock_good k R fuel st block size next st' size' rest :
  Good k R noex st -> is_Some (parent st !! block) -> length (getBits st (R block)) <= size ->
  getAnchor st (R block) <> None ->
  (forall e, e ∈ next -> Entry st e /\ e.1 <> R block) -> NoDup (map fst next) ->
  fillBlock fuel k st block size next = Ok (st', size', rest) ->
  exists R', Good k R' noex st' /\ is_Some (parent st' !! block) /\
    (forall e, e ∈ rest -> Entry st' e /\ e.1 <> R' block /\ e ∈ next) /\ NoDup (map fst rest) /\
    (forall r, parent st !! r = Some r -> r <> R block -> r ∉ map fst next ->
       keeps st st' r /\ r <> R' block).
Proof.
  revert R st size st' size' rest.
  induction next as [|[nb ns] next IH]; intros R st size st' size' rest HG Hb Hlen Ha Hent Hnd H;
    simpl in H.
  - injection H as <- <- <-. exists R. split; [exact HG|]. split; [exact Hb|].
    split; [intros e He; inversion He|]. split; [constructor|].
    intros r Hr Hrb _. split; [split; [exact Hr|split; reflexivity]|exact Hrb].
  - pose proof (good_core _ _ _ _ HG) as HC.
    cbn [map fst] in Hnd. apply NoDup_cons in Hnd as [Hnb Hnd].
    destruct (Hent (nb, ns) ltac:(left)) as ((Hnbr & Hnbl & Hnba) & Hnbb). cbn [fst snd] in *.
    assert (Hent' : forall e, e ∈ next -> Entry st e /\ e.1 <> R block /\ e.1 <> nb).
    { intros e He. destruct (Hent e ltac:(right; exact He)) as [He1 He2]. split; [exact He1|].
      split; [exact He2|]. intros E. apply Hnb. rewrite <- E. apply list_elem_of_In, in_map.
      apply list_elem_of_In, He. }
    destruct (Nat.ltb_spec size k) as [Hsk|Hsk]; [|injection H as <- <- <-].
    2:{ exists R. split; [exact HG|]. split; [exact Hb|]. split.
        - intros e He. split; [exact (proj1 (Hent e He))|]. split; [exact (proj2 (Hent e He))|exact He].
        - split; [cbn [map fst]; apply NoDup_cons; tauto|].
          intros r Hr Hrb _. split; [split; [exact Hr|split; reflexivity]|exact Hrb]. }
    destruct (Nat.leb_spec (size + ns) k) as [Hfit|Hfit].
    + destruct (unionBlock fuel st block nb) as [st1|e] eqn:Hu; cbn [res_bind] in H; [|discriminate].
      assert (HRnb : R nb = nb) by exact (core_self _ _ HC nb Hnbr).
      assert (Hk : R block <> R nb -> length (getBits st (R block) ++ getBits st (R nb)) <= k).
      { intros _. rewrite length_app, HRnb. lia. }
      destruct (union_good k R noex fuel st block nb st1 HG Hb ltac:(eexists; exact Hnbr) Hk Hu)
        as [(E & _)|(Hne & a & l & Hal & HG1 & HD1 & Hk1 & Ha1 & Hb1 & Hanc1)];
        [exfalso; congruence|].
      assert (HRa : mergeR R l a block = a).
      { unfold mergeR. destruct Hal as [[-> ->]|[-> ->]].
        - rewrite (proj2 (Nat.eqb_neq _ _) Hne). reflexivity.
        - rewrite HRnb, Nat.eqb_refl. reflexivity. }
      assert (HaN : getAnchor st a <> None) by (destruct Hal as [[-> ->]|[-> ->]]; rewrite ?HRnb; assumption).
      pose proof (good_unexempt k _ noex a st1 HG1 ltac:(rewrite Hanc1; exact HaN)) as HG1'.
      destruct (IH (mergeR R l a) st1 (size + ns) st' size' rest HG1' ltac:(apply HD1, Hb))
        as (R' & HG' & Hb' & Hrest & Hnd' & Hkeep).
      * rewrite HRa, Hb1, length_app. destruct Hal as [[-> ->]|[-> ->]]; rewrite ?HRnb in *; lia.
      * rewrite HRa, Hanc1. exact HaN.
      * intros e He. destruct (Hent' e He) as (Hee & Heb & Hen).
        assert (Hea : e.1 <> a /\ e.1 <> l) by (destruct Hal as [[-> ->]|[-> ->]]; rewrite ?HRnb; tauto).
        split; [apply (entry_keeps st); [exact Hee|apply Hk1; [apply Hee|tauto|tauto]]|].
        rewrite HRa. tauto.
      * exact Hnd.
      * exact H.
      * exists R'. split; [exact HG'|]. split; [exact Hb'|]. split.
        { intros e He. destruct (Hrest e He) as (? & ? & ?). split; [assumption|].
          split; [assumption|right; assumption]. }
        split; [exact Hnd'|].
        intros r Hr Hrb Hrn. cbn [map fst] in Hrn. rewrite elem_of_cons in Hrn.
        assert (Hra : r <> a /\ r <> l) by (destruct Hal as [[-> ->]|[-> ->]]; rewrite ?HRnb; tauto).
        pose proof (Hk1 r Hr (proj1 Hra) (proj2 Hra)) as Hkr.
        destruct (Hkeep r (proj1 Hkr) ltac:(rewrite HRa; tauto) ltac:(tauto)) as [Hkr' Hne'].
        split; [exact (keeps_trans _ _ _ r Hkr Hkr')|exact Hne'].
    + destruct (fillBlock fuel k st block size next) as [[[st1 size1] rest1]|e] eqn:Hf;
        cbn [res_bind] in H; [|discriminate]. injection H as <- <- <-.
      destruct (IH R st size st1 size1 rest1 HG Hb Hlen Ha ltac:(intros e He; split; apply Hent'; exact He) Hnd Hf)
        as (R' & HG' & Hb' & Hrest & Hnd' & Hkeep).
      destruct (Hkeep nb Hnbr Hnbb Hnb) as [Hknb Hnb'].
      exists R'. split; [exact HG'|]. split; [exact Hb'|]. split.
      * intros e He. apply elem_of_cons in He as [->|He].
        -- split; [apply (entry_keeps st); [split; [exact Hnbr|split; [exact Hnbl|exact Hnba]]|exact Hknb]|].
           split; [exact Hnb'|left].
        -- destruct (Hrest e He) as (? & ? & ?). split; [assumption|]. split; [assumption|right; assumption].
      * split.
        -- cbn [map fst]. apply NoDup_cons. split; [|exact Hnd'].
           intros Hin. apply Hnb. apply list_elem_of_In, in_map_iff in Hin as (e & E & He).
           apply list_elem_of_In, in_map_iff. exists e. split; [exact E|].
           apply list_elem_of_In. apply list_elem_of_In in He. exact (proj2 (proj2 (Hrest e He))).
        -- intros r Hr Hrb Hrn. cbn [map fst] in Hrn. rewrite elem_of_cons in Hrn.
           apply (Hkeep r Hr Hrb). tauto.
Qed.

Lemma packBlocks_good k R n fuel st sorted st' :
  Good k R noex st -> (forall e, e ∈ sorted -> Entry st e) -> NoDup (map fst sorted) ->
  packBlocks n fuel k st sorted = Ok st' -> exists R', Good k R' noex st'.
Proof.
  revert R st sorted. induction n as [|n IH]; intros R st sorted HG Hent Hnd H; simpl in H;
    [discriminate|].
  destruct sorted as [|[block size] rest]; [injection H as <-; exists R; exact HG|].
  cbn [map fst] in Hnd. apply NoDup_cons in Hnd as [Hnb Hnd].
  destruct (Hent (block, size) ltac:(left)) as (Hbr & Hbl & Hba). cbn [fst snd] in *.
  pose proof (good_core _ _ _ _ HG) as HC.
  assert (HRb : R block = block) by exact (core_self _ _ HC block Hbr).
  assert (Hent' : forall e, e ∈ rest -> Entry st e /\ e.1 <> block).
  { intros e He. split; [apply Hent; right; exact He|]. intros E. apply Hnb. rewrite <- E.
    apply list_elem_of_In, in_map, list_elem_of_In, He. }
  destruct (Nat.eqb_spec size k) as [Hsk|Hsk].
  - destruct (finalizeBlock fuel st block) as [st1|e] eqn:Hf; cbn [res_bind] in H; [|discriminate].
    destruct (finalize_root k R fuel st block st1 HG Hbr Hf) as (HG1 & HD1 & Hk1 & _).
    apply (IH _ st1 rest HG1); [|exact Hnd|exact H].
    intros e He. destruct (Hent' e He) as [Hee Heb].
    apply (entry_keeps st); [exact Hee|]. apply Hk1; [apply Hee|exact Heb].
  - destruct (fillBlock fuel k st block size rest) as [[[st1 size1] rest1]|e] eqn:Hf;
      cbn [res_bind] in H; [|discriminate].
    destruct (fillBlock_good k R fuel st block size rest st1 size1 rest1 HG
      ltac:(eexists; exact Hbr) ltac:(rewrite HRb; lia) ltac:(rewrite HRb; exact Hba)
      ltac:(intros e He; rewrite HRb; apply Hent', He) Hnd Hf)
      as (R1 & HG1 & Hb1 & Hrest & Hnd1 & _).
    destruct (finalizeBlock fuel st1 block) as [st2|e] eqn:Hf2; cbn [res_bind] in H; [|discriminate].
    destruct (finalize_dom k R1 fuel st1 block st2 HG1 Hb1 Hf2) as (HG2 & HD2 & Hk2 & _).
    apply (IH _ st2 rest1 HG2); [|exact Hnd1|exact H].
    intros e He. destruct (Hrest e He) as (Hee & Heb & _).
    apply (entry_keeps st1); [exact Hee|]. apply Hk2; [apply Hee|exact Heb].
Qed.

Lemma map_to_list_entries (m : gmap nat nat) st (arrange : list (nat * nat) -> list (nat * nat)) :
  (forall l, Permutation (arrange l) l) ->
  (forall b s, m !! b = Some s -> Entry st (b, s)) ->
  (forall e, e ∈ arrange (map_to_list m) -> Entry st e) /\ NoDup (map fst (arrange (map_to_list m))).
Proof.
  intros Hperm Hm. split.
  - intros [b s] He. rewrite (Hperm (map_to_list m)) in He.
    apply elem_of_map_to_list in He. exact (Hm b s He).
  - assert (P : map fst (arrange (map_to_list m)) ≡ₚ map fst (map_to_list m))
      by (apply Permutation_map, Hperm).
    rewrite P. apply NoDup_fst_map_to_list.
Qed.

Lemma sumZ_perm l1 l2 : l1 ≡ₚ l2 -> sumZ l1 = sumZ l2.
Proof. induction 1; simpl; lia. Qed.

Lemma sumZ_insert_None (m : gmap nat Z) b v :
  m !! b = None -> sumZ (map_to_list (<[b:=v]> m)) = (v + sumZ (map_to_list m))%Z.
Proof. intros Hb. rewrite (sumZ_perm _ _ (map_to_list_insert m b v Hb)). reflexivity. Qed.

Lemma sumZ_insert_Some (m : gmap nat Z) b v s :
  m !! b = Some s -> sumZ (map_to_list (<[b:=v]> m)) = (v - s + sumZ (map_to_list m))%Z.
Proof.
  intros Hb. rewrite <- (insert_delete_eq m b v).
  rewrite <- (insert_delete_id m b s Hb) at 2.
  rewrite !sumZ_insert_None by (apply lookup_delete_eq). lia.
Qed.

Lemma countIn_snoc R b P q :
  countIn R b (P ++ [q]) = countIn R b P + (if decide (R q = b) then 1 else 0).
Proof.
  unfold countIn. rewrite filter_app, length_app. f_equal.
  destruct (decide (R q = b)); [rewrite filter_cons_True by assumption|rewrite filter_cons_False by assumption];
    reflexivity.
Qed.

Lemma countIn_zero R b P : (forall q, q ∈ P -> R q <> b) -> countIn R b P = 0.
Proof.
  intros H. unfold countIn. induction P as [|x P IH]; [reflexivity|].
  rewrite filter_cons_False by (apply H; left). apply IH. intros q Hq. apply H. right. exact Hq.
Qed.

Lemma Wset_snoc R st P q : Wset R st (P ++ [q]) = Wset R st P ∪ list_to_set (getBits st (R q)).
Proof.
  apply set_eq. intros y. rewrite elem_of_union, !elem_of_Wset, elem_of_list_to_set.
  split.
  - intros (q' & Hq' & Hy). apply elem_of_app in Hq' as [Hq'|Hq'].
    + left. exists q'. tauto.
    + apply list_elem_of_singleton in Hq'. subst. right. exact Hy.
  - intros [(q' & Hq' & Hy)|Hy].
    + exists q'. split; [apply elem_of_app; left; exact Hq'|exact Hy].
    + exists q. split; [apply elem_of_app; right; left|exact Hy].
Qed.

Lemma Wset_ext R R' st st' U :
  (forall q, q ∈ U -> getBits st' (R' q) = getBits st (R q)) -> Wset R' st' U = Wset R st U.
Proof.
  intros H. apply set_eq. intros y. rewrite !elem_of_Wset. split; intros (q & Hq & Hy);
    exists q; (split; [exact Hq|]); [rewrite <- H|rewrite H]; assumption.
Qed.


Lemma collectSavings_spec k R fuel st qs P sv T st' sv' T' :
  Good k R noex st -> (forall q, q ∈ P ++ qs -> is_Some (parent st !! q)) ->
  SavOK R st P sv -> (forall q, q ∈ P -> is_Some (sv !! R q)) ->
  (sumZ (map_to_list sv) + Z.of_nat (length P) = Z.of_nat T)%Z ->
  size (Wset R st P) <= T ->
  collectSavings fuel st qs sv T = Ok (st', sv', T') ->
  Good k R noex st' /\ getBits st' = getBits st /\ sameDom st st' /\
  (forall r, parent st !! r = Some r -> parent st' !! r = Some r) /\
  SavOK R st (P ++ qs) sv' /\
  (sumZ (map_to_list sv') + Z.of_nat (length (P ++ qs)) = Z.of_nat T')%Z /\
  size (Wset R st (P ++ qs)) <= T'.
Proof.
  revert st P sv T. induction qs as [|q qs IH]; intros st P sv T HG HD Hsv Hin Hsum HW H;
    simpl in H.
  - injection H as <- <- <-. rewrite app_nil_r.
    split; [exact HG|]. split; [reflexivity|]. split; [intros x; reflexivity|].
    split; [tauto|]. tauto.
  - destruct (findBlock fuel st q) as [[st1 b]|e] eqn:Hf; cbn [res_bind] in H; [|discriminate].
    assert (Hq : is_Some (parent st !! q)) by (apply HD, elem_of_app; right; left).
    destruct (findBlock_root_pair k R noex fuel st q st1 b HG Hq Hf)
      as (-> & HG1 & HD1 & Hk1 & Eb1 & _ & _ & _).
    assert (HD' : forall x, x ∈ (P ++ [q]) ++ qs -> is_Some (parent st1 !! x)).
    { intros x Hx. apply HD1, HD. rewrite <- app_assoc in Hx. exact Hx. }
    assert (Hfin : forall sv1 T1, SavOK R st1 (P ++ [q]) sv1 ->
              (forall x, x ∈ P ++ [q] -> is_Some (sv1 !! R x)) ->
              (sumZ (map_to_list sv1) + Z.of_nat (length (P ++ [q])) = Z.of_nat T1)%Z ->
              size (Wset R st1 (P ++ [q])) <= T1 ->
              collectSavings fuel st1 qs sv1 T1 = Ok (st', sv', T') ->
              Good k R noex st' /\ getBits st' = getBits st /\ sameDom st st' /\
              (forall r, parent st !! r = Some r -> parent st' !! r = Some r) /\
              SavOK R st (P ++ q :: qs) sv' /\
              (sumZ (map_to_list sv') + Z.of_nat (length (P ++ q :: qs)) = Z.of_nat T')%Z /\
              size (Wset R st (P ++ q :: qs)) <= T').
    { intros sv1 T1 H1 H2 H3 H4 H5.
      destruct (IH st1 (P ++ [q]) sv1 T1 HG1 HD' H1 H2 H3 H4 H5)
        as (HG' & Eb' & HD2 & Hr' & Hsv' & Hsum' & HW').
      rewrite <- app_assoc in Hsv', Hsum', HW'. cbn [app] in Hsv', Hsum', HW'.
      split; [exact HG'|]. split; [rewrite Eb', Eb1; reflexivity|].
      split; [intros x; rewrite (HD2 x); apply HD1|].
      split; [intros r Hr; apply Hr', (Hk1 r Hr)|].
      unfold SavOK, Wset in *. rewrite Eb1 in Hsv', HW'. tauto. }
    assert (HbW : forall s, sv !! R q = Some s -> list_to_set (getBits st (R q)) ⊆ Wset R st P).
    { intros s Hs y Hy. destruct (proj1 (Hsv _ _ Hs)) as (q' & Hq' & E).
      apply elem_of_Wset. exists q'. rewrite E. split; [exact Hq'|]. apply elem_of_list_to_set in Hy. exact Hy. }
    assert (EW : forall U, Wset R st1 U = Wset R st U) by (intros U; unfold Wset; rewrite Eb1; reflexivity).
    assert (Hcnt : forall b, b <> R q -> countIn R b (P ++ [q]) = countIn R b P).
    { intros b' Hb'. rewrite countIn_snoc, decide_False by congruence. lia. }
    assert (Hcq : countIn R (R q) (P ++ [q]) = S (countIn R (R q) P)).
    { rewrite countIn_snoc, decide_True by reflexivity. lia. }
    destruct (sv !! R q) as [s|] eqn:Hs.
    + refine (Hfin _ _ _ _ _ _ H).
      * intros b' s' Hb'. apply lookup_insert_Some in Hb' as [[<- <-]|[Hne Hb']].
        -- split; [exists q; split; [apply elem_of_app; right; left|reflexivity]|].
           rewrite Hcq, Eb1. rewrite (proj2 (Hsv _ _ Hs)). lia.
        -- destruct (Hsv _ _ Hb') as [(q' & Hq' & E) Hv]. split.
           ++ exists q'. split; [apply elem_of_app; left; exact Hq'|exact E].
           ++ rewrite Hcnt by congruence. rewrite Eb1. exact Hv.
      * intros x Hx. apply lookup_insert_is_Some'. apply elem_of_app in Hx as [Hx|Hx].
        -- right. apply Hin, Hx.
        -- left. apply list_elem_of_singleton in Hx. subst. reflexivity.
      * rewrite (sumZ_insert_Some _ _ _ _ Hs), length_app. cbn [length]. lia.
      * rewrite EW, Wset_snoc. etransitivity; [|exact HW]. apply subseteq_size.
        pose proof (HbW s eq_refl). set_solver.
    + refine (Hfin _ _ _ _ _ _ H).
      * intros b' s' Hb'. apply lookup_insert_Some in Hb' as [[<- <-]|[Hne Hb']].
        -- split; [exists q; split; [apply elem_of_app; right; left|reflexivity]|].
           rewrite Hcq, countIn_zero; [lia|].
           intros q' Hq' E. pose proof (Hin q' Hq') as [v Hv]. congruence.
        -- destruct (Hsv _ _ Hb') as [(q' & Hq' & E) Hv]. split.
           ++ exists q'. split; [apply elem_of_app; left; exact Hq'|exact E].
           ++ rewrite Hcnt by congruence. rewrite Eb1. exact Hv.
      * intros x Hx. apply lookup_insert_is_Some'. apply elem_of_app in Hx as [Hx|Hx].
        -- right. apply Hin, Hx.
        -- left. apply list_elem_of_singleton in Hx. subst. reflexivity.
      * rewrite (sumZ_insert_None _ _ _ Hs), length_app. cbn [length]. lia.
      * rewrite EW, Wset_snoc, size_union_alt.
        pose proof (subseteq_size (list_to_set (getBits st (R q)) ∖ Wset R st P)
          (list_to_set (getBits st (R q))) ltac:(set_solver)).
        pose proof (size_list_to_set_le (getBits st (R q))). rewrite Eb1. lia.
Qed.

Lemma Wset_finalize k R st st' U b :
  Good k R noex st -> parent st !! b = Some b -> (exists q, q ∈ U /\ R q = b) ->
  (forall q, q ∈ U -> is_Some (parent st !! q)) ->
  (forall r, parent st !! r = Some r -> r <> b -> keeps st st' r) ->
  (forall x, is_Some (parent st !! x) -> R x = b -> parent st' !! x = Some x /\ getBits st' x = [x]) ->
  size (Wset (splitR R b) st' U) + length (getBits st b) <= size (Wset R st U) + countIn R b U.
Proof.
  intros HG Hb (q0 & Hq0 & Eq0) HD Hkeep Hmem. pose proof (good_core _ _ _ _ HG) as HC.
  set (B := list_to_set (C := gset nat) (getBits st b)).
  set (F := list_to_set (C := gset nat) (filter (fun q => R q = b) U)).
  assert (Hsub : Wset (splitR R b) st' U ⊆ (Wset R st U ∖ B) ∪ F).
  { intros y Hy. apply elem_of_Wset in Hy as (q & Hq & Hy). unfold splitR in Hy.
    destruct (Nat.eqb_spec (R q) b) as [E|Hne].
    - rewrite (proj2 (Hmem q (HD q Hq) E)) in Hy. apply list_elem_of_singleton in Hy as ->.
      apply elem_of_union. right. apply elem_of_list_to_set, list_elem_of_filter. tauto.
    - assert (Hr : parent st !! R q = Some (R q)) by exact (core_root _ _ HC q (HD q Hq)).
      destruct (Hkeep (R q) Hr Hne) as (_ & Eb & _). rewrite Eb in Hy.
      apply elem_of_union. left. apply elem_of_difference. split.
      + apply elem_of_Wset. exists q. tauto.
      + intros HyB. apply elem_of_list_to_set in HyB.
        apply (core_bits _ _ HC b Hb) in HyB as [_ E1].
        apply (core_bits _ _ HC _ Hr) in Hy as [_ E2]. congruence. }
  assert (HBW : B ⊆ Wset R st U).
  { intros y Hy. apply elem_of_Wset. exists q0. rewrite Eq0. split; [exact Hq0|].
    apply elem_of_list_to_set in Hy. exact Hy. }
  pose proof (subseteq_size _ _ Hsub) as H1.
  rewrite size_union_alt in H1.
  pose proof (subseteq_size (F ∖ (Wset R st U ∖ B)) F ltac:(set_solver)) as H2.
  pose proof (size_list_to_set_le (filter (fun q => R q = b) U)) as H3.
  rewrite (size_difference _ _ HBW) in H1.
  assert (HB : size B = length (getBits st b)) by exact (size_list_to_set _ (core_nodup _ _ HC b Hb)).
  pose proof (subseteq_size _ _ HBW) as H4.
  unfold countIn. fold F in H2. fold F in H3. lia.
Qed.

Lemma freeSavings_spec k R fuel U st l need st' :
  Good k R noex st -> (forall q, q ∈ U -> is_Some (parent st !! q)) ->
  (forall e, e ∈ l -> parent st !! e.1 = Some e.1 /\
     e.2 = (Z.of_nat (length (getBits st e.1)) - Z.of_nat (countIn R e.1 U))%Z /\
     exists q, q ∈ U /\ R q = e.1) ->
  NoDup (map fst l) ->
  (Z.of_nat (size (Wset R st U)) <= Z.of_nat k + need)%Z ->
  (need <= 0 \/ need - sumZ l <= 0)%Z ->
  freeSavings fuel st l need = Ok st' ->
  exists R', Good k R' noex st' /\ (forall q, q ∈ U -> is_Some (parent st' !! q)) /\
    size (Wset R' st' U) <= k.
Proof.
  revert R st need. induction l as [|[b s] l IH]; intros R st need HG HD Hl Hnd HW Hneed H;
    simpl in H.
  - injection H as <-. exists R. split; [exact HG|]. split; [exact HD|]. simpl in Hneed. lia.
  - cbn [map fst] in Hnd. apply NoDup_cons in Hnd as [Hnb Hnd].
    destruct (Hl (b, s) ltac:(left)) as (Hbr & Hs & Hbq). cbn [fst snd] in Hbr, Hs, Hbq.
    assert (Hl' : forall e, e ∈ l -> e.1 <> b).
    { intros e He E. apply Hnb. rewrite <- E. apply list_elem_of_In, in_map, list_elem_of_In, He. }
    destruct (Z.ltb_spec 0 need) as [Hpos|Hneg].
    + destruct (finalizeBlock fuel st b) as [st1|e] eqn:Hf; cbn [res_bind] in H; [|discriminate].
      destruct (finalize_root k R fuel st b st1 HG Hbr Hf) as (HG1 & HD1 & Hk1 & Hm1).
      pose proof (Wset_finalize k R st st1 U b HG Hbr Hbq HD Hk1 Hm1) as HWf.
      pose proof (good_core _ _ _ _ HG) as HC.
      apply (IH (splitR R b) st1 (need - s)%Z HG1); [| |exact Hnd| |right; unfold sumZ in *; cbn [fold_right snd] in Hneed; lia|exact H].
      * intros q Hq. apply HD1, HD, Hq.
      * intros e He. destruct (Hl e ltac:(right; exact He)) as (Her & Hes & q & Hq & Eq).
        pose proof (Hl' e He) as Heb.
        destruct (Hk1 e.1 Her Heb) as (Her1 & Eb1 & _).
        assert (Hcount : countIn (splitR R b) e.1 U = countIn R e.1 U).
        { unfold countIn. f_equal. apply list_filter_iff. intros x. unfold splitR.
          destruct (Nat.eqb_spec (R x) b) as [E|E]; [|reflexivity].
          split; intros E'; [|congruence]. exfalso. subst x.
          rewrite (core_self _ _ HC _ Her) in E. exact (Heb E). }
        split; [exact Her1|]. split; [rewrite Eb1, Hcount; exact Hes|].
        exists q. split; [exact Hq|]. unfold splitR. rewrite Eq, (proj2 (Nat.eqb_neq _ _) Heb). reflexivity.
      * rewrite Hs. lia.
    + apply (IH R st need HG HD); [|exact Hnd|exact HW|left; exact Hneg|exact H].
      intros e He. apply Hl. right. exact He.
Qed.

Lemma length_le_set (l : list nat) (W : gset nat) :
  NoDup l -> list_to_set l ⊆ W -> length l <= size W.
Proof.
  intros Hnd Hsub. rewrite <- (size_list_to_set (C := gset nat) l Hnd). apply subseteq_size, Hsub.
Qed.

Lemma unionAll_spec k R fuel (W : gset nat) st prev qs st' prev' :
  Good k R (fun r => r = R prev) st ->
  (forall x, x ∈ prev :: qs -> is_Some (parent st !! x) /\ list_to_set (getBits st (R x)) ⊆ W) ->
  size W <= k ->
  unionAll fuel st prev qs = Ok (st', prev') ->
  exists R', Good k R' (fun r => r = R' prev') st' /\ sameDom st st' /\
    (forall x y, is_Some (parent st !! x) -> is_Some (parent st !! y) -> R x = R y -> R' x = R' y) /\
    (forall x, x ∈ prev :: qs -> R' x = R' prev') /\
    list_to_set (getBits st' (R' prev')) ⊆ W /\ prev' ∈ prev :: qs.
Proof.
  revert R st prev. induction qs as [|q qs IH]; intros R st prev HG HW Hk H; simpl in H.
  - injection H as <- <-. exists R. split; [exact HG|]. split; [intros x; reflexivity|].
    split; [tauto|]. split; [intros x Hx; apply list_elem_of_singleton in Hx; subst; reflexivity|].
    split; [apply (HW prev); left|left].
  - destruct (unionBlock fuel st prev q) as [st1|e] eqn:Hu; cbn [res_bind] in H; [|discriminate].
    pose proof (good_core _ _ _ _ HG) as HC.
    destruct (HW prev ltac:(left)) as [Hdp HWp].
    destruct (HW q ltac:(right; left)) as [Hdq HWq].
    assert (Hlen : R prev <> R q -> length (getBits st (R prev) ++ getBits st (R q)) <= k).
    { intros Hne. etransitivity; [|exact Hk]. apply length_le_set.
      - apply NoDup_app. split; [exact (core_nodup _ _ HC _ (core_root _ _ HC _ Hdp))|].
        split; [|exact (core_nodup _ _ HC _ (core_root _ _ HC _ Hdq))].
        intros y Hy1 Hy2. apply (core_bits _ _ HC _ (core_root _ _ HC _ Hdp)) in Hy1 as [_ E1].
        apply (core_bits _ _ HC _ (core_root _ _ HC _ Hdq)) in Hy2 as [_ E2]. congruence.
      - rewrite list_to_set_app. set_solver. }
    assert (Hrest : forall R1 st9, Good k R1 (fun r => r = R1 q) st9 -> sameDom st st9 ->
              (forall x y, is_Some (parent st !! x) -> is_Some (parent st !! y) -> R x = R y -> R1 x = R1 y) ->
              R1 prev = R1 q ->
              (forall x, x ∈ q :: qs -> list_to_set (getBits st9 (R1 x)) ⊆ W) ->
              unionAll fuel st9 q qs = Ok (st', prev') ->
              exists R', Good k R' (fun r => r = R' prev') st' /\ sameDom st st' /\
                (forall x y, is_Some (parent st !! x) -> is_Some (parent st !! y) -> R x = R y -> R' x = R' y) /\
                (forall x, x ∈ prev :: q :: qs -> R' x = R' prev') /\
                list_to_set (getBits st' (R' prev')) ⊆ W /\ prev' ∈ prev :: q :: qs).
    { intros R1 st9 HG1 HD1 Hcls1 Hpq HW1 Hu1.
      destruct (IH R1 st9 q HG1) as (R' & HG' & HD' & Hcls' & Hall & HWf & Hin).
      - intros x Hx. split; [apply HD1, HW; right; exact Hx|exact (HW1 x Hx)].
      - exact Hk.
      - exact Hu1.
      - exists R'. split; [exact HG'|]. split; [intros x; rewrite (HD' x); apply HD1|].
        split.
        { intros x y Hx Hy E. apply Hcls'; [apply HD1, Hx|apply HD1, Hy|]. apply Hcls1; assumption. }
        split.
        { intros x Hx. apply elem_of_cons in Hx as [->|Hx]; [|exact (Hall x Hx)].
          rewrite <- (Hall q ltac:(left)). apply Hcls'; [apply HD1, Hdp|apply HD1, Hdq|exact Hpq]. }
        split; [exact HWf|right; exact Hin]. }
    destruct (union_good k R _ fuel st prev q st1 HG Hdp Hdq Hlen Hu)
      as [(E & HG1 & HD1 & Hk1)|(Hne & a & l & Hal & HG1 & HD1 & Hk1 & Ha1 & Hb1 & Hanc1)].
    + apply (Hrest R st1); [rewrite <- E; exact HG1|exact HD1|tauto|exact E| |exact H].
      intros x Hx. destruct (Hk1 _ (core_root _ _ HC x (proj1 (HW x ltac:(right; exact Hx))))) as (_ & Eb & _).
      rewrite Eb. exact (proj2 (HW x ltac:(right; exact Hx))).
    + assert (Hroot : forall x, is_Some (parent st !! x) -> R (R x) = R x).
      { intros x Hx. exact (core_self _ _ HC _ (core_root _ _ HC _ Hx)). }
      assert (Hal' : a <> l /\ R a = a /\ R l = l).
      { destruct Hal as [[-> ->]|[-> ->]]; split; [exact Hne| |exact (not_eq_sym Hne)|];
          split; apply Hroot; assumption. }
      destruct Hal' as (Hnal & Ra & Rl).
      assert (Hin : forall x, R x = a \/ R x = l -> mergeR R l a x = a).
      { intros x [E|E]; unfold mergeR; rewrite E.
        - rewrite (proj2 (Nat.eqb_neq _ _) Hnal). reflexivity.
        - rewrite Nat.eqb_refl. reflexivity. }
      assert (Hq : mergeR R l a q = a) by (apply Hin; destruct Hal as [[-> ->]|[-> ->]]; auto).
      assert (Hp : mergeR R l a prev = a) by (apply Hin; destruct Hal as [[-> ->]|[-> ->]]; auto).
      apply (Hrest (mergeR R l a) st1); [| exact HD1 | | congruence | | exact H].
      * eapply good_ex_mono; [exact HG1|]. intros r Hr [Er|Er]; [congruence|].
        rewrite Hq. destruct (decide (r = a)) as [->|Hra]; [reflexivity|exfalso].
        assert (El : r = l) by (destruct Hal as [[-> ->]|[-> ->]]; congruence). rewrite El in Hr.
        pose proof (core_self _ _ (good_core _ _ _ _ HG1) l Hr) as E.
        unfold mergeR in E. rewrite Rl, Nat.eqb_refl in E. exact (Hnal E).
      * intros x y _ _ E. unfold mergeR. rewrite E. reflexivity.
      * intros x Hx. destruct (HW x ltac:(right; exact Hx)) as [Hdx HWx].
        destruct (decide (R x = a \/ R x = l)) as [Hxal|Hxal].
        -- rewrite (Hin x Hxal), Hb1, list_to_set_app.
           destruct Hal as [[-> ->]|[-> ->]]; set_solver.
        -- unfold mergeR. rewrite (proj2 (Nat.eqb_neq _ _) (fun E => Hxal (or_intror E))).
           destruct (Hk1 (R x) (core_root _ _ HC x Hdx) (fun E => Hxal (or_introl E))
                       (fun E => Hxal (or_intror E))) as (_ & Eb & _).
           rewrite Eb. exact HWx.
Qed.

Lemma Wset_nil R st : Wset R st [] = ∅.
Proof. reflexivity. Qed.

Lemma shrink_spec k R fuel arr st U st' :
  (forall l, Permutation (arrangeBlocks arr l) l) ->
  (forall l, Permutation (arrangeSavings arr l) l) ->
  Good k R noex st -> (forall q, q ∈ U -> is_Some (parent st !! q)) ->
  shrinkBlocks fuel k arr st U = Ok st' ->
  exists R', Good k R' noex st' /\
    (length U <= k -> (forall q, q ∈ U -> is_Some (parent st' !! q)) /\ size (Wset R' st' U) <= k).
Proof.
  intros Hpb Hps HG HD H. unfold shrinkBlocks in H.
  destruct (k <? length U) eqn:Hlt.
  - destruct (collectBlocksAndSizes fuel st U ∅) as [[st1 m]|e] eqn:Hc; cbn [res_bind] in H; [|discriminate].
    destruct (collectBlocksAndSizes_good k R fuel st U ∅ st1 m HG) as (R1 & HG1 & Hm); [|exact Hc|].
    { intros b s Hbs. rewrite lookup_empty in Hbs. discriminate. }
    destruct (map_to_list_entries m st1 (arrangeBlocks arr) Hpb Hm) as [He Hnd].
    destruct (packBlocks_good k R1 _ fuel st1 _ st' HG1 He Hnd H) as (R' & HG').
    exists R'. split; [exact HG'|]. apply Nat.ltb_lt in Hlt. lia.
  - apply Nat.ltb_ge in Hlt.
    destruct (collectSavings fuel st U ∅ 0) as [[[st1 sv] T]|e] eqn:Hc; cbn [res_bind] in H; [|discriminate].
    destruct (collectSavings_spec k R fuel st U [] ∅ 0 st1 sv T HG)
      as (HG1 & Hbits & HD1 & Hroots & Hsav & Hsum & HW); [exact HD| | | | |exact Hc|].
    + intros b s Hbs. rewrite lookup_empty in Hbs. discriminate.
    + intros q Hq. apply elem_of_nil in Hq. contradiction.
    + rewrite map_to_list_empty. reflexivity.
    + rewrite Wset_nil, size_empty. lia.
    + cbn [app] in Hsav, Hsum, HW.
      assert (HWe : Wset R st1 U = Wset R st U) by (unfold Wset; rewrite Hbits; reflexivity).
      destruct (freeSavings_spec k R fuel U st1 (arrangeSavings arr (map_to_list sv))
                  (Z.of_nat T - Z.of_nat k)%Z st' HG1) as (R' & HG' & HD' & HW');
        [intros q Hq; apply HD1, HD, Hq| | | | |exact H|].
      * intros [b s] He. rewrite (Hps (map_to_list sv)) in He.
        apply elem_of_map_to_list in He. destruct (Hsav b s He) as [(q & Hq & Eq) Es].
        cbn [fst snd]. split; [|split; [rewrite Hbits; exact Es|exists q; split; assumption]].
        apply Hroots. rewrite <- Eq. exact (core_root _ _ (good_core _ _ _ _ HG) q (HD q Hq)).
      * assert (P : map fst (arrangeSavings arr (map_to_list sv)) ≡ₚ map fst (map_to_list sv))
          by (apply Permutation_map, Hps).
        rewrite P. apply NoDup_fst_map_to_list.
      * rewrite HWe. lia.
      * right. rewrite (sumZ_perm _ _ (Hps (map_to_list sv))). lia.
      * exists R'. split; [exact HG'|]. intros _. split; assumption.
Qed.

Lemma core_same R st st' :
  Core R st -> parent st' = parent st -> bitBlocks st' = bitBlocks st -> Core R st'.
Proof.
  intros [H1 H2 H3 H4 H5] Ep Eb. unfold getBits in *.
  constructor; unfold getBits; rewrite ?Ep, ?Eb; assumption.
Qed.

Lemma good_set_anchor k R st b p :
  Good k R (fun r => r = b) st -> parent st !! b = Some b ->
  Good k R noex (set_anchor st (<[b := Some p]> (currentBlockInCircuit st))).
Proof.
  intros [HC Hok Hs Hw] Hb. constructor; [eapply core_same; [exact HC|reflexivity|reflexivity]|exact Hok| |exact Hw].
  intros r Hr _ Ha. unfold getAnchor in Ha; simpl in Ha.
  destruct (decide (r = b)) as [->|Hne].
  - rewrite lookup_insert_eq in Ha. discriminate.
  - rewrite lookup_insert_ne in Ha by congruence. apply (Hs r Hr Hne Ha).
Qed.

Lemma good_append k R st b body op :
  Good k R noex st -> parent st !! b = Some b -> getBody st b = Ok body ->
  (forall y, y ∈ getUsedQubits op -> y ∈ getBits st b) ->
  (length (getBits st b) <= k \/ getUsedQubits op = []) ->
  Good k R noex (set_body st (<[b := Some (body ++ [op])]> (currentBlockOperations st))).
Proof.
  intros [HC Hok Hs Hw] Hb Hbody Hsub Hlen. constructor; [eapply core_same; [exact HC|reflexivity|reflexivity]| |exact Hs|exact Hw].
  intros r Hr ops Hops. unfold getBody in Hops; simpl in Hops.
  destruct (decide (r = b)) as [->|Hne].
  - rewrite lookup_insert_eq in Hops. injection Hops as <-.
    destruct (Hok b Hb body Hbody) as [HF Hl]. split.
    + apply Forall_app. split; [exact HF|constructor; [exact Hsub|constructor]].
    + destruct Hlen as [Hl'|Hu]; [left; exact Hl'|].
      destruct Hl as [Hl|Hl]; [left; exact Hl|right].
      apply Forall_app. split; [exact Hl|constructor; [exact Hu|constructor]].
  - rewrite lookup_insert_ne in Hops by congruence. exact (Hok r Hr ops Hops).
Qed.

Lemma good_set_slots k R ex st s : Good k R ex st -> Good k R ex (set_slots st s).
Proof. intros [HC Hok Hs Hw]. constructor; [eapply core_same; [exact HC|reflexivity|reflexivity]|assumption..]. Qed.

Lemma collectStep_good k R fuel noQubit arr st p op st' p' :
  (forall l, Permutation (arrangeBlocks arr l) l) ->
  (forall l, Permutation (arrangeSavings arr l) l) ->
  Good k R noex st -> collectStep fuel k noQubit arr st p op = Ok (st', p') ->
  exists R', Good k R' noex st'.
Proof.
  intros Hpb Hps HG H. unfold collectStep in H. cbv zeta in H.
  remember (getUsedQubits op) as U eqn:HUe.
  destruct (negb (isUnitary op)).
  - destruct (res_fold_st (fun s q => finalizeBlock fuel s q) U st) as [s1|e] eqn:Hf;
      cbn [res_bind] in H; [|discriminate]. injection H as <- <-.
    apply (res_fold_left_inv (fun s => exists R, Good k R noex s)) in Hf; [exact Hf| |exists R; exact HG].
    intros s0 s1' x [R0 HG0] Hx. exact (finalize_good k R0 fuel s0 x s1' HG0 Hx).
  - destruct (findBlocks fuel st U []) as [[st1 B]|e] eqn:Hfb; cbn [res_bind] in H; [|discriminate].
    destruct (findBlocks_good k R noex fuel st U [] st1 B HG Hfb)
      as (R1 & HG1 & _ & Hdom1 & HB & _ & _).
    assert (HD1 : forall q, q ∈ U -> is_Some (parent st1 !! q)) by (intros q Hq; apply Hdom1; left; exact Hq).
    destruct (if k <? sum_list (map (fun b => length (getBits st1 b)) B)
              then shrinkBlocks fuel k arr st1 U else Ok st1) as [st2|e] eqn:Hs2;
      cbn [res_bind] in H; [|discriminate].
    assert (H2 : exists R2, Good k R2 noex st2 /\
              (length U <= k -> (forall q, q ∈ U -> is_Some (parent st2 !! q)) /\ size (Wset R2 st2 U) <= k)).
    { destruct (k <? sum_list (map (fun b => length (getBits st1 b)) B)) eqn:Ht.
      - exact (shrink_spec k R1 fuel arr st1 U st2 Hpb Hps HG1 HD1 Hs2).
      - injection Hs2 as <-. exists R1. split; [exact HG1|]. intros _. split; [exact HD1|].
        apply Nat.ltb_ge in Ht. etransitivity; [apply W_le_sum, HB|exact Ht]. }
    clear Hs2. destruct H2 as (R2 & HG2 & HW2).
    destruct (k <? length U) eqn:Hk; [injection H as <- <-; exists R2; exact HG2|].
    apply Nat.ltb_ge in Hk. destruct (HW2 Hk) as [HD2 HWk]. clear HW2.
    destruct (match U with [] => Ok (st2, noQubit) | q :: qs => unionAll fuel st2 q qs end)
      as [[st3 prev]|e] eqn:Hu3; cbn [res_bind] in H; [|discriminate].
    assert (H3 : exists R3 (ex3 : nat -> Prop), Good k R3 ex3 st3 /\
              (forall r, ex3 r -> is_Some (parent st3 !! prev) /\ r = R3 prev) /\
              (forall y, y ∈ U -> is_Some (parent st3 !! y) /\ R3 y = R3 prev) /\
              (U = [] \/ (is_Some (parent st3 !! prev) /\ length (getBits st3 (R3 prev)) <= k))).
    { destruct U as [|q qs].
      - injection Hu3 as <- <-. exists R2, noex. split; [exact HG2|].
        split; [intros r []|]. split; [intros y Hy; apply elem_of_nil in Hy; contradiction|left; reflexivity].
      - assert (HG2' : Good k R2 (fun r => r = R2 q) st2) by (eapply good_ex_mono; [exact HG2|intros r _ []]).
        destruct (unionAll_spec k R2 fuel (Wset R2 st2 (q :: qs)) st2 q qs st3 prev HG2')
          as (R3 & HG3 & HD3 & _ & Hall & HWf & Hin); [| exact HWk | exact Hu3 |].
        { intros x Hx. split; [exact (HD2 x Hx)|]. intros y Hy. apply elem_of_list_to_set in Hy.
          apply elem_of_Wset. exists x. split; assumption. }
        exists R3, (fun r => r = R3 prev). split; [exact HG3|].
        assert (Hp3 : is_Some (parent st3 !! prev)) by (apply HD3, HD2, Hin).
        split; [intros r ->; split; [exact Hp3|reflexivity]|].
        split; [intros y Hy; split; [apply HD3, HD2, Hy|exact (Hall y Hy)]|].
        right. split; [exact Hp3|]. etransitivity; [|exact HWk]. apply length_le_set; [|exact HWf].
        exact (core_nodup _ _ (good_core _ _ _ _ HG3) _ (core_root _ _ (good_core _ _ _ _ HG3) _ Hp3)). }
    destruct H3 as (R3 & ex3 & HG3 & Hex3 & HU3 & Hlen3).
    destruct (findBlock fuel st3 prev) as [[st4 block]|e] eqn:Hf4; cbn [res_bind] in H; [|discriminate].
    destruct (findBlock_spec k R3 ex3 fuel st3 prev st4 block HG3 Hf4)
      as (R4 & HG4 & -> & Hext4 & Hdom4 & Hkeep4).
    pose proof (good_core _ _ _ _ HG4) as HC4.
    assert (Hr4 : parent st4 !! R4 prev = Some (R4 prev)) by (apply (core_root _ _ HC4), Hdom4; left; reflexivity).
    assert (HG4' : Good k R4 (fun r => r = R4 prev) st4).
    { eapply good_ex_mono; [exact HG4|]. intros r _ Hr. destruct (Hex3 r Hr) as [Hp ->]. symmetry; apply Hext4, Hp. }
    assert (HU4 : forall y, y ∈ U -> y ∈ getBits st4 (R4 prev)).
    { intros y Hy. destruct (HU3 y Hy) as [Hy3 Ey]. apply (core_bits _ _ HC4 _ Hr4). split.
      - apply Hdom4. right. exact Hy3.
      - rewrite (Hext4 y Hy3). destruct Hlen3 as [->|[Hp _]]; [apply elem_of_nil in Hy; contradiction|].
        rewrite (Hext4 prev Hp). exact Ey. }
    assert (Hlen4 : length (getBits st4 (R4 prev)) <= k \/ U = []).
    { destruct Hlen3 as [->|[Hp Hl]]; [right; reflexivity|left].
      rewrite (Hext4 prev Hp).
      destruct (Hkeep4 (R3 prev) (core_root _ _ (good_core _ _ _ _ HG3) _ Hp)) as (_ & -> & _). exact Hl. }
    unfold blockEmpty in H.
    destruct (findBlock fuel st4 (R4 prev)) as [[st5 b5]|e] eqn:Hf5; cbn [res_bind] in H; [|discriminate].
    destruct (findBlock_root_pair k R4 _ fuel st4 (R4 prev) st5 b5 HG4' ltac:(eexists; exact Hr4) Hf5)
      as (Eb5 & HG5 & _ & Hk5 & Ebits5 & Eanc5 & Ebody5 & _).
    rewrite (core_self _ _ HC4 _ Hr4) in Eb5. subst b5.
    destruct (Hk5 _ Hr4) as (Hr5 & _ & _).
    assert (HG6 : forall empty, empty = match getAnchor st5 (R4 prev) with None => true | Some _ => false end ->
              Good k R4 noex (if empty then set_anchor st5 (<[R4 prev := Some p]> (currentBlockInCircuit st5)) else st5)).
    { intros empty ->. destruct (getAnchor st5 (R4 prev)) eqn:Ea.
      - eapply good_unexempt; [|rewrite Ea; discriminate].
        eapply good_ex_mono; [exact HG5|]. intros r _ Hr. left. exact Hr.
      - apply good_set_anchor; assumption. }
    specialize (HG6 _ eq_refl).
    set (st6 := if match getAnchor st5 (R4 prev) with None => true | Some _ => false end
                then set_anchor st5 (<[R4 prev := Some p]> (currentBlockInCircuit st5)) else st5) in *.
    destruct (getBody st6 (R4 prev)) as [body|e] eqn:Hb6; cbn [res_bind] in H; [|discriminate].
    assert (Hr6 : parent st6 !! R4 prev = Some (R4 prev)) by (subst st6; destruct (getAnchor st5 (R4 prev)); exact Hr5).
    assert (Hbits6 : getBits st6 (R4 prev) = getBits st4 (R4 prev))
      by (rewrite <- Ebits5; subst st6; destruct (getAnchor st5 (R4 prev)); reflexivity).
    pose proof (good_append k R4 st6 (R4 prev) body op HG6 Hr6 Hb6) as HG7.
    rewrite Hbits6, <- HUe in HG7. specialize (HG7 HU4 ltac:(destruct Hlen4; [left|right]; assumption)).
    destruct (match getAnchor st5 (R4 prev) with None => true | Some _ => false end);
      injection H as <- <-; exists R4; apply good_set_slots, HG7.
Qed.

Lemma collectLoop_good k R n fuel noQubit arr st p st' :
  (forall l, Permutation (arrangeBlocks arr l) l) ->
  (forall l, Permutation (arrangeSavings arr l) l) ->
  Good k R noex st -> collectLoop n fuel k noQubit arr st p = Ok st' ->
  exists R', Good k R' noex st'.
Proof.
  intros Hpb Hps. revert R st p. induction n as [|n IH]; intros R st p HG H; simpl in H; [discriminate|].
  destruct (slots st !! p) as [[op|]|]; [|discriminate|injection H as <-; exists R; exact HG].
  destruct (collectStep fuel k noQubit arr st p op) as [[st1 p1]|e] eqn:Hs; cbn [res_bind] in H; [|discriminate].
  destruct (collectStep_good k R fuel noQubit arr st p op st1 p1 Hpb Hps HG Hs) as (R1 & HG1).
  exact (IH R1 st1 p1 HG1 H).
Qed.

Lemma finalizeRoots_good k R fuel arr st st' :
  Good k R noex st -> finalizeRoots fuel arr st = Ok st' -> exists R', Good k R' noex st'.
Proof.
  intros HG H. unfold finalizeRoots, res_fold_st in H.
  apply (res_fold_left_inv (fun s => exists R, Good k R noex s)) in H; [exact H| |exists R; exact HG].
  intros s0 s1 [q v] [R0 HG0] Hx.
  destruct (parent s0 !! q) as [index|]; [|injection Hx as <-; exists R0; exact HG0].
  destruct (q =? index); [exact (finalize_good k R0 fuel s0 q s1 HG0 Hx)|injection Hx as <-; exists R0; exact HG0].
Qed.

Lemma empty_good k ops : Good k (fun x => x) noex (emptyBlockState ops).
Proof.
  constructor; simpl.
  - constructor; simpl; intros x; rewrite ?lookup_empty.
    + intros p Hp. discriminate.
    + intros [? Hx]. discriminate.
    + intros Hx. discriminate.
    + intros Hx. discriminate.
    + intros Hx. discriminate.
  - intros r Hr. rewrite lookup_empty in Hr. discriminate.
  - intros r Hr. rewrite lookup_empty in Hr. discriminate.
  - constructor.
Qed.

(** C3: for every circuit and every cap [k], when [collectBlocks] completes
    (for any order of the [blocksAndSizes] and [savings] entries), every
    finalized block written back into the circuit, a single operation or a
    Compound, uses at most [k] qubits. *)
Theorem collectBlocks_block_size fuel k noQubit arr qc qc' ws :
  (forall l, Permutation (arrangeBlocks arr l) l) ->
  (forall l, Permutation (arrangeSavings arr l) l) ->
  collectBlocks fuel k noQubit arr qc = Ok (qc', ws) ->
  Forall (fun op => length (getUsedQubits op) <= k) ws.
Proof.
  intros Hpb Hps H. unfold collectBlocks in H.
  destruct (length (qc_ops qc) <=? 1); [injection H as _ <-; constructor|].
  destruct (reorderOperations fuel qc) as [qc1|e]; cbn [res_bind] in H; [|discriminate].
  destruct (deferMeasurements fuel qc1) as [qc2|e]; cbn [res_bind] in H; [|discriminate].
  destruct (collectLoop fuel fuel k noQubit arr (emptyBlockState (qc_ops qc2)) 0) as [st|e] eqn:Hl;
    cbn [res_bind] in H; [|discriminate].
  destruct (collectLoop_good k _ fuel fuel noQubit arr _ 0 st Hpb Hps (empty_good k _) Hl) as (R1 & HG1).
  destruct (finalizeRoots fuel arr st) as [st'|e] eqn:Hf; cbn [res_bind] in H; [|discriminate].
  destruct (finalizeRoots_good k R1 fuel arr st st' HG1 Hf) as (R2 & HG2).
  destruct (all_slots (slots st')) as [ops|e]; cbn [res_bind] in H; [|discriminate].
  injection H as _ <-. exact (good_written _ _ _ _ HG2).
Qed.

(** C3, witness: [H 0; CNOT 0 -> 1; H 1; CNOT 1 -> 2; H 2] with [k = 2] is
    collected into two blocks, on qubits 0, 1 and on qubits 1, 2. *)
Lemma collectBlocks_block_size_witness :
  let arr := mkArrangement (fun l => l) (fun l => l) (fun l => l) in
  let qc := mkQC [hadamard 0; cnot 0 1; hadamard 1; cnot 1 2; hadamard 2]
              [(0, 0); (1, 1); (2, 2)] in
  let blocks := [CompoundOperation [hadamard 0; cnot 0 1; hadamard 1];
              CompoundOperation [cnot 1 2; hadamard 2]] in
  collectBlocks 50 2 65535 arr qc = Ok (mkQC blocks [(0, 0); (1, 1); (2, 2)], blocks) /\
  Forall (fun op => length (getUsedQubits op) <= 2) blocks.
Proof.
  intros arr qc blocks.
  assert (H : collectBlocks 50 2 65535 arr qc = Ok (mkQC blocks [(0, 0); (1, 1); (2, 2)], blocks))
    by (vm_compute; reflexivity).
  split; [exact H|].
  exact (collectBlocks_block_size 50 2 65535 arr qc _ _
           (fun l => Permutation_refl l) (fun l => Permutation_refl l) H).
Defined.

Lemma opsSize_app l1 l2 : opsSize (l1 ++ l2) = opsSize l1 + opsSize l2.
Proof.
  unfold opsSize, sum_list. rewrite map_app, fold_right_app.
  induction l1 as [|x l1 IH]; simpl; [reflexivity|]. rewrite IH. lia.
Qed.

Lemma flattenLoop_ok fuel ops it :
  opsSize (drop it ops) < fuel ->
  flattenLoop fuel ops it = Ok (take it ops ++ concat (map flattenOp (drop it ops))).
Proof.
  revert ops it. induction fuel as [|f IH]; intros ops it Hf; [lia|]. simpl.
  destruct (ops !! it) as [op|] eqn:Hit.
  - pose proof (drop_S _ _ _ Hit) as Hd. rewrite Hd in Hf |- *.
    assert (Hlt : it < length ops) by (apply lookup_lt_is_Some; eexists; exact Hit).
    destruct op as [ty cs ts|ty ts qs cls|cops|o reg v]; simpl.
    4: { rewrite IH; [|unfold opsSize in *; simpl in Hf; lia].
         rewrite (take_S_r _ _ _ Hit), <- app_assoc. reflexivity. }
    1: { rewrite IH; [|unfold opsSize in *; simpl in Hf; lia].
         rewrite (take_S_r _ _ _ Hit), <- app_assoc. reflexivity. }
    1: { rewrite IH; [|unfold opsSize in *; simpl in Hf; lia].
         rewrite (take_S_r _ _ _ Hit), <- app_assoc. reflexivity. }
    unfold flattenCompoundOperation. rewrite Hit. cbn [res_bind fst snd].
    assert (Ht : take it (take it ops ++ cops ++ drop (S it) ops) = take it ops).
    { rewrite take_app_length'; [reflexivity|]. rewrite length_take. lia. }
    assert (Hdr : drop it (take it ops ++ cops ++ drop (S it) ops) = cops ++ drop (S it) ops).
    { rewrite drop_app_length'; [reflexivity|]. rewrite length_take. lia. }
    rewrite IH; rewrite ?Ht, ?Hdr.
    + rewrite map_app, concat_app. reflexivity.
    + rewrite opsSize_app. unfold opsSize in *. simpl in Hf. lia.
  - rewrite drop_ge by (apply lookup_ge_None; exact Hit). rewrite take_ge by (apply lookup_ge_None; exact Hit).
    simpl. rewrite app_nil_r. reflexivity.
Qed.

(** Induction on operations, through the children of a Compound. *)
Lemma Operation_ind' (P : Operation -> Prop) :
  (forall ty cs ts, P (StandardOperation ty cs ts)) ->
  (forall ty ts qs cls, P (NonUnitaryOperation ty ts qs cls)) ->
  (forall ops, Forall P ops -> P (CompoundOperation ops)) ->
  (forall o reg v, P o -> P (ClassicControlledOperation o reg v)) ->
  forall op, P op.
Proof.
  intros H1 H2 H3 H4. fix IH 1. intros [ty cs ts|ty ts qs cls|ops|o reg v].
  - apply H1.
  - apply H2.
  - apply H3. refine ((fix go (l : list Operation) : Forall P l :=
                         match l with [] => @List.Forall_nil _ P | o :: l' => @List.Forall_cons _ P o l' (IH o) (go l') end) ops).
  - apply H4, IH.
Qed.

Lemma flattenOp_flat op : Forall (fun o => isCompoundOperation o = false) (flattenOp op).
Proof.
  induction op as [ty cs ts|ty ts qs cls|cops IH|o reg v IHo] using Operation_ind'; simpl; auto.
  apply Forall_concat, Forall_map. exact IH.
Qed.

(** flattenOperations: with enough iterations, the pass returns the
    circuit whose operations are the leaves of the operation trees, in
    order, and none of them is a Compound. *)
Lemma flattenOperations_flattens fuel qc :
  opsSize (qc_ops qc) < fuel ->
  flattenOperations fuel qc = Ok (with_ops qc (concat (map flattenOp (qc_ops qc)))) /\
  Forall (fun o => isCompoundOperation o = false) (concat (map flattenOp (qc_ops qc))).
Proof.
  intros Hf. split.
  - unfold flattenOperations. rewrite flattenLoop_ok by (rewrite drop_0; exact Hf).
    rewrite take_0, drop_0. reflexivity.
  - apply Forall_concat, Forall_map, Forall_forall. intros o _. apply flattenOp_flat.
Qed.

Lemma flattenOperations_flattens_witness :
  let qc := mkQC [CompoundOperation [hadamard 0; CompoundOperation [cnot 0 1]; CompoundOperation []];
                  hadamard 1] [(0, 0); (1, 1)] in
  opsSize (qc_ops qc) < 7 /\
  flattenOperations 7 qc = Ok (mkQC [hadamard 0; cnot 0 1; hadamard 1] [(0, 0); (1, 1)]).
Proof.
  intros qc. assert (H : opsSize (qc_ops qc) < 7) by (vm_compute; lia).
  split; [exact H|]. exact (proj1 (flattenOperations_flattens 7 qc H)).
Defined.

Lemma res_concat_map_ok {A B} (f : A -> Result (list B)) l :
  Forall (fun a => exists r, f a = Ok r) l -> exists r, res_concat_map f l = Ok r.
Proof.
  induction 1 as [|a l [r Hr] _ [r' Hr']]; [exists []; reflexivity|].
  simpl. rewrite Hr. cbn [res_bind]. rewrite Hr'. eexists; reflexivity.
Qed.

Lemma res_concat_map_inv {A B} (P : B -> Prop) (f : A -> Result (list B)) l r :
  (forall a r, a ∈ l -> f a = Ok r -> Forall P r) ->
  res_concat_map f l = Ok r -> Forall P r.
Proof.
  revert r. induction l as [|a l IH]; intros r Hf H; simpl in H.
  - injection H as <-. constructor.
  - destruct (f a) as [x|e] eqn:Ea; cbn [res_bind] in H; [|discriminate].
    destruct (res_concat_map f l) as [y|e] eqn:El; cbn [res_bind] in H; [|discriminate].
    injection H as <-. apply Forall_app. split.
    + apply (Hf a); [left|exact Ea].
    + apply IH; [|reflexivity]. intros a' r' Ha'. apply Hf. right. exact Ha'.
Qed.

Lemma replaceMCXOp_keep op :
  isMCX op = false -> isCompoundOperation op = false -> replaceMCXOp op = Ok [op].
Proof.
  intros H Hc. destruct op; cbn [replaceMCXOp]; unfold isMCX in H; rewrite H;
    [reflexivity|reflexivity|discriminate|reflexivity].
Qed.

Lemma isMCX_nonunitary ty ts qs cls : isMCX (NonUnitaryOperation ty ts qs cls) = false.
Proof. unfold isMCX. cbn. apply andb_false_r. Qed.

Lemma isMCX_classic o reg v : isMCX (ClassicControlledOperation o reg v) = false.
Proof. reflexivity. Qed.

Lemma replaceMCXOp_spec op :
  mcxOneTarget op = true ->
  exists r, replaceMCXOp op = Ok r /\ Forall (fun o => mcxFree o = true) r.
Proof.
  induction op as [ty cs ts|ty ts qs cls|cops IH|o reg v _] using Operation_ind'; intros Hw.
  - cbn [mcxOneTarget] in Hw. unfold isMCX in Hw. cbn [replaceMCXOp].
    destruct (bool_decide (getType (StandardOperation ty cs ts) = OpType.X) &&
              (0 <? getNcontrols (StandardOperation ty cs ts))) eqn:E.
    + cbn [negb orb getTargets] in Hw.
      apply Nat.eqb_eq in Hw. destruct ts as [|t ts]; [discriminate|].
      eexists. split; [reflexivity|]. repeat constructor.
    + eexists. split; [reflexivity|]. repeat constructor. cbn [mcxFree]. unfold isMCX. rewrite E. reflexivity.
  - rewrite replaceMCXOp_keep by (apply isMCX_nonunitary || reflexivity).
    eexists. split; [reflexivity|]. repeat constructor. apply (f_equal negb (isMCX_nonunitary ty ts qs cls)).
  - simpl in Hw. rewrite forallb_forall in Hw.
    assert (Hok : exists r, res_concat_map replaceMCXOp cops = Ok r /\ Forall (fun o => mcxFree o = true) r).
    { destruct (res_concat_map_ok replaceMCXOp cops) as [r Hr].
      - rewrite Forall_forall in IH |- *. intros o Ho.
        destruct (IH o Ho) as (r & Hr & _); [apply Hw, list_elem_of_In, Ho|]. exists r. exact Hr.
      - exists r. split; [exact Hr|]. apply (res_concat_map_inv _ replaceMCXOp cops r); [|exact Hr].
        intros o r' Ho Hr'. rewrite Forall_forall in IH.
        destruct (IH o Ho) as (r'' & Hr'' & HF); [apply Hw, list_elem_of_In, Ho|].
        congruence. }
    destruct Hok as (r & Hr & HF). simpl. rewrite Hr. cbn [res_bind].
    eexists. split; [reflexivity|]. constructor; [|constructor]. simpl.
    apply forallb_forall. intros o Ho. rewrite Forall_forall in HF. apply HF, list_elem_of_In, Ho.
  - rewrite replaceMCXOp_keep by reflexivity.
    eexists. split; [reflexivity|]. repeat constructor.
Qed.

(** replaceMCXWithMCZ: when every X with controls has one target, the
    pass succeeds and leaves no X with controls, neither at the top level
    nor inside (nested) Compounds. *)
Lemma replaceMCXWithMCZ_no_mcx qc :
  Forall (fun o => mcxOneTarget o = true) (qc_ops qc) ->
  exists qc', replaceMCXWithMCZ qc = Ok qc' /\ initialLayout qc' = initialLayout qc /\
    Forall (fun o => mcxFree o = true) (qc_ops qc').
Proof.
  intros Hw. unfold replaceMCXWithMCZ.
  destruct (res_concat_map_ok replaceMCXOp (qc_ops qc)) as [r Hr].
  - eapply Forall_impl; [exact Hw|]. intros o Ho.
    destruct (replaceMCXOp_spec o Ho) as (r & Hr & _). exists r. exact Hr.
  - rewrite Hr. cbn [res_bind]. eexists. split; [reflexivity|]. split; [reflexivity|].
    apply (res_concat_map_inv _ replaceMCXOp (qc_ops qc) r); [|exact Hr].
    intros o r' Ho Hr'. rewrite Forall_forall in Hw.
    destruct (replaceMCXOp_spec o (Hw o Ho)) as (r'' & Hr'' & HF). congruence.
Qed.

Lemma res_concat_map_id {A} (f : A -> Result (list A)) l :
  (forall a, a ∈ l -> f a = Ok [a]) -> res_concat_map f l = Ok l.
Proof.
  induction l as [|a l IH]; intros H; [reflexivity|]. simpl.
  rewrite (H a ltac:(left)). cbn [res_bind]. rewrite IH; [reflexivity|].
  intros b Hb. apply H. right. exact Hb.
Qed.

Lemma replaceMCXOp_free op : mcxFree op = true -> replaceMCXOp op = Ok [op].
Proof.
  induction op as [ty cs ts|ty ts qs cls|cops IH|o reg v _] using Operation_ind'; intros Hf.
  - apply replaceMCXOp_keep; [|reflexivity]. simpl in Hf. destruct (isMCX _); [discriminate|reflexivity].
  - apply replaceMCXOp_keep; [apply isMCX_nonunitary|reflexivity].
  - cbn [replaceMCXOp]. assert (E : isMCX (CompoundOperation cops) = false) by reflexivity.
    unfold isMCX in E. rewrite E. rewrite res_concat_map_id; [reflexivity|].
    intros o Ho. rewrite Forall_forall in IH. apply IH; [exact Ho|].
    simpl in Hf. rewrite forallb_forall in Hf. apply Hf, list_elem_of_In, Ho.
  - apply replaceMCXOp_keep; reflexivity.
Qed.

(** replaceMCXWithMCZ: a circuit without X with controls (at any depth)
    is returned unchanged. *)
Lemma replaceMCXWithMCZ_identity qc :
  Forall (fun o => mcxFree o = true) (qc_ops qc) -> replaceMCXWithMCZ qc = Ok qc.
Proof.
  intros Hf. unfold replaceMCXWithMCZ. rewrite res_concat_map_id.
  - destruct qc. reflexivity.
  - intros o Ho. rewrite Forall_forall in Hf. apply replaceMCXOp_free, Hf, Ho.
Qed.

Lemma replaceMCXWithMCZ_identity_witness :
  let qc := mkQC [StandardOperation OpType.X [] [1];
                  CompoundOperation [hadamard 0; StandardOperation OpType.Z [mkControl 1 Neg] [0]]]
                 [(0, 0); (1, 1)] in
  Forall (fun o => mcxFree o = true) (qc_ops qc) /\
  replaceMCXWithMCZ qc = Ok qc.
Proof.
  intros qc. assert (H : Forall (fun o => mcxFree o = true) (qc_ops qc)).
  { repeat constructor. }
  split; [exact H|]. exact (replaceMCXWithMCZ_identity qc H).
Defined.

Lemma replaceMCXWithMCZ_no_mcx_witness :
  let qc := mkQC [cnot 0 1; CompoundOperation [StandardOperation OpType.X
                    [mkControl 0 Pos; mkControl 1 Neg] [2]]] [(0, 0); (1, 1); (2, 2)] in
  Forall (fun o => mcxOneTarget o = true) (qc_ops qc) /\
  exists qc', replaceMCXWithMCZ qc = Ok qc' /\ initialLayout qc' = initialLayout qc /\
    Forall (fun o => mcxFree o = true) (qc_ops qc').
Proof.
  intros qc. assert (H : Forall (fun o => mcxOneTarget o = true) (qc_ops qc)) by (repeat constructor).
  split; [exact H|]. exact (replaceMCXWithMCZ_no_mcx qc H).
Defined.

Lemma res_concat_map_exists {A B} (f : A -> Result (list B)) (Q : B -> Prop) (Q' : A -> Prop) l r :
  (forall a r', a ∈ l -> f a = Ok r' -> ((exists o, o ∈ r' /\ Q o) <-> Q' a)) ->
  res_concat_map f l = Ok r -> ((exists o, o ∈ r /\ Q o) <-> exists a, a ∈ l /\ Q' a).
Proof.
  revert r. induction l as [|a l IH]; intros r Hf H; simpl in H.
  - injection H as <-. split; intros (x & Hx & _); apply elem_of_nil in Hx; contradiction.
  - destruct (f a) as [x|e] eqn:Ea; cbn [res_bind] in H; [|discriminate].
    destruct (res_concat_map f l) as [y|e] eqn:El; cbn [res_bind] in H; [|discriminate].
    injection H as <-.
    specialize (IH y (fun a' r' Ha' => Hf a' r' ltac:(right; exact Ha')) eq_refl).
    specialize (Hf a x ltac:(left) Ea).
    split.
    + intros (o & Ho & HQ). apply elem_of_app in Ho as [Ho|Ho].
      * exists a. split; [left|]. apply Hf. exists o. split; assumption.
      * destruct (proj1 IH (ex_intro _ o (conj Ho HQ))) as (a' & Ha' & HQ').
        exists a'. split; [right; exact Ha'|exact HQ'].
    + intros (a' & Ha' & HQ'). apply elem_of_cons in Ha' as [->|Ha'].
      * destruct (proj2 Hf HQ') as (o & Ho & HQ). exists o. split; [apply elem_of_app; left; exact Ho|exact HQ].
      * destruct (proj2 IH (ex_intro _ a' (conj Ha' HQ'))) as (o & Ho & HQ).
        exists o. split; [apply elem_of_app; right; exact Ho|exact HQ].
Qed.

Lemma replaceMCXOp_used op r :
  mcxOneTarget op = true -> replaceMCXOp op = Ok r ->
  forall y, (exists o, o ∈ r /\ y ∈ getUsedQubits o) <-> y ∈ getUsedQubits op.
Proof.
  revert r. induction op as [ty cs ts|ty ts qs cls|cops IH|o reg v _] using Operation_ind'; intros r Hw H y.
  - cbn [mcxOneTarget] in Hw. unfold isMCX in Hw. cbn [replaceMCXOp] in H.
    destruct (bool_decide (getType (StandardOperation ty cs ts) = OpType.X) &&
              (0 <? getNcontrols (StandardOperation ty cs ts))) eqn:E.
    + cbn [negb orb getTargets] in Hw. apply Nat.eqb_eq in Hw.
      destruct ts as [|t [|t' ts]]; try discriminate. cbn [getTargets getControls] in H.
      injection H as <-. cbn [getUsedQubits getControls getTargets].
      rewrite to_set_elem. split.
      * intros (o & Ho & Hy). repeat (apply elem_of_cons in Ho as [->|Ho]); [..|apply elem_of_nil in Ho; contradiction];
          cbn [getUsedQubits getControls getTargets map app] in Hy; rewrite to_set_elem in Hy;
          rewrite elem_of_app; set_solver.
      * rewrite elem_of_app. intros [Hy|Hy].
        -- exists (StandardOperation OpType.Z cs [t]). split; [right; left|].
           cbn [getUsedQubits getControls getTargets]. rewrite to_set_elem, elem_of_app. left; exact Hy.
        -- exists (StandardOperation OpType.H [] [t]). split; [left|].
           cbn [getUsedQubits getControls getTargets map app]. rewrite to_set_elem. exact Hy.
    + injection H as <-. split; [intros (o & Ho & Hy); apply list_elem_of_singleton in Ho; subst; exact Hy|].
      intros Hy. exists (StandardOperation ty cs ts). split; [left|exact Hy].
  - rewrite replaceMCXOp_keep in H by (apply isMCX_nonunitary || reflexivity). injection H as <-.
    split; [intros (o & Ho & Hy); apply list_elem_of_singleton in Ho; subst; exact Hy|].
    intros Hy. eexists. split; [left|exact Hy].
  - cbn [replaceMCXOp] in H. assert (E : isMCX (CompoundOperation cops) = false) by reflexivity.
    unfold isMCX in E. rewrite E in H.
    destruct (res_concat_map replaceMCXOp cops) as [cops'|e] eqn:Ec; cbn [res_bind] in H; [|discriminate].
    injection H as <-. rewrite usedQubits_compound. split.
    + intros (o & Ho & Hy). apply list_elem_of_singleton in Ho. subst o.
      apply usedQubits_compound in Hy.
      apply (res_concat_map_exists replaceMCXOp (fun o => y ∈ getUsedQubits o) (fun o => y ∈ getUsedQubits o) cops cops'); [|exact Ec|exact Hy].
      intros a r' Ha Hr'. rewrite Forall_forall in IH. apply (IH a Ha); [|exact Hr'].
      simpl in Hw. rewrite forallb_forall in Hw. apply Hw, list_elem_of_In, Ha.
    + intros Hy. exists (CompoundOperation cops'). split; [left|]. apply usedQubits_compound.
      apply (res_concat_map_exists replaceMCXOp (fun o => y ∈ getUsedQubits o) (fun o => y ∈ getUsedQubits o) cops cops'); [|exact Ec|exact Hy].
      intros a r' Ha Hr'. rewrite Forall_forall in IH. apply (IH a Ha); [|exact Hr'].
      simpl in Hw. rewrite forallb_forall in Hw. apply Hw, list_elem_of_In, Ha.
  - rewrite replaceMCXOp_keep in H by reflexivity. injection H as <-.
    split; [intros (o' & Ho & Hy); apply list_elem_of_singleton in Ho; subst; exact Hy|].
    intros Hy. eexists. split; [left|exact Hy].
Qed.

(** replaceMCXWithMCZ: when every X with controls has one target, the
    qubits used by the circuit's operations are the same before and after
    the pass. *)
Lemma replaceMCXWithMCZ_used_qubits qc qc' :
  Forall (fun o => mcxOneTarget o = true) (qc_ops qc) ->
  replaceMCXWithMCZ qc = Ok qc' ->
  forall y, (exists o, o ∈ qc_ops qc' /\ y ∈ getUsedQubits o) <->
            (exists o, o ∈ qc_ops qc /\ y ∈ getUsedQubits o).
Proof.
  intros Hw H y. unfold replaceMCXWithMCZ in H.
  destruct (res_concat_map replaceMCXOp (qc_ops qc)) as [ops|e] eqn:E; cbn [res_bind] in H; [|discriminate].
  injection H as <-. cbn [with_ops qc_ops].
  apply (res_concat_map_exists replaceMCXOp (fun o => y ∈ getUsedQubits o) (fun o => y ∈ getUsedQubits o) _ ops); [|exact E].
  intros a r' Ha Hr'. rewrite Forall_forall in Hw. exact (replaceMCXOp_used a r' (Hw a Ha) Hr' y).
Qed.

Lemma replaceMCXWithMCZ_used_qubits_witness :
  let qc := mkQC [CompoundOperation [cnot 0 1]; hadamard 2] [(0, 0); (1, 1); (2, 2)] in
  let qc' := mkQC [CompoundOperation [hadamard 1; StandardOperation OpType.Z [mkControl 0 Pos] [1];
                                      hadamard 1]; hadamard 2] [(0, 0); (1, 1); (2, 2)] in
  Forall (fun o => mcxOneTarget o = true) (qc_ops qc) /\ replaceMCXWithMCZ qc = Ok qc' /\
  ((exists o, o ∈ qc_ops qc' /\ 0 ∈ getUsedQubits o) <-> (exists o, o ∈ qc_ops qc /\ 0 ∈ getUsedQubits o)).
Proof.
  intros qc qc'. assert (Hw : Forall (fun o => mcxOneTarget o = true) (qc_ops qc)) by (repeat constructor).
  assert (H : replaceMCXWithMCZ qc = Ok qc') by reflexivity.
  split; [exact Hw|]. split; [exact H|]. exact (replaceMCXWithMCZ_used_qubits qc qc' Hw H 0).
Defined.

Lemma measurementSet_empty qs cs :
  length qs = length cs ->
  measurementSet ∅ qs cs = Ok (list_to_set (zip qs cs)).
Proof.
  revert cs. induction qs as [|q qs IH]; intros [|c cs] Hl; try discriminate; [reflexivity|].
  cbn [measurementSet]. rewrite decide_True by reflexivity. cbn [res_bind].
  rewrite IH by (simpl in Hl; lia). reflexivity.
Qed.

Lemma measurementSet_missing perm qs cs q :
  perm <> ∅ -> length qs = length cs -> q ∈ qs -> perm !! q = None ->
  measurementSet perm qs cs = Err OutOfRange.
Proof.
  intros Hne. revert cs. induction qs as [|q0 qs IH]; intros [|c cs] Hl Hq Hn; try discriminate.
  - apply elem_of_nil in Hq. contradiction.
  - cbn [measurementSet]. rewrite decide_False by exact Hne. unfold permAt.
    apply elem_of_cons in Hq as [->|Hq].
    + rewrite Hn. reflexivity.
    + destruct (perm !! q0); cbn [res_bind]; [|reflexivity].
      rewrite (IH cs) by (simpl in Hl; lia || assumption). reflexivity.
Qed.

(** NonUnitaryOperation::equals on two measurements of the same number of
    qubits, compared without permutations: they are equal exactly when they
    measure the same set of (qubit, classical bit) pairs, whatever the order
    and repetitions of the pairs. *)
Theorem nonUnitaryEquals_measure_pairs operationEquals ts1 qs1 cs1 ts2 qs2 cs2 :
  length qs1 = length cs1 -> length qs2 = length cs2 -> length qs1 = length qs2 ->
  (nonUnitaryEquals operationEquals OpType.Measure ts1 qs1 cs1
     (NonUnitaryOperation OpType.Measure ts2 qs2 cs2) ∅ ∅ = Ok true <->
   forall q c, (q, c) ∈ zip qs1 cs1 <-> (q, c) ∈ zip qs2 cs2).
Proof.
  intros H1 H2 H12. unfold nonUnitaryEquals.
  rewrite bool_decide_eq_true_2 by reflexivity. cbn [negb].
  rewrite H12, Nat.eqb_refl. cbn [negb].
  rewrite measurementSet_empty by exact H1. cbn [res_bind].
  rewrite measurementSet_empty by exact H2. cbn [res_bind].
  split.
  - intros H q c. injection H as H. apply bool_decide_eq_true in H.
    rewrite <- !(elem_of_list_to_set (C:=gset (nat * nat))), H. reflexivity.
  - intros H. f_equal. apply bool_decide_eq_true. apply set_eq. intros [q c].
    rewrite !elem_of_list_to_set. apply H.
Qed.

Lemma nonUnitaryEquals_measure_pairs_witness :
  length [0; 1; 0] = length [5; 6; 5] /\ length [1; 0; 1] = length [6; 5; 6] /\
  length [0; 1; 0] = length [1; 0; 1] /\
  nonUnitaryEquals (fun _ _ _ _ => false) OpType.Measure [] [0; 1; 0] [5; 6; 5]
    (NonUnitaryOperation OpType.Measure [] [1; 0; 1] [6; 5; 6]) ∅ ∅ = Ok true /\
  (nonUnitaryEquals (fun _ _ _ _ => false) OpType.Measure [] [0; 1; 0] [5; 6; 5]
    (NonUnitaryOperation OpType.Measure [] [1; 0; 1] [6; 5; 6]) ∅ ∅ = Ok true <->
   forall q c, (q, c) ∈ zip [0; 1; 0] [5; 6; 5] <-> (q, c) ∈ zip [1; 0; 1] [6; 5; 6]).
Proof.
  split; [reflexivity|]. split; [reflexivity|]. split; [reflexivity|].
  split; [vm_compute; reflexivity|].
  exact (nonUnitaryEquals_measure_pairs (fun _ _ _ _ => false) [] [0; 1; 0] [5; 6; 5] []
           [1; 0; 1] [6; 5; 6] eq_refl eq_refl eq_refl).
Defined.

(** NonUnitaryOperation::equals on two measurements of the same number of
    qubits, with a non-empty first permutation that has no entry for one of
    the qubits the first measurement measures: the lookup [perm1.at] throws,
    std::out_of_range. *)
Theorem nonUnitaryEquals_measure_missing_key operationEquals ts1 qs1 cs1 ts2 qs2 cs2 perm1 perm2 q :
  perm1 <> ∅ -> length qs1 = length cs1 -> length qs1 = length qs2 ->
  q ∈ qs1 -> perm1 !! q = None ->
  nonUnitaryEquals operationEquals OpType.Measure ts1 qs1 cs1
    (NonUnitaryOperation OpType.Measure ts2 qs2 cs2) perm1 perm2 = Err OutOfRange.
Proof.
  intros Hne H1 H12 Hq Hn. unfold nonUnitaryEquals.
  rewrite bool_decide_eq_true_2 by reflexivity. cbn [negb].
  rewrite H12, Nat.eqb_refl. cbn [negb].
  rewrite (measurementSet_missing perm1 qs1 cs1 q Hne H1 Hq Hn). reflexivity.
Qed.

Lemma nonUnitaryEquals_measure_missing_key_witness :
  ({[0 := 1]} : gmap nat nat) <> ∅ /\ length [0; 2] = length [0; 1] /\
  length [0; 2] = length [0; 1] /\ 2 ∈ [0; 2] /\ ({[0 := 1]} : gmap nat nat) !! 2 = None /\
  nonUnitaryEquals (fun _ _ _ _ => false) OpType.Measure [] [0; 2] [0; 1]
    (NonUnitaryOperation OpType.Measure [] [0; 1] [0; 1]) {[0 := 1]} ∅ = Err OutOfRange.
Proof.
  assert (Hne : ({[0 := 1]} : gmap nat nat) <> ∅) by apply map_non_empty_singleton.
  assert (Hq : 2 ∈ [0; 2]) by (right; left).
  split; [exact Hne|]. split; [reflexivity|]. split; [reflexivity|]. split; [exact Hq|].
  split; [reflexivity|].
  exact (nonUnitaryEquals_measure_missing_key (fun _ _ _ _ => false) [] [0; 2] [0; 1] [] [0; 1]
           [0; 1] {[0 := 1]} ∅ 2 Hne eq_refl eq_refl Hq eq_refl).
Defined.


Lemma size_img_inj (m : gmap nat nat) :
  (forall k1 k2 v, m !! k1 = Some v -> m !! k2 = Some v -> k1 = k2) ->
  size (map_img m : gset nat) = size m.
Proof.
  induction m as [|i x m Hi IH] using map_ind; intros Hinj.
  - rewrite map_img_empty_L, map_size_empty. apply size_empty.
  - rewrite map_img_insert_notin_L by exact Hi.
    rewrite map_size_insert_None by exact Hi.
    rewrite size_union, size_singleton.
    + f_equal. apply IH. intros k1 k2 v H1 H2.
      assert (k1 <> i) by congruence. assert (k2 <> i) by congruence.
      apply (Hinj k1 k2 v); rewrite lookup_insert_ne; auto.
    + intros y Hy Hy'. apply elem_of_singleton in Hy. subst y.
      apply elem_of_map_img in Hy' as [j Hj].
      assert (j <> i) by congruence.
      assert (j = i); [|contradiction].
      apply (Hinj j i x); [rewrite lookup_insert_ne by auto; exact Hj|apply lookup_insert_eq].
Qed.

Lemma bp_size n st : BPInv n st -> size (bp_perm st) + size (bp_missing st) = n.
Proof.
  intros [Hr Hinj Hm].
  assert (Heq : bp_missing st = set_seq 0 n ∖ (map_img (bp_perm st) : gset nat)).
  { apply set_eq. intros v. rewrite Hm, elem_of_difference, elem_of_set_seq.
    split; intros [? ?]; split; auto; lia. }
  assert (Hsub : (map_img (bp_perm st) : gset nat) ⊆ set_seq 0 n).
  { intros v Hv. apply elem_of_map_img in Hv as [k Hk]. apply elem_of_set_seq.
    apply Hr in Hk. lia. }
  rewrite Heq, size_difference by exact Hsub.
  rewrite size_set_seq. pose proof (subseteq_size _ _ Hsub) as Hle.
  rewrite size_set_seq in Hle. rewrite size_img_inj in * by exact Hinj. lia.
Qed.

Lemma bp_missing_nonempty n st t :
  BPInv n st -> t < n -> bp_perm st !! t = None -> bp_missing st <> ∅.
Proof.
  intros HI Ht Hn HM. pose proof (bp_size n st HI) as Hs. rewrite HM, size_empty in Hs.
  assert (Hsub : dom (bp_perm st) ⊂ set_seq 0 n).
  { split.
    - intros k Hk. apply elem_of_dom in Hk as [v Hv]. apply elem_of_set_seq.
      apply (bp_range n st HI) in Hv. lia.
    - intros Hc. assert (Ht' : t ∈ set_seq (C:=gset nat) 0 n) by (apply elem_of_set_seq; lia).
      apply Hc, elem_of_dom in Ht'. rewrite Hn in Ht'. destruct Ht'; discriminate. }
  apply subset_size in Hsub. rewrite size_dom, size_set_seq in Hsub. lia.
Qed.

Lemma takeMissing_ok picks st p :
  (forall k s, s <> ∅ -> picks k s ∈ s) -> bp_missing st <> ∅ ->
  exists v k', takeMissing picks st p = Ok (v, mkBP (bp_perm st) (bp_missing st ∖ {[v]}) k') /\
    v ∈ bp_missing st.
Proof.
  intros Hpick Hne. unfold takeMissing.
  destruct (decide (p ∈ bp_missing st)) as [Hp|Hp].
  - exists p, (bp_picks st). split; [reflexivity|exact Hp].
  - destruct (decide (bp_missing st = ∅)) as [He|_]; [contradiction|].
    eexists _, _. split; [reflexivity|]. apply Hpick, Hne.
Qed.

Lemma bp_inv_extend n st t v k' :
  BPInv n st -> t < n -> bp_perm st !! t = None -> v ∈ bp_missing st ->
  BPInv n (mkBP (<[t:=v]> (bp_perm st)) (bp_missing st ∖ {[v]}) k').
Proof.
  intros [Hr Hinj Hm] Ht Hn Hv. pose proof (proj1 (Hm v) Hv) as [Hvn Hvi].
  split; cbn [bp_perm bp_missing].
  - intros k w Hk. apply lookup_insert_Some in Hk as [[<- <-]|[_ Hk]]; [lia|exact (Hr k w Hk)].
  - intros k1 k2 w H1 H2.
    apply lookup_insert_Some in H1 as [[<- <-]|[Hne1 H1]];
    apply lookup_insert_Some in H2 as [[<- Heq]|[Hne2 H2]]; subst; try reflexivity.
    + exfalso. apply Hvi, elem_of_map_img. eauto.
    + exfalso. apply Hvi, elem_of_map_img. eauto.
    + exact (Hinj k1 k2 w H1 H2).
  - intros w. rewrite elem_of_difference, elem_of_singleton, Hm,
      map_img_insert_notin_L by exact Hn.
    rewrite elem_of_union, elem_of_singleton. tauto.
Qed.

Lemma bp_inv_move n st t0 t1 v0 :
  BPInv n st -> t1 < n -> bp_perm st !! t0 = Some v0 -> bp_perm st !! t1 = None ->
  BPInv n (mkBP (<[t1:=v0]> (delete t0 (bp_perm st))) (bp_missing st) (bp_picks st)).
Proof.
  intros [Hr Hinj Hm] Ht1 H0 H1.
  assert (Himg : forall w, w ∈ (map_img (<[t1:=v0]> (delete t0 (bp_perm st))) : gset nat) <->
                          w ∈ (map_img (bp_perm st) : gset nat)).
  { intros w. rewrite !elem_of_map_img. split.
    - intros [k Hk]. apply lookup_insert_Some in Hk as [[_ <-]|[_ Hk]]; [eauto|].
      apply lookup_delete_Some in Hk as [_ Hk]. eauto.
    - intros [k Hk]. destruct (decide (k = t0)) as [->|Hne].
      + exists t1. rewrite H0 in Hk. injection Hk as <-. apply lookup_insert_eq.
      + exists k. rewrite lookup_insert_ne by congruence. rewrite lookup_delete_ne by congruence.
        exact Hk. }
  split; cbn [bp_perm bp_missing].
  - intros k w Hk. apply lookup_insert_Some in Hk as [[<- <-]|[_ Hk]].
    + split; [lia|]. exact (proj2 (Hr t0 v0 H0)).
    + apply lookup_delete_Some in Hk as [_ Hk]. exact (Hr k w Hk).
  - intros k1 k2 w Hk1 Hk2.
    apply lookup_insert_Some in Hk1 as [[<- <-]|[Hne1 Hk1]];
    apply lookup_insert_Some in Hk2 as [[<- Heq]|[Hne2 Hk2]]; subst; try reflexivity.
    + apply lookup_delete_Some in Hk2 as [Hn2 Hk2]. exfalso. apply Hn2. symmetry. exact (Hinj _ _ _ Hk2 H0).
    + apply lookup_delete_Some in Hk1 as [Hn1 Hk1]. exfalso. apply Hn1. symmetry. exact (Hinj _ _ _ Hk1 H0).
    + apply lookup_delete_Some in Hk1 as [_ Hk1]. apply lookup_delete_Some in Hk2 as [_ Hk2].
      exact (Hinj _ _ _ Hk1 Hk2).
  - intros w. rewrite Hm. rewrite Himg. tauto.
Qed.

Lemma bp_inv_swap n st t0 t1 v0 v1 :
  BPInv n st -> bp_perm st !! t0 = Some v0 -> bp_perm st !! t1 = Some v1 ->
  BPInv n (mkBP (<[t1:=v0]> (<[t0:=v1]> (bp_perm st))) (bp_missing st) (bp_picks st)).
Proof.
  intros [Hr Hinj Hm] H0 H1.
  set (sw := fun k => if decide (k = t1) then t0 else if decide (k = t0) then t1 else k).
  assert (Hsw : forall k, sw (sw k) = k).
  { intros k. unfold sw. repeat (case_decide; subst); congruence. }
  assert (Hlk : forall k, <[t1:=v0]> (<[t0:=v1]> (bp_perm st)) !! k = bp_perm st !! sw k).
  { intros k. unfold sw. destruct (decide (k = t1)) as [->|Hne1].
    - rewrite lookup_insert_eq. congruence.
    - rewrite lookup_insert_ne by congruence. destruct (decide (k = t0)) as [->|Hne0].
      + rewrite lookup_insert_eq. congruence.
      + rewrite lookup_insert_ne by congruence. reflexivity. }
  assert (Himg : forall w, w ∈ (map_img (<[t1:=v0]> (<[t0:=v1]> (bp_perm st))) : gset nat) <->
                          w ∈ (map_img (bp_perm st) : gset nat)).
  { intros w. rewrite !elem_of_map_img. setoid_rewrite Hlk. split.
    - intros [k Hk]. eauto.
    - intros [k Hk]. exists (sw k). rewrite Hsw. exact Hk. }
  split; cbn [bp_perm bp_missing].
  - intros k w Hk. rewrite Hlk in Hk. pose proof (Hr _ _ Hk) as [Hk' Hw]. split; [|exact Hw].
    revert Hk'. unfold sw. case_decide; [subst; intros _; exact (proj1 (Hr _ _ H1))|].
    case_decide; [subst; intros _; exact (proj1 (Hr _ _ H0))|]. tauto.
  - intros k1 k2 w Hk1 Hk2. rewrite Hlk in Hk1, Hk2.
    rewrite <- (Hsw k1), <- (Hsw k2). f_equal. exact (Hinj _ _ _ Hk1 Hk2).
  - intros w. rewrite Hm, Himg. tauto.
Qed.

Lemma bp_inv_relocate picks n st s d v0 :
  (forall k s, s <> ∅ -> picks k s ∈ s) ->
  BPInv n st -> s < n -> d < n -> bp_perm st !! s = Some v0 -> bp_perm st !! d = None ->
  exists st', (let* r := takeMissing picks (mkBP (<[d:=v0]> (bp_perm st)) (bp_missing st)
                                               (bp_picks st)) s in
               Ok (mkBP (<[s:=r.1]> (bp_perm r.2)) (bp_missing r.2) (bp_picks r.2))) = Ok st' /\
              BPInv n st'.
Proof.
  intros Hpick HI Hs Hd H0 H1.
  assert (Hsd : s <> d) by congruence.
  destruct (takeMissing_ok picks (mkBP (<[d:=v0]> (bp_perm st)) (bp_missing st) (bp_picks st)) s
              Hpick (bp_missing_nonempty n st d HI Hd H1)) as (v & k' & Ht & Hv).
  cbn [bp_perm bp_missing] in Ht, Hv. rewrite Ht. cbn [res_bind fst snd bp_perm bp_missing bp_picks].
  eexists. split; [reflexivity|].
  rewrite <- insert_delete_eq, delete_insert_ne by exact Hsd.
  pose proof (bp_inv_move n st s d v0 HI Hd H0 H1) as HM.
  apply (bp_inv_extend n (mkBP (<[d:=v0]> (delete s (bp_perm st))) (bp_missing st) (bp_picks st))
           s v k' HM Hs); [|exact Hv].
  cbn [bp_perm]. rewrite lookup_insert_ne by congruence. apply lookup_delete_eq.
Qed.

Lemma backpropagateSwap_ok picks n op st :
  (forall k s, s <> ∅ -> picks k s ∈ s) ->
  forallb (fun t => t <? n) (getTargets op) = true -> BPInv n st ->
  exists st', backpropagateSwap picks op st = Ok st' /\ BPInv n st'.
Proof.
  intros Hpick Hb HI. unfold backpropagateSwap.
  destruct (_ && _ && _); [|eexists; split; [reflexivity|exact HI]].
  destruct (getTargets op) as [|t0 [|t1 [|t2 ts]]]; try (eexists; split; [reflexivity|exact HI]).
  cbn [forallb] in Hb. apply andb_prop in Hb as [Hb0 Hb]. apply andb_prop in Hb as [Hb1 _].
  apply Nat.ltb_lt in Hb0, Hb1.
  destruct (bp_perm st !! t0) as [v0|] eqn:E0; destruct (bp_perm st !! t1) as [v1|] eqn:E1.
  - eexists. split; [reflexivity|]. exact (bp_inv_swap n st t0 t1 v0 v1 HI E0 E1).
  - exact (bp_inv_relocate picks n st t0 t1 v0 Hpick HI Hb0 Hb1 E0 E1).
  - exact (bp_inv_relocate picks n st t1 t0 v1 Hpick HI Hb1 Hb0 E1 E0).
  - eexists. split; [reflexivity|exact HI].
Qed.

Lemma res_fold_back_ok {A B} (P : B -> Prop) (f : A -> B -> Result B) l b :
  (forall a b, a ∈ l -> P b -> exists b', f a b = Ok b' /\ P b') -> P b ->
  exists b', res_fold_back f l b = Ok b' /\ P b'.
Proof.
  intros Hf Hb. induction l as [|a l IH]; simpl.
  - eexists. split; [reflexivity|exact Hb].
  - destruct IH as (b1 & E & Hb1); [intros a' b' Ha'; apply Hf; right; exact Ha'|].
    rewrite E. cbn [res_bind]. apply Hf; [left|exact Hb1].
Qed.

Lemma backpropagateOp_ok picks n op :
  (forall k s, s <> ∅ -> picks k s ∈ s) -> targetsBelow n op = true ->
  forall st, BPInv n st -> exists st', backpropagateOp picks op st = Ok st' /\ BPInv n st'.
Proof.
  intros Hpick.
  induction op as [ty cs ts|ty ts qs cls|cops IH|o reg v _] using Operation_ind'; intros Hb st HI;
    try exact (backpropagateSwap_ok picks n _ st Hpick Hb HI).
  cbn [backpropagateOp]. apply (res_fold_back_ok (BPInv n)); [|exact HI].
  intros a b Ha Hb'. rewrite Forall_forall in IH. apply (IH a Ha); [|exact Hb'].
  cbn [targetsBelow] in Hb. rewrite forallb_forall in Hb. apply Hb, list_elem_of_In, Ha.
Qed.

Lemma fill_ok picks n l st :
  (forall k s, s <> ∅ -> picks k s ∈ s) -> (forall i, i ∈ l -> i < n) -> BPInv n st ->
  exists st', res_fold_left (fillStep picks) l st = Ok st' /\ BPInv n st' /\
    (forall i, i ∈ l \/ is_Some (bp_perm st !! i) -> is_Some (bp_perm st' !! i)).
Proof.
  intros Hpick. revert st. induction l as [|i l IH]; intros st Hl HI; simpl.
  - eexists. split; [reflexivity|]. split; [exact HI|].
    intros j [Hj|Hj]; [apply elem_of_nil in Hj; contradiction|exact Hj].
  - unfold fillStep at 1. destruct (bp_perm st !! i) as [w|] eqn:Ei.
    + cbn [res_bind]. destruct (IH st (fun j Hj => Hl j ltac:(right; exact Hj)) HI)
        as (st' & E & HI' & Hd). exists st'. split; [exact E|]. split; [exact HI'|].
      intros j [Hj|Hj]; apply Hd; [|right; exact Hj].
      apply elem_of_cons in Hj as [->|Hj]; [right; rewrite Ei; eauto|left; exact Hj].
    + assert (Hi : i < n) by (apply Hl; left).
      destruct (takeMissing_ok picks st i Hpick (bp_missing_nonempty n st i HI Hi Ei))
        as (v & k' & Ht & Hv).
      rewrite Ht. cbn [res_bind fst snd bp_perm bp_missing bp_picks].
      pose proof (bp_inv_extend n st i v k' HI Hi Ei Hv) as HI1.
      destruct (IH _ (fun j Hj => Hl j ltac:(right; exact Hj)) HI1) as (st' & E & HI' & Hd).
      exists st'. split; [exact E|]. split; [exact HI'|].
      intros j Hj. apply Hd. cbn [bp_perm].
      destruct (decide (j = i)) as [->|Hne]; [right; rewrite lookup_insert_eq; eauto|].
      rewrite lookup_insert_ne by congruence.
      destruct Hj as [Hj|Hj]; [|right; exact Hj].
      apply elem_of_cons in Hj as [->|Hj]; [contradiction|left; exact Hj].
Qed.

Lemma bp_full n st :
  BPInv n st -> (forall i, i < n -> is_Some (bp_perm st !! i)) ->
  forall v, v < n -> exists k, bp_perm st !! k = Some v.
Proof.
  intros HI Hall v Hv. pose proof (bp_size n st HI) as Hs.
  assert (Hd : dom (bp_perm st) = set_seq 0 n).
  { apply set_eq. intros k. rewrite elem_of_dom, elem_of_set_seq. split.
    - intros [w Hw]. apply (bp_range n st HI) in Hw. lia.
    - intros Hk. apply Hall. lia. }
  assert (Hsz : size (bp_perm st) = n) by (rewrite <- size_dom, Hd; apply size_set_seq).
  assert (HM : bp_missing st = ∅) by (apply leibniz_equiv, size_empty_inv; lia).
  destruct (decide (v ∈ (map_img (bp_perm st) : gset nat))) as [Hi|Hi].
  - apply elem_of_map_img in Hi. exact Hi.
  - exfalso. assert (Hm : v ∈ bp_missing st) by (apply (bp_missing_spec n st HI); split; assumption).
    rewrite HM in Hm. apply elem_of_empty in Hm. exact Hm.
Qed.

(** backpropagateOutputPermutation: when the output permutation is an
    injective map on qubits below nqubits, every operation's targets are
    below nqubits, and each pick from a non-empty set of missing qubits
    returns one of its members, the pass succeeds and the initial layout it
    computes is a bijection of [0, nqubits): every physical qubit below
    nqubits (and no other) is mapped, to a logical qubit below nqubits, no
    two physical qubits share a logical qubit, and every logical qubit below
    nqubits is the image of one. *)
Theorem backpropagateOutputPermutation_bijection picks nqubits outputPermutation ops :
  (forall k s, s <> ∅ -> picks k s ∈ s) ->
  (forall p l, outputPermutation !! p = Some l -> p < nqubits /\ l < nqubits) ->
  (forall p1 p2 l, outputPermutation !! p1 = Some l -> outputPermutation !! p2 = Some l -> p1 = p2) ->
  Forall (fun op => targetsBelow nqubits op = true) ops ->
  exists layout,
    backpropagateOutputPermutation picks nqubits outputPermutation ops = Ok layout /\
    (forall p, is_Some (layout !! p) <-> p < nqubits) /\
    (forall p l, layout !! p = Some l -> l < nqubits) /\
    (forall p1 p2 l, layout !! p1 = Some l -> layout !! p2 = Some l -> p1 = p2) /\
    (forall l, l < nqubits -> exists p, layout !! p = Some l).
Proof.
  intros Hpick Hr Hinj Hops.
  set (st0 := mkBP outputPermutation
                (list_to_set (filter (fun i => i ∉ (map_img outputPermutation : gset nat))
                                     (seq 0 nqubits))) 0).
  assert (HI0 : BPInv nqubits st0).
  { split; cbn [st0 bp_perm bp_missing]; [exact Hr|exact Hinj|].
    intros v. rewrite elem_of_list_to_set, list_elem_of_filter, elem_of_seq.
    split; intros [? ?]; split; auto; lia. }
  destruct (res_fold_back_ok (BPInv nqubits) (backpropagateOp picks) ops st0) as (st & E & HI).
  { intros a b Ha Hb. rewrite Forall_forall in Hops.
    exact (backpropagateOp_ok picks nqubits a Hpick (Hops a Ha) b Hb). }
  { exact HI0. }
  assert (Hfinal : forall st', BPInv nqubits st' ->
            (forall i, i < nqubits -> is_Some (bp_perm st' !! i)) ->
            (forall p, is_Some (bp_perm st' !! p) <-> p < nqubits) /\
            (forall p l, bp_perm st' !! p = Some l -> l < nqubits) /\
            (forall p1 p2 l, bp_perm st' !! p1 = Some l -> bp_perm st' !! p2 = Some l -> p1 = p2) /\
            (forall l, l < nqubits -> exists p, bp_perm st' !! p = Some l)).
  { intros st' HI' Hall. split; [|split; [|split]].
    - intros p. split; [intros [l Hl]; exact (proj1 (bp_range _ _ HI' p l Hl))|apply Hall].
    - intros p l Hl. exact (proj2 (bp_range _ _ HI' p l Hl)).
    - exact (bp_inj _ _ HI').
    - exact (bp_full _ _ HI' Hall). }
  unfold backpropagateOutputPermutation. fold st0. rewrite E. cbn [res_bind].
  destruct (size (bp_perm st) =? nqubits) eqn:Es.
  - apply Nat.eqb_eq in Es. eexists. split; [reflexivity|]. apply Hfinal; [exact HI|].
    intros i Hi. destruct (bp_perm st !! i) as [w|] eqn:Ei; [eauto|].
    exfalso. apply (bp_missing_nonempty nqubits st i HI Hi Ei).
    pose proof (bp_size _ _ HI) as Hs. apply leibniz_equiv, size_empty_inv. lia.
  - destruct (fill_ok picks nqubits (seq 0 nqubits) st Hpick) as (st' & E' & HI' & Hd).
    { intros i Hi. apply elem_of_seq in Hi. lia. }
    { exact HI. }
    rewrite E'. cbn [res_bind]. eexists. split; [reflexivity|]. apply Hfinal; [exact HI'|].
    intros i Hi. apply Hd. left. apply elem_of_seq. lia.
Qed.

Lemma backpropagateOutputPermutation_bijection_witness :
  let ops := [StandardOperation OpType.SWAP [] [0; 2]] in
  (forall k s, s <> ∅ -> firstElement k s ∈ s) /\
  (forall p l, ({[0 := 1]} : gmap nat nat) !! p = Some l -> p < 3 /\ l < 3) /\
  (forall p1 p2 l, ({[0 := 1]} : gmap nat nat) !! p1 = Some l ->
                   ({[0 := 1]} : gmap nat nat) !! p2 = Some l -> p1 = p2) /\
  Forall (fun op => targetsBelow 3 op = true) ops /\
  backpropagateOutputPermutation firstElement 3 {[0 := 1]} ops =
    Ok (<[0:=0]> (<[1:=2]> {[2:=1]})) /\
  exists layout,
    backpropagateOutputPermutation firstElement 3 {[0 := 1]} ops = Ok layout /\
    (forall p, is_Some (layout !! p) <-> p < 3) /\
    (forall p l, layout !! p = Some l -> l < 3) /\
    (forall p1 p2 l, layout !! p1 = Some l -> layout !! p2 = Some l -> p1 = p2) /\
    (forall l, l < 3 -> exists p, layout !! p = Some l).
Proof.
  intros ops.
  assert (Hp : forall k s, s <> ∅ -> firstElement k s ∈ s).
  { intros k s Hs. unfold firstElement. destruct (elements s) as [|x l] eqn:E.
    - exfalso. apply Hs. apply elements_empty_inv in E. apply leibniz_equiv, E.
    - apply elem_of_elements. rewrite E. left. }
  assert (Hr : forall p l, ({[0 := 1]} : gmap nat nat) !! p = Some l -> p < 3 /\ l < 3).
  { intros p l H. apply lookup_singleton_Some in H as [<- <-]. lia. }
  assert (Hi : forall p1 p2 l, ({[0 := 1]} : gmap nat nat) !! p1 = Some l ->
                   ({[0 := 1]} : gmap nat nat) !! p2 = Some l -> p1 = p2).
  { intros p1 p2 l H1 H2. apply lookup_singleton_Some in H1 as [<- _].
    apply lookup_singleton_Some in H2 as [<- _]. reflexivity. }
  assert (Ho : Forall (fun op => targetsBelow 3 op = true) ops) by (repeat constructor).
  split; [exact Hp|]. split; [exact Hr|]. split; [exact Hi|]. split; [exact Ho|].
  split; [vm_compute; reflexivity|].
  exact (backpropagateOutputPermutation_bijection firstElement 3 {[0 := 1]} ops Hp Hr Hi Ho).
Defined.


Lemma smap_find_assign p k v m :
  smap_find p (smap_assign k v m) = if p =? k then Some v else smap_find p m.
Proof.
  induction m as [|[k' v'] m IH]; simpl.
  - destruct (p =? k); reflexivity.
  - destruct (k <? k') eqn:Hlt; simpl.
    + destruct (p =? k) eqn:Hp; [reflexivity|]. reflexivity.
    + destruct (k =? k') eqn:Hk; simpl.
      * apply Nat.eqb_eq in Hk. subst k'. destruct (p =? k); reflexivity.
      * rewrite IH. destruct (p =? k') eqn:Hp'; destruct (p =? k) eqn:Hp; try reflexivity.
        apply Nat.eqb_eq in Hp, Hp'. subst. rewrite Nat.eqb_refl in Hk. discriminate.
Qed.

Lemma smap_assign_elem x k v m : x ∈ smap_assign k v m -> x = (k, v) \/ x ∈ m.
Proof.
  induction m as [|[k' v'] m IH]; simpl; intros H.
  - set_solver.
  - destruct (k <? k'); [set_solver|]. destruct (k =? k'); [set_solver|].
    apply elem_of_cons in H as [->|H]; [right; left|].
    destruct (IH H); [left|right; right]; assumption.
Qed.

Lemma smap_find_elem k v m : smap_find k m = Some v -> (k, v) ∈ m.
Proof.
  induction m as [|[k' v'] m IH]; simpl; intros H; [discriminate|].
  destruct (k =? k') eqn:Hk.
  - apply Nat.eqb_eq in Hk. injection H as <-. subst. left.
  - right. exact (IH H).
Qed.

Lemma getType_mapTargets f op : getType (mapTargets f op) = getType op.
Proof. destruct op; simpl; try reflexivity. case_decide; reflexivity. Qed.

Lemma getType_mapControls g op : getType (mapControls g op) = getType op.
Proof. destruct op; reflexivity. Qed.

Lemma getType_rename rm op : getType (renameOperation rm op) = getType op.
Proof.
  unfold renameOperation.
  destruct (_ || _); [rewrite getType_mapControls, getType_mapTargets; reflexivity|].
  destruct (isNonUnitaryOperation op); [apply getType_mapTargets|reflexivity].
Qed.

Lemma getTargets_mapTargets f op :
  f [] = [] -> getTargets (mapTargets f op) = f (getTargets op).
Proof.
  intros Hf. induction op; simpl; try reflexivity.
  - destruct (decide (ty = OpType.Measure)); simpl;
      [rewrite decide_True by assumption|rewrite decide_False by assumption]; reflexivity.
  - symmetry. exact Hf.
  - exact IHop.
Qed.

Lemma getControls_mapTargets f op : getControls (mapTargets f op) = getControls op.
Proof. induction op; simpl; try reflexivity. - case_decide; reflexivity. - exact IHop. Qed.

Lemma getControls_mapControls g op :
  g [] = [] -> getControls (mapControls g op) = g (getControls op).
Proof. intros Hg. induction op; simpl; try reflexivity; try (symmetry; exact Hg). exact IHop. Qed.

Lemma getTargets_mapControls g op : getTargets (mapControls g op) = getTargets op.
Proof. induction op; simpl; try reflexivity. exact IHop. Qed.

Lemma changeTargets_nil rm : changeTargets [] rm = [].
Proof. reflexivity. Qed.

Lemma changeControls_nil rm : changeControls [] rm = [].
Proof. destruct rm; reflexivity. Qed.

Lemma changeTargets_elem q ts rm :
  q ∈ changeTargets ts rm -> q ∈ ts \/ exists k, (k, q) ∈ rm.
Proof.
  unfold changeTargets. intros H. apply list_elem_of_fmap in H as (t & -> & Ht).
  destruct (smap_find t rm) as [t'|] eqn:E; [right; exists t; apply smap_find_elem, E|left; exact Ht].
Qed.

Lemma control_insert_elem x c cs : x ∈ control_insert c cs -> x = c \/ x ∈ cs.
Proof.
  induction cs as [|d cs IH]; simpl; intros H.
  - apply list_elem_of_singleton in H. left; exact H.
  - destruct (cqubit c <? cqubit d); [set_solver|].
    destruct (cqubit d <? cqubit c).
    { apply elem_of_cons in H as [->|H]; [right; left|]. destruct (IH H); [left|right; right]; assumption. }
    destruct (decide (ctype c = ctype d)); [right; exact H|].
    destruct (ctype_leb (ctype c) (ctype d)); [set_solver|].
    apply elem_of_cons in H as [->|H]; [right; left|]. destruct (IH H); [left|right; right]; assumption.
Qed.

Lemma control_erase_elem x c cs : x ∈ control_erase c cs -> x ∈ cs.
Proof.
  induction cs as [|d cs IH]; simpl; intros H; [exact H|].
  case_decide; [right; exact H|].
  apply elem_of_cons in H as [->|H]; [left|right; exact (IH H)].
Qed.

Lemma changeControls_elem c cs rm :
  c ∈ changeControls cs rm -> c ∈ cs \/ exists k, (k, cqubit c) ∈ rm.
Proof.
  unfold changeControls. intros H. destruct cs as [|c0 cs0]; [left; exact H|].
  destruct rm as [|e rm0]; [left; exact H|].
  assert (Gen : forall l acc, (forall x, x ∈ acc -> x ∈ c0 :: cs0 \/ exists k, (k, cqubit x) ∈ e :: rm0) ->
            (forall p, p ∈ l -> p ∈ e :: rm0) ->
            forall x, x ∈ fold_left (fun cs '(from, to) =>
                   match control_find from cs with
                   | Some c => control_insert (mkControl to (ctype c)) (control_erase c cs)
                   | None => cs
                   end) l acc -> x ∈ c0 :: cs0 \/ exists k, (k, cqubit x) ∈ e :: rm0).
  { induction l as [|[from to] l IH]; intros acc Hacc Hl x Hx; simpl in Hx; [exact (Hacc x Hx)|].
    refine (IH _ _ (fun p Hp => Hl p ltac:(right; exact Hp)) x Hx).
    intros y Hy. destruct (control_find from acc) as [d|].
    - apply control_insert_elem in Hy as [->|Hy].
      + right. exists from. apply Hl. left.
      + exact (Hacc y (control_erase_elem _ _ _ Hy)).
    - exact (Hacc y Hy). }
  apply (Gen (e :: rm0) (c0 :: cs0)); [intros x Hx; left; exact Hx|intros p Hp; exact Hp|exact H].
Qed.

Lemma isCompound_mapTargets f op : isCompoundOperation (mapTargets f op) = isCompoundOperation op.
Proof. destruct op; simpl; try reflexivity. case_decide; reflexivity. Qed.

Lemma isCompound_mapControls g op : isCompoundOperation (mapControls g op) = isCompoundOperation op.
Proof. destruct op; reflexivity. Qed.

Lemma usedQubits_flat o :
  isCompoundOperation o = false -> getUsedQubits o = to_set (map cqubit (getControls o) ++ getTargets o).
Proof. destruct o; try discriminate; reflexivity. Qed.

Lemma rename_used rm op q :
  q ∈ getUsedQubits (renameOperation rm op) -> q ∈ getUsedQubits op \/ exists k, (k, q) ∈ rm.
Proof.
  intros H. destruct (isCompoundOperation op) eqn:Hc.
  - destruct op; try discriminate. unfold renameOperation in H. cbn [isStandardOperation
      isClassicControlledOperation orb] in H.
    destruct (isNonUnitaryOperation _); left; exact H.
  - rewrite (usedQubits_flat op Hc). rewrite to_set_elem, elem_of_app.
    unfold renameOperation in H. destruct (_ || _).
    + rewrite usedQubits_flat in H by (rewrite isCompound_mapControls, isCompound_mapTargets; exact Hc).
      rewrite to_set_elem, elem_of_app in H.
      rewrite getControls_mapControls, getControls_mapTargets in H by apply changeControls_nil.
      rewrite getTargets_mapControls, getTargets_mapTargets in H by apply changeTargets_nil.
      destruct H as [H|H].
      * apply list_elem_of_fmap in H as (c & -> & Hc').
        destruct (changeControls_elem _ _ _ Hc') as [H|H]; [left; left; apply list_elem_of_fmap; eauto|right; exact H].
      * destruct (changeTargets_elem _ _ _ H) as [H'|H']; [left; right; exact H'|right; exact H'].
    + destruct (isNonUnitaryOperation op); [|left; rewrite <- elem_of_app, <- to_set_elem,
        <- usedQubits_flat by exact Hc; exact H].
      rewrite usedQubits_flat in H by (rewrite isCompound_mapTargets; exact Hc).
      rewrite to_set_elem, elem_of_app, getControls_mapTargets in H.
      rewrite getTargets_mapTargets in H by apply changeTargets_nil.
      destruct H as [H|H]; [left; left; exact H|].
      destruct (changeTargets_elem _ _ _ H) as [H'|H']; [left; right; exact H'|right; exact H'].
Qed.

Definition ERInv (st : ERState) : Prop :=
  forall k v, (k, v) ∈ er_map st -> v < er_nqubits st.

Definition grows (st0 st1 : ERState) : Prop :=
  er_nqubits st0 <= er_nqubits st1 /\
  forall p, smap_find p (er_layout st1) =
            if (er_nqubits st0 <=? p) && (p <? er_nqubits st1) then Some p
            else smap_find p (er_layout st0).

Ltac cmp_cases :=
  repeat match goal with
         | |- context [?a <=? ?b] => destruct (Nat.leb_spec a b)
         | |- context [?a <? ?b] => destruct (Nat.ltb_spec a b)
         end; simpl; try reflexivity; try (exfalso; lia).

Lemma grows_refl st : grows st st.
Proof. split; [lia|]. intros p. cmp_cases. Qed.

Lemma grows_trans a b c : grows a b -> grows b c -> grows a c.
Proof.
  intros [H1 F1] [H2 F2]. split; [lia|]. intros p. rewrite F2, F1. cmp_cases.
Qed.

Lemma addResetTarget_spec st t : ERInv st -> ERInv (addResetTarget st t) /\ grows st (addResetTarget st t).
Proof.
  intros HI. split.
  - intros k v Hk. cbn [addResetTarget er_map er_nqubits] in *.
    apply smap_assign_elem in Hk as [Hk|Hk]; [injection Hk as -> ->; lia|].
    specialize (HI k v Hk). lia.
  - split; cbn [addResetTarget er_nqubits er_layout]; [lia|].
    intros p. rewrite smap_find_assign. cmp_cases.
    + destruct (Nat.eqb_spec p (er_nqubits st)); [subst; reflexivity|exfalso; lia].
    + destruct (Nat.eqb_spec p (er_nqubits st)); [exfalso; lia|reflexivity].
    + destruct (Nat.eqb_spec p (er_nqubits st)); [exfalso; lia|reflexivity].
Qed.

Lemma addResetTargets_spec st ts :
  ERInv st -> ERInv (addResetTargets st ts) /\ grows st (addResetTargets st ts).
Proof.
  unfold addResetTargets. revert st. induction ts as [|t ts IH]; intros st HI; simpl.
  - split; [exact HI|apply grows_refl].
  - destruct (addResetTarget_spec st t HI) as [HI1 G1].
    destruct (IH _ HI1) as [HI2 G2]. split; [exact HI2|exact (grows_trans _ _ _ G1 G2)].
Qed.

Lemma usesBelow_mono n n' op : n <= n' -> usesBelow n op -> usesBelow n' op.
Proof. intros Hn H q Hq. specialize (H q Hq). lia. Qed.

Lemma rename_usesBelow st op :
  ERInv st -> usesBelow (er_nqubits st) op -> usesBelow (er_nqubits st) (renameOperation (er_map st) op).
Proof.
  intros HI H q Hq. destruct (rename_used _ _ _ Hq) as [Hq'|[k Hk]]; [exact (H q Hq')|exact (HI k q Hk)].
Qed.

Lemma eliminateResetsCompound_spec cops st cops' st' :
  eliminateResetsCompound cops st = (cops', st') -> ERInv st ->
  ERInv st' /\ grows st st' /\
  (Forall (usesBelow (er_nqubits st)) cops -> Forall (usesBelow (er_nqubits st')) cops').
Proof.
  revert st cops' st'. induction cops as [|c cops IH]; intros st cops' st' E HI; simpl in E.
  - injection E as <- <-. split; [exact HI|]. split; [apply grows_refl|]. intros _. constructor.
  - destruct (decide (getType c = OpType.Reset)).
    + destruct (addResetTargets_spec st (getTargets c) HI) as [HI1 G1].
      destruct (IH _ _ _ E HI1) as (HI2 & G2 & U2). split; [exact HI2|].
      split; [exact (grows_trans _ _ _ G1 G2)|].
      intros HF. apply Forall_cons in HF as [_ HF]. apply U2.
      eapply Forall_impl; [exact HF|]. intros o. apply usesBelow_mono, G1.
    + destruct (eliminateResetsCompound cops st) as [rest' st2] eqn:Er.
      injection E as <- <-. destruct (IH _ _ _ Er HI) as (HI2 & G2 & U2).
      split; [exact HI2|]. split; [exact G2|].
      intros HF. apply Forall_cons in HF as [Hc HF]. constructor; [|exact (U2 HF)].
      eapply usesBelow_mono; [apply G2|]. exact (rename_usesBelow st c HI Hc).
Qed.

Lemma eliminateResetsOps_spec ops st ops' st' :
  eliminateResetsOps ops st = (ops', st') -> ERInv st ->
  ERInv st' /\ grows st st' /\ Forall (fun o => getType o <> OpType.Reset) ops' /\
  (Forall (usesBelow (er_nqubits st)) ops -> Forall (usesBelow (er_nqubits st')) ops').
Proof.
  revert st ops' st'. induction ops as [|op ops IH]; intros st ops' st' E HI; simpl in E.
  - injection E as <- <-. split; [exact HI|]. split; [apply grows_refl|].
    split; [constructor|]. intros _. constructor.
  - destruct (decide (getType op = OpType.Reset)) as [Hr|Hr].
    + destruct (addResetTargets_spec st (getTargets op) HI) as [HI1 G1].
      destruct (IH _ _ _ E HI1) as (HI2 & G2 & R2 & U2). split; [exact HI2|].
      split; [exact (grows_trans _ _ _ G1 G2)|]. split; [exact R2|].
      intros HF. apply Forall_cons in HF as [_ HF]. apply U2.
      eapply Forall_impl; [exact HF|]. intros o. apply usesBelow_mono, G1.
    + destruct (decide (er_map st = [])).
      * destruct (eliminateResetsOps ops st) as [rest' st2] eqn:Er.
        injection E as <- <-. destruct (IH _ _ _ Er HI) as (HI2 & G2 & R2 & U2).
        split; [exact HI2|]. split; [exact G2|]. split; [constructor; assumption|].
        intros HF. apply Forall_cons in HF as [Hc HF]. constructor; [|exact (U2 HF)].
        eapply usesBelow_mono; [apply G2|exact Hc].
      * assert (Hstep : exists op1 st1,
                  (match op with
                   | CompoundOperation cops =>
                       let '(cops', st') := eliminateResetsCompound cops st in
                       (CompoundOperation cops', st')
                   | _ => (op, st)
                   end) = (op1, st1) /\ ERInv st1 /\ grows st st1 /\ getType op1 = getType op /\
                  (usesBelow (er_nqubits st) op -> usesBelow (er_nqubits st1) op1)).
        { destruct op as [| | cops |]; try (eexists _, _; split; [reflexivity|];
            split; [exact HI|]; split; [apply grows_refl|]; split; [reflexivity|]; tauto).
          destruct (eliminateResetsCompound cops st) as [cops' st1] eqn:Ec.
          destruct (eliminateResetsCompound_spec _ _ _ _ Ec HI) as (HI1 & G1 & U1).
          eexists _, _. split; [reflexivity|]. split; [exact HI1|]. split; [exact G1|].
          split; [reflexivity|]. intros Hu q Hq. apply usedQubits_compound in Hq as (o & Ho & Hq).
          assert (HF : Forall (usesBelow (er_nqubits st)) cops).
          { apply Forall_forall. intros o' Ho' q' Hq'. apply Hu, usedQubits_compound. eauto. }
          exact (proj1 (Forall_forall _ _) (U1 HF) o Ho q Hq). }
        destruct Hstep as (op1 & st1 & E1 & HI1 & G1 & T1 & U1). rewrite E1 in E.
        destruct (eliminateResetsOps ops st1) as [rest' st2] eqn:Er.
        injection E as <- <-. destruct (IH _ _ _ Er HI1) as (HI2 & G2 & R2 & U2).
        split; [exact HI2|]. split; [exact (grows_trans _ _ _ G1 G2)|].
        split; [constructor; [rewrite getType_rename, T1; exact Hr|exact R2]|].
        intros HF. apply Forall_cons in HF as [Hc HF]. constructor.
        -- eapply usesBelow_mono; [apply G2|]. exact (rename_usesBelow st1 op1 HI1 (U1 Hc)).
        -- apply U2. eapply Forall_impl; [exact HF|]. intros o. apply usesBelow_mono, G1.
Qed.

(** eliminateResets: on a circuit whose operations use only qubits below
    nqubits, the result has no top-level Reset, its qubit count is at least
    nqubits, and all its operations use only qubits below the new count. *)
Theorem eliminateResets_well_formed qc nqubits qc' nqubits' :
  eliminateResets qc nqubits = (qc', nqubits') ->
  Forall (usesBelow nqubits) (qc_ops qc) ->
  nqubits <= nqubits' /\
  Forall (fun o => getType o <> OpType.Reset) (qc_ops qc') /\
  Forall (usesBelow nqubits') (qc_ops qc').
Proof.
  unfold eliminateResets. intros E HF.
  destruct (eliminateResetsOps (qc_ops qc) (mkER nqubits (initialLayout qc) [])) as [ops st] eqn:Eo.
  injection E as <- <-. cbn [qc_ops].
  assert (HI : ERInv (mkER nqubits (initialLayout qc) [])).
  { intros k v Hk. apply elem_of_nil in Hk. contradiction. }
  destruct (eliminateResetsOps_spec _ _ _ _ Eo HI) as (_ & [Hle _] & R & U).
  split; [exact Hle|]. split; [exact R|]. exact (U HF).
Qed.

(** eliminateResets: the qubits it adds, nqubits to nqubits' - 1, enter the
    initial layout mapped to themselves; every other entry of the layout is
    kept. *)
Theorem eliminateResets_layout qc nqubits qc' nqubits' :
  eliminateResets qc nqubits = (qc', nqubits') ->
  forall p, smap_find p (initialLayout qc') =
            if (nqubits <=? p) && (p <? nqubits') then Some p else smap_find p (initialLayout qc).
Proof.
  unfold eliminateResets. intros E.
  destruct (eliminateResetsOps (qc_ops qc) (mkER nqubits (initialLayout qc) [])) as [ops st] eqn:Eo.
  injection E as <- <-. cbn [initialLayout].
  assert (HI : ERInv (mkER nqubits (initialLayout qc) [])).
  { intros k v Hk. apply elem_of_nil in Hk. contradiction. }
  destruct (eliminateResetsOps_spec _ _ _ _ Eo HI) as (_ & [_ G] & _).
  exact G.
Qed.

Lemma eliminateResetsOps_no_reset ops st :
  er_map st = [] -> Forall (fun o => getType o <> OpType.Reset) ops ->
  eliminateResetsOps ops st = (ops, st).
Proof.
  intros Hm. induction ops as [|op ops IH]; intros HF; [reflexivity|].
  apply Forall_cons in HF as [Hop HF]. simpl.
  rewrite decide_False by exact Hop. rewrite decide_True by exact Hm.
  rewrite (IH HF). reflexivity.
Qed.

(** eliminateResets: a circuit without a top-level Reset is returned
    unchanged, with the same qubit count; a Reset inside a Compound is only
    removed after a top-level Reset has been seen. *)
Theorem eliminateResets_no_toplevel_reset qc nqubits :
  Forall (fun o => getType o <> OpType.Reset) (qc_ops qc) ->
  eliminateResets qc nqubits = (qc, nqubits).
Proof.
  intros HF. unfold eliminateResets.
  rewrite (eliminateResetsOps_no_reset _ (mkER nqubits (initialLayout qc) []) eq_refl HF).
  destruct qc; reflexivity.
Qed.

Lemma control_insert_iff x c cs : x ∈ control_insert c cs <-> x = c \/ x ∈ cs.
Proof.
  split; [apply control_insert_elem|].
  induction cs as [|d cs IH]; simpl; intros H.
  - destruct H as [->|H]; [left|apply elem_of_nil in H; contradiction].
  - destruct (cqubit c <? cqubit d) eqn:E1.
    { destruct H as [->|H]; [left|right; exact H]. }
    destruct (cqubit d <? cqubit c) eqn:E2.
    { destruct H as [->|H]; [right; apply IH; left; reflexivity|].
      apply elem_of_cons in H as [->|H]; [left|right; apply IH; right; exact H]. }
    destruct (decide (ctype c = ctype d)) as [Et|Et].
    { destruct H as [->|H]; [|exact H]. apply Nat.ltb_ge in E1, E2.
      assert (Ecd : c = d) by (destruct c as [cq ct], d as [dq dt]; simpl in *; f_equal; [lia|exact Et]).
      rewrite Ecd. left. }
    destruct (ctype_leb (ctype c) (ctype d)).
    { destruct H as [->|H]; [left|right; exact H]. }
    destruct H as [->|H]; [right; apply IH; left; reflexivity|].
    apply elem_of_cons in H as [->|H]; [left|right; apply IH; right; exact H].
Qed.

Lemma control_erase_qubits c cs y :
  c ∈ cs -> NoDup (map cqubit cs) ->
  y ∈ map cqubit (control_erase c cs) <-> y ∈ map cqubit cs /\ y <> cqubit c.
Proof.
  induction cs as [|d cs IH]; simpl; intros Hc Hnd; [apply elem_of_nil in Hc; contradiction|].
  apply NoDup_cons in Hnd as [Hd Hnd].
  case_decide as Heq.
  - subst d. rewrite elem_of_cons. split; [intros H; split; [right; exact H|intros ->; contradiction]|].
    intros [[->|H] Hne]; [contradiction|exact H].
  - apply elem_of_cons in Hc as [->|Hc]; [contradiction|].
    assert (Hcd : cqubit c <> cqubit d).
    { intros E. apply Hd. rewrite <- E. apply list_elem_of_fmap. eauto. }
    cbn [map]. rewrite !elem_of_cons, IH by assumption. split.
    + intros [->|[H Hne]]; split; auto.
    + intros [[->|H] Hne]; [left; reflexivity|right; split; assumption].
Qed.

Lemma changeTargets_single ts q n y :
  y ∈ changeTargets ts [(q, n)] <-> (y ∈ ts /\ y <> q) \/ (y = n /\ q ∈ ts) \/ (y = n /\ n ∈ ts).
Proof.
  unfold changeTargets. rewrite list_elem_of_fmap. cbn [smap_find]. split.
  - intros (t & -> & Ht). destruct (Nat.eqb_spec t q) as [->|Hne].
    + right. left. split; [reflexivity|exact Ht].
    + left. split; assumption.
  - intros [[Hy Hne]|[[-> Hq]|[-> Hn]]].
    + exists y. rewrite (proj2 (Nat.eqb_neq y q) Hne). split; [reflexivity|exact Hy].
    + exists q. rewrite Nat.eqb_refl. split; [reflexivity|exact Hq].
    + destruct (Nat.eqb_spec n q) as [->|Hne].
      * exists q. rewrite Nat.eqb_refl. split; [reflexivity|exact Hn].
      * exists n. rewrite (proj2 (Nat.eqb_neq n q) Hne). split; [reflexivity|exact Hn].
Qed.

Lemma changeControls_single cs q n y :
  NoDup (map cqubit cs) -> n ∉ map cqubit cs ->
  y ∈ map cqubit (changeControls cs [(q, n)]) <->
  (y ∈ map cqubit cs /\ y <> q) \/ (y = n /\ q ∈ map cqubit cs).
Proof.
  intros Hnd Hn. destruct cs as [|c0 cs0].
  - cbn. split; [intros H; apply elem_of_nil in H; contradiction|].
    intros [[H _]|[_ H]]; apply elem_of_nil in H; contradiction.
  - unfold changeControls. cbn [fold_left].
    destruct (control_find q (c0 :: cs0)) as [c|] eqn:Ef.
    + unfold control_find in Ef. apply find_some in Ef as [Hc Hq].
      apply Nat.eqb_eq in Hq. apply list_elem_of_In in Hc.
      rewrite list_elem_of_fmap. setoid_rewrite control_insert_iff. split.
      * intros (x & -> & [->|Hx]).
        -- right. split; [reflexivity|]. rewrite <- Hq. apply list_elem_of_fmap. eauto.
        -- left. assert (Hx' : cqubit x ∈ map cqubit (control_erase c (c0 :: cs0)))
             by (apply list_elem_of_fmap; eauto).
           rewrite control_erase_qubits in Hx' by assumption. rewrite <- Hq. exact Hx'.
      * intros [[Hy Hne]|[-> _]].
        -- assert (Hy' : y ∈ map cqubit (control_erase c (c0 :: cs0)))
             by (rewrite control_erase_qubits by assumption; split; [exact Hy|rewrite Hq; exact Hne]).
           apply list_elem_of_fmap in Hy' as (x & -> & Hx). exists x. split; [reflexivity|right; exact Hx].
        -- exists (mkControl n (ctype c)). split; [reflexivity|left; reflexivity].
    + unfold control_find in Ef.
      assert (Hnq : q ∉ map cqubit (c0 :: cs0)).
      { intros Hq. apply list_elem_of_fmap in Hq as (x & -> & Hx).
        apply list_elem_of_In in Hx. pose proof (find_none _ _ Ef x Hx) as Hf.
        cbn beta in Hf. rewrite Nat.eqb_refl in Hf. discriminate. }
      split; [intros H; left; split; [exact H|intros ->; contradiction]|].
      intros [[H _]|[_ H]]; [exact H|contradiction].
Qed.

Lemma rename_single_used o q n y :
  isCompoundOperation o = false -> NoDup (map cqubit (getControls o)) ->
  n ∉ getUsedQubits o -> q <> n ->
  y ∈ getUsedQubits (renameOperation [(q, n)] o) <->
  (y ∈ getUsedQubits o /\ y <> q) \/ (y = n /\ q ∈ getUsedQubits o).
Proof.
  intros Hc Hnd Hn Hqn.
  rewrite (usedQubits_flat o Hc) in *. rewrite to_set_elem in Hn |- *. rewrite to_set_elem.
  rewrite elem_of_app in Hn. rewrite !elem_of_app.
  assert (Hn1 : n ∉ map cqubit (getControls o)) by tauto.
  assert (Hn2 : n ∉ getTargets o) by tauto.
  unfold renameOperation. destruct (isStandardOperation o || isClassicControlledOperation o) eqn:Eb.
  - rewrite usedQubits_flat by (rewrite isCompound_mapControls, isCompound_mapTargets; exact Hc).
    rewrite to_set_elem, elem_of_app.
    rewrite getControls_mapControls, getControls_mapTargets by apply changeControls_nil.
    rewrite getTargets_mapControls, getTargets_mapTargets by apply changeTargets_nil.
    rewrite changeControls_single by assumption. rewrite changeTargets_single.
    split; [intros [[[H1 H2]|[-> H]]|[[H1 H2]|[[-> H]|[-> H]]]]; try tauto|].
    intros [[[H|H] Hne]|[-> [H|H]]]; tauto.
  - destruct o as [ty cs ts|ty ts qs cls|cops|o' reg v]; try discriminate.
    cbn [isNonUnitaryOperation].
    rewrite usedQubits_flat by (rewrite isCompound_mapTargets; reflexivity).
    rewrite to_set_elem, elem_of_app, getControls_mapTargets.
    rewrite getTargets_mapTargets by apply changeTargets_nil.
    rewrite changeTargets_single. cbn [getControls map].
    split; [intros [H|[[H1 H2]|[[-> H]|[-> H]]]]; try tauto; apply elem_of_nil in H; contradiction|].
    intros [[[H|H] Hne]|[-> [H|H]]]; try tauto; apply elem_of_nil in H; contradiction.
Qed.

Lemma rename_compound rm cops : renameOperation rm (CompoundOperation cops) = CompoundOperation cops.
Proof. unfold renameOperation. cbn [isStandardOperation isClassicControlledOperation orb].
  destruct (isNonUnitaryOperation _); reflexivity. Qed.

Lemma noReset_type o : noReset o = true -> getType o <> OpType.Reset.
Proof.
  destruct o; simpl; try (intros _; discriminate).
  - intros H. apply negb_true_iff, bool_decide_eq_false in H. exact H.
  - intros H. apply negb_true_iff, bool_decide_eq_false in H. exact H.
Qed.

Lemma eliminateResetsCompound_single cops N L q n :
  Forall (fun c => getType c <> OpType.Reset) cops ->
  eliminateResetsCompound cops (mkER N L [(q, n)]) =
    (map (renameOperation [(q, n)]) cops, mkER N L [(q, n)]).
Proof.
  induction cops as [|c cops IH]; intros HF; [reflexivity|].
  apply Forall_cons in HF as [Hc HF]. simpl. rewrite decide_False by exact Hc.
  rewrite (IH HF). reflexivity.
Qed.

Lemma eliminateResetsOps_single ops N L q n :
  q <> n -> Forall (fun o => n ∉ getUsedQubits o) ops -> Forall flatOp ops ->
  Forall (fun o => noReset o = true) ops -> Forall (fun o => distinctControls o = true) ops ->
  exists ops', eliminateResetsOps ops (mkER N L [(q, n)]) = (ops', mkER N L [(q, n)]) /\
               Forall2 (renamedBy q n) ops ops'.
Proof.
  intros Hqn. induction ops as [|op ops IH]; intros Hn Hf Hr Hd.
  - exists []. split; [reflexivity|constructor].
  - apply Forall_cons in Hn as [Hn0 Hn], Hf as [Hf0 Hf], Hr as [Hr0 Hr], Hd as [Hd0 Hd].
    destruct (IH Hn Hf Hr Hd) as (ops' & E & HF2).
    cbn [eliminateResetsOps]. rewrite decide_False by exact (noReset_type op Hr0).
    rewrite decide_False by (cbn [er_map]; discriminate).
    destruct op as [ty cs ts|ty ts qs cls|cops|o reg v].
    + rewrite E. eexists. split; [reflexivity|]. constructor; [|exact HF2].
      intros y. apply rename_single_used; try assumption; try reflexivity.
      apply bool_decide_eq_true in Hd0. exact Hd0.
    + rewrite E. eexists. split; [reflexivity|]. constructor; [|exact HF2].
      intros y. apply rename_single_used; try assumption; try reflexivity.
      apply bool_decide_eq_true in Hd0. exact Hd0.
    + cbn [noReset distinctControls flatOp] in Hr0, Hd0, Hf0.
      rewrite eliminateResetsCompound_single.
      2:{ apply Forall_forall. intros c Hc. apply noReset_type.
          rewrite forallb_forall in Hr0. apply Hr0, list_elem_of_In, Hc. }
      cbn [er_map]. rewrite rename_compound, E. eexists. split; [reflexivity|].
      constructor; [|exact HF2]. intros y.
      rewrite !usedQubits_compound. split.
      * intros (c' & Hc' & Hy). apply list_elem_of_fmap in Hc' as (c & -> & Hc).
        assert (Hcc : isCompoundOperation c = false) by (rewrite Forall_forall in Hf0; exact (Hf0 c Hc)).
        assert (Hcd : NoDup (map cqubit (getControls c))).
        { rewrite forallb_forall in Hd0. specialize (Hd0 c (proj1 (list_elem_of_In _ _) Hc)).
          destruct c; try discriminate; apply bool_decide_eq_true in Hd0; exact Hd0. }
        assert (Hcn : n ∉ getUsedQubits c).
        { intros Hnc. apply Hn0, usedQubits_compound. eauto. }
        apply (rename_single_used c q n y Hcc Hcd Hcn Hqn) in Hy as [[Hy Hne]|[-> Hq]].
        -- left. split; [exists c; split; assumption|exact Hne].
        -- right. split; [reflexivity|exists c; split; assumption].
      * intros [[(c & Hc & Hy) Hne]|[-> (c & Hc & Hq)]];
          exists (renameOperation [(q, n)] c); (split; [apply list_elem_of_fmap; eauto|]);
          assert (Hcc : isCompoundOperation c = false) by (rewrite Forall_forall in Hf0; exact (Hf0 c Hc));
          assert (Hcd : NoDup (map cqubit (getControls c))) by
            (rewrite forallb_forall in Hd0; specialize (Hd0 c (proj1 (list_elem_of_In _ _) Hc));
             destruct c; try discriminate; apply bool_decide_eq_true in Hd0; exact Hd0);
          assert (Hcn : n ∉ getUsedQubits c) by (intros Hnc; apply Hn0, usedQubits_compound; eauto);
          apply (rename_single_used c q n _ Hcc Hcd Hcn Hqn); [left; split; assumption|right; split; [reflexivity|exact Hq]].
    + rewrite E. eexists. split; [reflexivity|]. constructor; [|exact HF2].
      intros y. apply rename_single_used; try assumption; try reflexivity.
      apply bool_decide_eq_true in Hd0. exact Hd0.
Qed.

(** eliminateResets on a circuit that starts with a Reset of qubit q (q
    below nqubits) followed by operations on qubits below nqubits with no
    further Reset, no Compound nested in a Compound and no gate controlled
    twice by the same qubit: the Reset is removed, one qubit nqubits is
    added to the count and to the initial layout, and every following
    operation uses qubit nqubits in place of q and otherwise the same
    qubits. *)
Theorem eliminateResets_reset_renames q ops layout nqubits :
  q < nqubits -> Forall (usesBelow nqubits) ops -> Forall flatOp ops ->
  Forall (fun o => noReset o = true) ops -> Forall (fun o => distinctControls o = true) ops ->
  exists ops',
    eliminateResets (mkQC (NonUnitaryOperation OpType.Reset [q] [] [] :: ops) layout) nqubits =
      (mkQC ops' (smap_assign nqubits nqubits layout), S nqubits) /\
    Forall2 (fun o o' => forall y, y ∈ getUsedQubits o' <->
                           (y ∈ getUsedQubits o /\ y <> q) \/ (y = nqubits /\ q ∈ getUsedQubits o))
            ops ops'.
Proof.
  intros Hq Hu Hf Hr Hd.
  assert (Hn : Forall (fun o => nqubits ∉ getUsedQubits o) ops).
  { eapply Forall_impl; [exact Hu|]. intros o Ho Hno. specialize (Ho _ Hno). lia. }
  destruct (eliminateResetsOps_single ops (S nqubits) (smap_assign nqubits nqubits layout) q nqubits
              ltac:(lia) Hn Hf Hr Hd) as (ops' & E & HF).
  exists ops'. split; [|exact HF].
  unfold eliminateResets. cbn [qc_ops initialLayout].
  replace (eliminateResetsOps (NonUnitaryOperation OpType.Reset [q] [] [] :: ops)
             (mkER nqubits layout []))
    with (ops', mkER (S nqubits) (smap_assign nqubits nqubits layout) [(q, nqubits)]).
  reflexivity.
Qed.

Lemma usesBelow_of_Forall n o : Forall (fun q => q < n) (getUsedQubits o) -> usesBelow n o.
Proof. intros H q Hq. rewrite Forall_forall in H. exact (H q Hq). Qed.

Ltac uses_below := repeat (apply List.Forall_cons; [apply usesBelow_of_Forall; vm_compute;
                                                     repeat constructor|]); apply List.Forall_nil.

Lemma eliminateResets_well_formed_witness :
  eliminateResets resetExample 2 = (resetExampleResult, 4) /\
  Forall (usesBelow 2) (qc_ops resetExample) /\
  (2 <= 4 /\ Forall (fun o => getType o <> OpType.Reset) (qc_ops resetExampleResult) /\
   Forall (usesBelow 4) (qc_ops resetExampleResult)).
Proof.
  assert (E : eliminateResets resetExample 2 = (resetExampleResult, 4)) by (vm_compute; reflexivity).
  assert (H : Forall (usesBelow 2) (qc_ops resetExample)) by (cbn [resetExample qc_ops]; uses_below).
  split; [exact E|]. split; [exact H|].
  exact (eliminateResets_well_formed resetExample 2 resetExampleResult 4 E H).
Defined.

Lemma eliminateResets_layout_witness :
  eliminateResets resetExample 2 = (resetExampleResult, 4) /\
  smap_find 3 (initialLayout resetExampleResult) =
    (if (2 <=? 3) && (3 <? 4) then Some 3 else smap_find 3 (initialLayout resetExample)).
Proof.
  assert (E : eliminateResets resetExample 2 = (resetExampleResult, 4)) by (vm_compute; reflexivity).
  split; [exact E|]. exact (eliminateResets_layout resetExample 2 resetExampleResult 4 E 3).
Defined.

Lemma eliminateResets_no_toplevel_reset_witness :
  let qc := mkQC [cnot 0 1; CompoundOperation [NonUnitaryOperation OpType.Reset [0] [] []; hadamard 0]]
                 [(0, 0); (1, 1)] in
  Forall (fun o => getType o <> OpType.Reset) (qc_ops qc) /\ eliminateResets qc 2 = (qc, 2).
Proof.
  intros qc. assert (H : Forall (fun o => getType o <> OpType.Reset) (qc_ops qc)).
  { repeat apply List.Forall_cons; try apply List.Forall_nil; discriminate. }
  split; [exact H|]. exact (eliminateResets_no_toplevel_reset qc 2 H).
Defined.

Lemma eliminateResets_reset_renames_witness :
  let ops := [cnot 0 1; CompoundOperation [StandardOperation OpType.Z [mkControl 1 Neg] [0];
                                           NonUnitaryOperation OpType.Measure [] [0; 1] [0; 1]]] in
  0 < 2 /\ Forall (usesBelow 2) ops /\ Forall flatOp ops /\
  Forall (fun o => noReset o = true) ops /\ Forall (fun o => distinctControls o = true) ops /\
  exists ops',
    eliminateResets (mkQC (NonUnitaryOperation OpType.Reset [0] [] [] :: ops) [(0, 0); (1, 1)]) 2 =
      (mkQC ops' (smap_assign 2 2 [(0, 0); (1, 1)]), 3) /\
    Forall2 (fun o o' => forall y, y ∈ getUsedQubits o' <->
                           (y ∈ getUsedQubits o /\ y <> 0) \/ (y = 2 /\ 0 ∈ getUsedQubits o))
            ops ops'.
Proof.
  intros ops.
  assert (H1 : 0 < 2) by lia.
  assert (H2 : Forall (usesBelow 2) ops) by (cbn [ops]; uses_below).
  assert (H3 : Forall flatOp ops) by (repeat constructor).
  assert (H4 : Forall (fun o => noReset o = true) ops) by (repeat constructor).
  assert (H5 : Forall (fun o => distinctControls o = true) ops) by (repeat constructor).
  split; [exact H1|]. split; [exact H2|]. split; [exact H3|]. split; [exact H4|]. split; [exact H5|].
  exact (eliminateResets_reset_renames 0 ops [(0, 0); (1, 1)] 2 H1 H2 H3 H4 H5).
Defined.

(* ------------------------------------------------------------------ *)
(** ** [cancelCNOTs] on classical circuits *)

Lemma controls_frame cs s s' :
  (forall q, q ∈ map cqubit cs -> s q = s' q) ->
  forallb (controlHolds s) cs = forallb (controlHolds s') cs.
Proof.
  induction cs as [|c cs IH]; intros H; simpl; [reflexivity|].
  f_equal.
  - unfold controlHolds. rewrite (H (cqubit c)); [reflexivity|]. simpl. left.
  - apply IH. intros q Hq. apply H. simpl. right. exact Hq.
Qed.

Lemma apply_frame op s q : q ∉ acts op -> applyClassical op s q = s q.
Proof.
  intros Hq. unfold acts in Hq.
  destruct op as [ty cs ts| | |]; try reflexivity.
  destruct ty; try reflexivity.
  - destruct ts as [|t [|]]; try reflexivity. simpl.
    destruct (forallb _ _); [|reflexivity].
    destruct (Nat.eqb_spec q t); [|reflexivity].
    subst. exfalso. apply Hq. simpl. apply elem_of_app. right. left.
  - destruct cs; [|reflexivity]. destruct ts as [|a [|b [|]]]; try reflexivity. simpl.
    destruct (Nat.eqb_spec q a); [subst; exfalso; apply Hq; simpl; left|].
    destruct (Nat.eqb_spec q b); [subst; exfalso; apply Hq; simpl; right; left|].
    reflexivity.
Qed.

Lemma apply_local op s s' :
  (forall q, q ∈ acts op -> s q = s' q) ->
  forall q, q ∈ acts op -> applyClassical op s q = applyClassical op s' q.
Proof.
  intros H q Hq. unfold acts in *.
  destruct op as [ty cs ts| | |]; simpl in *; try (apply H; exact Hq).
  destruct ty; try (apply H; exact Hq).
  - destruct ts as [|t [|]]; try (apply H; exact Hq).
    rewrite (controls_frame cs s s').
    2:{ intros r Hr. apply H. apply elem_of_app. left. exact Hr. }
    destruct (forallb _ _); [|apply H; exact Hq].
    destruct (Nat.eqb_spec q t); [|apply H; exact Hq].
    subst. f_equal. apply H. apply elem_of_app. right. left.
  - destruct cs; [|apply H; exact Hq]. destruct ts as [|a [|b [|]]]; try (apply H; exact Hq).
    simpl in *.
    destruct (Nat.eqb_spec q a); [apply H; right; left|].
    destruct (Nat.eqb_spec q b); [apply H; left|].
    apply H; exact Hq.
Qed.

Lemma apply_proper op s s' :
  (forall q, s q = s' q) -> forall q, applyClassical op s q = applyClassical op s' q.
Proof.
  intros H q. destruct (decide (q ∈ acts op)) as [Hq|Hq].
  - apply apply_local; auto.
  - rewrite !apply_frame by exact Hq. apply H.
Qed.



Lemma run_app l1 l2 s : runClassical (l1 ++ l2) s = runClassical l2 (runClassical l1 s).
Proof. unfold runClassical. apply fold_left_app. Qed.

Lemma run_proper l s s' :
  (forall q, s q = s' q) -> forall q, runClassical l s q = runClassical l s' q.
Proof.
  revert s s'. induction l as [|o l IH]; intros s s' H q; simpl; [apply H|].
  apply IH. apply apply_proper. exact H.
Qed.

Lemma run_cons o l s : runClassical (o :: l) s = runClassical l (applyClassical o s).
Proof. reflexivity. Qed.

Lemma sem_equiv_refl l : sem_equiv l l.
Proof. intros s q. reflexivity. Qed.






















Lemma vat_lane N ops0 i ops dag q :
  CCInv N ops0 i ops dag -> q < N ->
  vat dag q = Ok (List.filter (onLane ops q) (seq 0 i)).
Proof.
  intros Hinv Hq. unfold vat. rewrite (cc_lanes _ _ _ _ _ Hinv), map_seq_lookup.
  rewrite (proj2 (Nat.ltb_lt q N) Hq). reflexivity.
Qed.




Lemma onLane_false_indep ops q0 q1 m M :
  ops !! m = Some M -> onLane ops q0 m = false -> onLane ops q1 m = false -> indep [q0; q1] M.
Proof.
  unfold onLane, indep, isIdentity. intros HM. rewrite HM.
  destruct (decide (getType M = OpType.I)) as [HI|HI]; [intros; left; exact HI|].
  simpl. intros H0 H1. right. intros q Hq Hin.
  apply list_elem_of_In, nat_mem_In in Hin.
  apply list_elem_of_In in Hq. destruct Hq as [<-|[<-|[]]]; congruence.
Qed.










Lemma cnot_not_swap c t : isSWAPOp (cnot c t) = false.
Proof. reflexivity. Qed.

Lemma swap_not_cnot a b : isCNOTOp (swapOp a b) = false.
Proof. reflexivity. Qed.

Lemma apply_cnot c t s q :
  applyClassical (cnot c t) s q = if (q =? t) && s c then negb (s t) else s q.
Proof.
  unfold cnot. simpl. unfold controlHolds. simpl. rewrite andb_true_r.
  destruct (s c), (q =? t); reflexivity.
Qed.

Lemma apply_swap a b s q :
  applyClassical (swapOp a b) s q = if q =? a then s b else if q =? b then s a else s q.
Proof. reflexivity. Qed.

Lemma apply_id ts s q : applyClassical (idOp ts) s q = s q.
Proof. reflexivity. Qed.

Lemma run3 A B C s q :
  runClassical [A; B; C] s q = applyClassical C (applyClassical B (applyClassical A s)) q.
Proof. reflexivity. Qed.


Ltac bool_cases :=
  repeat first
    [ rewrite apply_cnot | rewrite apply_swap | rewrite apply_id
    | rewrite Nat.eqb_refl
    | match goal with
      | H : ?x <> ?y |- context [?x =? ?y] => rewrite (proj2 (Nat.eqb_neq x y) H)
      | H : ?x <> ?y |- context [?y =? ?x] => rewrite (proj2 (Nat.eqb_neq y x) (not_eq_sym H))
      | |- context [?q =? ?y] => destruct (Nat.eqb_spec q y); subst
      end ];
  simpl;
  repeat match goal with |- context [?s ?x] => is_var s; destruct (s x); simpl end;
  try reflexivity; try congruence.














Lemma mid_indep (ops : list Operation) mid lo hi q0 q1 :
  (forall M, M ∈ mid -> exists m, lo < m < hi /\ ops !! m = Some M) ->
  (forall m, lo < m < hi -> onLane ops q0 m = false) ->
  (forall m, lo < m < hi -> onLane ops q1 m = false) ->
  Forall (indep [q0; q1]) mid.
Proof.
  intros Hin H0 H1. apply Forall_forall. intros M HM.
  destruct (Hin M HM) as [m [Hm HMm]].
  apply (onLane_false_indep ops q0 q1 m M HMm); [apply H0|apply H1]; exact Hm.
Qed.









Lemma classical_cnot N c t : c <> t -> c < N -> t < N -> classicalGate N (cnot c t).
Proof.
  intros Hct Hc Ht. split.
  - constructor; [|constructor; [intros H; inversion H|constructor]].
    intros H. apply list_elem_of_In in H. simpl in H. destruct H as [H|[]]. congruence.
  - repeat constructor; assumption.
Qed.










Lemma cancelCNOTsStep_length ops dag i ops' dag' :
  cancelCNOTsStep (ops, dag) i = Ok (ops', dag') -> length ops' = length ops.
Proof.
  unfold cancelCNOTsStep, res_bind. cbv beta zeta.
  repeat match goal with
  | |- context [match ?x with _ => _ end] => destruct x
  end; intros H; try discriminate; injection H as <- <-; rewrite ?length_insert; reflexivity.
Qed.

Lemma removeIdentitiesOps_length ops : length (removeIdentitiesOps ops) <= length ops.
Proof.
  induction ops as [|op ops IH]; simpl; [lia|].
  destruct (isIdentity op); [lia|].
  destruct op as [| |cops|]; simpl; try lia.
  destruct (filter _ cops) as [|a [|b rest]]; simpl; lia.
Qed.

(** [CircuitOptimizer::cancelCNOTs] never adds operations: when it succeeds,
    the circuit has at most as many operations as before and the same
    initial layout. *)
Theorem cancelCNOTs_length qc qc' :
  cancelCNOTs qc = Ok qc' ->
  length (qc_ops qc') <= length (qc_ops qc) /\ initialLayout qc' = initialLayout qc.
Proof.
  unfold cancelCNOTs.
  destruct (res_fold_left cancelCNOTsStep _ _) as [[ops dag]|e] eqn:Hf; simpl; [|discriminate].
  intros H. injection H as <-. simpl. split; [|reflexivity].
  assert (Hlen : length (fst (ops, dag)) = length (qc_ops qc)).
  { refine (res_fold_left_inv (fun st => length (fst st) = length (qc_ops qc)) _ _ _ _
             _ _ Hf); [|reflexivity].
    intros [o d] [o' d'] x Ha Hx. simpl in *. rewrite <- Ha.
    exact (cancelCNOTsStep_length _ _ _ _ _ Hx). }
  simpl in Hlen. rewrite <- Hlen. apply removeIdentitiesOps_length.
Qed.

Lemma cancelCNOTs_length_witness :
  cancelCNOTs (mkQC [cnot 0 1; cnot 0 1; hadamard 2] [(0, 0); (1, 1); (2, 2)]) =
    Ok (mkQC [hadamard 2] [(0, 0); (1, 1); (2, 2)]) /\
  length [hadamard 2] <= length [cnot 0 1; cnot 0 1; hadamard 2] /\
  initialLayout (mkQC [hadamard 2] [(0, 0); (1, 1); (2, 2)]) =
    initialLayout (mkQC [cnot 0 1; cnot 0 1; hadamard 2] [(0, 0); (1, 1); (2, 2)]).
Proof.
  assert (H : cancelCNOTs (mkQC [cnot 0 1; cnot 0 1; hadamard 2] [(0, 0); (1, 1); (2, 2)]) =
              Ok (mkQC [hadamard 2] [(0, 0); (1, 1); (2, 2)])) by (vm_compute; reflexivity).
  split; [exact H|]. exact (cancelCNOTs_length _ _ H).
Defined.

(* ------------------------------------------------------------------ *)
(** ** [swapReconstruction] on classical circuits *)


Lemma posCNOT_cnot c t : posCNOTControl (cnot c t) = Some c.
Proof. reflexivity. Qed.









Lemma swapReconstructionStep_length ops dag i ops' dag' :
  swapReconstructionStep (ops, dag) i = Ok (ops', dag') -> length ops' = length ops.
Proof.
  unfold swapReconstructionStep, res_bind. cbv beta zeta.
  repeat match goal with
  | |- context [match ?x with _ => _ end] => destruct x
  end; intros H; try discriminate; injection H as <- <-; rewrite ?length_insert; reflexivity.
Qed.

(** [CircuitOptimizer::swapReconstruction] never adds operations: when it
    succeeds, the circuit has at most as many operations as before and the
    same initial layout. *)
Theorem swapReconstruction_length qc qc' :
  swapReconstruction qc = Ok qc' ->
  length (qc_ops qc') <= length (qc_ops qc) /\ initialLayout qc' = initialLayout qc.
Proof.
  unfold swapReconstruction.
  destruct (res_fold_left swapReconstructionStep _ _) as [[ops dag]|e] eqn:Hf; simpl; [|discriminate].
  intros H. injection H as <-. simpl. split; [|reflexivity].
  assert (Hlen : length (fst (ops, dag)) = length (qc_ops qc)).
  { refine (res_fold_left_inv (fun st => length (fst st) = length (qc_ops qc)) _ _ _ _
             _ _ Hf); [|reflexivity].
    intros [o d] [o' d'] x Ha Hx. simpl in *. rewrite <- Ha.
    exact (swapReconstructionStep_length _ _ _ _ _ Hx). }
  simpl in Hlen. rewrite <- Hlen. apply removeIdentitiesOps_length.
Qed.

Lemma swapReconstruction_length_witness :
  swapReconstruction (mkQC [cnot 0 1; cnot 0 1; hadamard 2] [(0, 0); (1, 1); (2, 2)]) =
    Ok (mkQC [hadamard 2] [(0, 0); (1, 1); (2, 2)]) /\
  length [hadamard 2] <= length [cnot 0 1; cnot 0 1; hadamard 2] /\
  initialLayout (mkQC [hadamard 2] [(0, 0); (1, 1); (2, 2)]) =
    initialLayout (mkQC [cnot 0 1; cnot 0 1; hadamard 2] [(0, 0); (1, 1); (2, 2)]).
Proof.
  assert (H : swapReconstruction (mkQC [cnot 0 1; cnot 0 1; hadamard 2] [(0, 0); (1, 1); (2, 2)]) =
              Ok (mkQC [hadamard 2] [(0, 0); (1, 1); (2, 2)])) by (vm_compute; reflexivity).
  split; [exact H|]. exact (swapReconstruction_length _ _ H).
Defined.

Lemma laneFrom_outside ops n p :
  (forall i, In i (seq 0 n) -> forall q, In q (slotQubits ops i) -> q <> p) ->
  laneFrom ops 0 n p = [].
Proof.
  intros H. destruct (laneFrom ops 0 n p) as [|x l] eqn:E; [reflexivity|exfalso].
  assert (Hx : In x (laneFrom ops 0 n p)) by (rewrite E; left; reflexivity).
  pose proof (in_laneFrom _ _ _ _ _ Hx) as Hr.
  apply (count_occ_In Nat.eq_dec) in Hx. rewrite count_laneFrom in Hx by exact Hr.
  apply count_occ_In in Hx. exact (H x ltac:(apply in_seq; lia) p Hx eq_refl).
Qed.

Lemma in_laneFrom_iff ops n p x :
  In x (laneFrom ops 0 n p) <-> x < n /\ In p (slotQubits ops x).
Proof.
  split.
  - intros Hx. pose proof (in_laneFrom _ _ _ _ _ Hx) as Hr.
    apply (count_occ_In Nat.eq_dec) in Hx. rewrite count_laneFrom in Hx by exact Hr.
    split; [lia|]. exact (proj2 (count_occ_In Nat.eq_dec _ _) Hx).
  - intros [Hlt Hp]. apply (count_occ_In Nat.eq_dec).
    rewrite count_laneFrom by lia. apply count_occ_In, Hp.
Qed.

(* ------------------------------------------------------------------ *)
(** ** [reorderOperations]: order on each qubit, dropped operations *)

(** What a successful run of [reorderOperations] returns: the slots
    [out], each once, every one on some lane, every lane in its order. *)
Lemma reorderOperations_out fuel qc qc' :
  reorderOperations fuel qc = Ok qc' ->
  exists out, qc' = with_ops qc (omap (fun i => qc_ops qc !! i) out) /\ NoDup out /\
    (forall x, x ∈ out -> x < length (qc_ops qc) /\ exists p, In p (slotQubits (qc_ops qc) x)) /\
    (forall p, laneFrom (qc_ops qc) 0 (length (qc_ops qc)) p `sublist_of` out).
Proof.
  unfold reorderOperations. rewrite constructDAG_lanes.
  set (ops := qc_ops qc). set (h := S (highestPhysicalQubit qc)).
  destruct (forallb _ (seq 0 (length ops))) eqn:Hfit; [|discriminate]. cbn [res_bind].
  set (lanes := map (laneFrom ops 0 (length ops)) (seq 0 h)).
  destruct (schedule fuel lanes (slotActs ops) (length lanes) (repeat 0 (length lanes)) [])
    as [out|e] eqn:Hsch; cbn [res_bind]; [|discriminate].
  intros H. injection H as <-.
  destruct (schedule_covers _ _ _ _ Hsch) as (Hnd & Hsub & Hel).
  assert (Hlane : forall q, lane_at lanes q = if q <? h then laneFrom ops 0 (length ops) q else []).
  { intros q. unfold lane_at, lanes. rewrite map_seq_lookup. destruct (q <? h); reflexivity. }
  exists out. split; [reflexivity|]. split; [exact Hnd|]. split.
  - intros x Hx. destruct (Hel x Hx) as [q Hq]. rewrite Hlane in Hq.
    destruct (q <? h); [|inversion Hq].
    apply list_elem_of_In, in_laneFrom_iff in Hq as [Hlt Hp]. split; [exact Hlt|exists q; exact Hp].
  - intros p. specialize (Hsub p). rewrite Hlane in Hsub.
    destruct (Nat.ltb_spec p h); [exact Hsub|].
    rewrite laneFrom_outside; [apply sublist_nil_l|].
    intros i Hi q Hq ->. rewrite forallb_forall in Hfit.
    specialize (Hfit i Hi). rewrite forallb_forall in Hfit.
    specialize (Hfit p Hq). apply Nat.ltb_lt in Hfit. lia.
Qed.

Lemma filter_omap_ops (g : Operation -> bool) (f : nat -> bool) (ops : list Operation) (l : list nat) :
  (forall i op, ops !! i = Some op -> f i = g op) ->
  Forall (fun x => is_Some (ops !! x)) l ->
  List.filter g (omap (fun i => ops !! i) l) = omap (fun i => ops !! i) (List.filter f l).
Proof.
  intros Hfg. induction 1 as [|x l [op Hop] Hl IH]; [reflexivity|].
  simpl. rewrite Hop, (Hfg _ _ Hop). simpl. destruct (g op); simpl; [rewrite Hop; f_equal|]; exact IH.
Qed.

Lemma filter_ops_seq (g : Operation -> bool) (f : nat -> bool) (ops : list Operation) :
  (forall i op, ops !! i = Some op -> f i = g op) ->
  List.filter g ops = omap (fun i => ops !! i) (List.filter f (seq 0 (length ops))).
Proof.
  revert f. induction ops as [|o os IH]; intros f Hfg; [reflexivity|].
  cbn [length seq]. rewrite <- seq_shift. simpl List.filter.
  rewrite (Hfg 0 o eq_refl).
  assert (E : omap (fun i => (o :: os) !! i) (List.filter f (map S (seq 0 (length os))))
              = omap (fun i => os !! i) (List.filter (fun x => f (S x)) (seq 0 (length os)))).
  { clear IH Hfg. induction (seq 0 (length os)) as [|y ys IHy]; [reflexivity|]. simpl in *.
    destruct (f (S y)); [|exact IHy]. simpl. destruct (os !! y); [f_equal|]; exact IHy. }
  rewrite <- (IH (fun x => f (S x))) in E by (intros i op Hi; exact (Hfg (S i) op Hi)).
  destruct (g o); [|symmetry; exact E]. rewrite <- E. reflexivity.
Qed.

Lemma sublist_filterb (f : nat -> bool) l out :
  l `sublist_of` out -> NoDup out -> (forall y, y ∈ out -> (f y = true <-> y ∈ l)) ->
  List.filter f out = l.
Proof.
  induction 1 as [|x l1 l2 Hs IH|x l1 l2 Hs IH]; intros Hnd Hf.
  - reflexivity.
  - apply NoDup_cons in Hnd as [Hx Hnd].
    simpl. rewrite (proj2 (Hf x ltac:(constructor)) ltac:(constructor)).
    f_equal. apply IH; [exact Hnd|]. intros y Hy. rewrite Hf by (constructor; exact Hy).
    rewrite elem_of_cons. split; [intros [->|Hy2]; [contradiction|exact Hy2]|intros Hy2; right; exact Hy2].
  - apply NoDup_cons in Hnd as [Hx Hnd]. simpl.
    destruct (f x) eqn:E.
    + exfalso. apply (proj1 (Hf x ltac:(constructor))) in E.
      apply Hx. exact (elem_of_sublist _ _ _ E Hs).
    + apply IH; [exact Hnd|]. intros y Hy. apply Hf. constructor. exact Hy.
Qed.

Lemma concat_repeat_filterb (f : nat -> bool) (c : nat -> nat) l :
  (forall k, In k l -> c k = if f k then 1 else 0) ->
  concat (map (fun k => repeat k (c k)) l) = List.filter f l.
Proof.
  induction l as [|k l IH]; intros Hc; simpl; [reflexivity|].
  rewrite (Hc k (or_introl eq_refl)).
  destruct (f k); simpl; [f_equal|]; apply IH; intros; apply Hc; right; assumption.
Qed.


(** [CircuitOptimizer::reorderOperations] keeps the order on every qubit:
    when it succeeds, the operations whose DAG lanes include qubit [p]
    appear in the new circuit in the same relative order as before. *)
Theorem reorderOperations_lane_order fuel qc qc' p :
  reorderOperations fuel qc = Ok qc' ->
  List.filter (fun op => nat_mem p (laneQubits op)) (qc_ops qc') =
  List.filter (fun op => nat_mem p (laneQubits op)) (qc_ops qc).
Proof.
  intros H. apply reorderOperations_out in H as (out & -> & Hnd & Hel & Hsub).
  cbn [qc_ops with_ops]. set (ops := qc_ops qc) in *.
  set (f := fun i => nat_mem p (slotQubits ops i)).
  assert (Hfg : forall i op, ops !! i = Some op -> f i = nat_mem p (laneQubits op))
    by (intros i op Hi; unfold f, slotQubits; rewrite Hi; reflexivity).
  assert (Hsome : Forall (fun x => is_Some (ops !! x)) out).
  { apply Forall_forall. intros x Hx. apply lookup_lt_is_Some_2, (Hel x Hx). }
  rewrite (filter_omap_ops _ f ops out Hfg Hsome), (filter_ops_seq _ f ops Hfg).
  f_equal. specialize (Hsub p). set (lp := laneFrom ops 0 (length ops) p) in *.
  assert (Hndp : NoDup lp) by exact (sublist_NoDup _ _ Hnd Hsub).
  assert (E1 : List.filter f out = lp).
  { apply sublist_filterb; [exact Hsub|exact Hnd|]. intros y Hy.
    unfold f. rewrite nat_mem_In, list_elem_of_In. unfold lp. rewrite in_laneFrom_iff.
    pose proof (proj1 (Hel y Hy)). tauto. }
  rewrite E1. unfold lp, laneFrom. apply concat_repeat_filterb.
  intros k Hk. apply in_seq in Hk.
  rewrite <- (count_laneFrom ops 0 (length ops) p k) by lia. fold lp.
  apply NoDup_ListNoDup in Hndp.
  pose proof (proj1 (NoDup_count_occ Nat.eq_dec lp) Hndp k) as Hc.
  unfold f. destruct (nat_mem p (slotQubits ops k)) eqn:Ef.
  - apply nat_mem_In in Ef. assert (Hin : In k lp) by (apply in_laneFrom_iff; split; [lia|exact Ef]).
    apply (count_occ_In Nat.eq_dec) in Hin. lia.
  - apply (count_occ_not_In Nat.eq_dec). unfold lp. rewrite in_laneFrom_iff.
    intros [_ Hp]. apply nat_mem_In in Hp. congruence.
Qed.

Lemma Permutation_omap {A B} (g : A -> option B) l l' :
  Permutation l l' -> Permutation (omap g l) (omap g l').
Proof.
  induction 1 as [|x l l' _ IH|x y l|l l' l'' _ IH1 _ IH2]; simpl.
  - constructor.
  - destruct (g x); [constructor|]; exact IH.
  - destruct (g x), (g y); try constructor; reflexivity.
  - etransitivity; [exact IH1|exact IH2].
Qed.

(** [CircuitOptimizer::reorderOperations] only keeps operations that sit
    on some DAG lane: when it succeeds, the new circuit is a permutation of
    the operations that touch at least one qubit lane, so each of those
    appears exactly once, and an operation on no lane (e.g. a
    [ShowProbabilities], or a Compound without qubits) is dropped. *)
Theorem reorderOperations_drops_laneless fuel qc qc' :
  reorderOperations fuel qc = Ok qc' ->
  Permutation (qc_ops qc')
    (List.filter (fun op => negb (length (laneQubits op) =? 0)) (qc_ops qc)).
Proof.
  intros H. apply reorderOperations_out in H as (out & -> & Hnd & Hel & Hsub).
  cbn [qc_ops with_ops]. set (ops := qc_ops qc) in *.
  set (f := fun i => negb (length (slotQubits ops i) =? 0)).
  assert (Hfg : forall i op, ops !! i = Some op -> f i = negb (length (laneQubits op) =? 0))
    by (intros i op Hi; unfold f, slotQubits; rewrite Hi; reflexivity).
  rewrite (filter_ops_seq _ f ops Hfg). apply Permutation_omap.
  apply NoDup_Permutation.
  - exact Hnd.
  - apply NoDup_ListNoDup, List.NoDup_filter, seq_NoDup.
  - intros x. rewrite !list_elem_of_In, filter_In, in_seq. split.
    + intros Hx. apply list_elem_of_In, Hel in Hx as [Hlt [p Hp]]. split; [lia|].
      unfold f. destruct (slotQubits ops x); [contradiction|reflexivity].
    + intros [Hx Hf]. unfold f in Hf.
      destruct (slotQubits ops x) as [|p ps] eqn:Es; [discriminate|].
      apply list_elem_of_In. refine (elem_of_sublist _ _ _ _ (Hsub p)).
      apply list_elem_of_In, in_laneFrom_iff. rewrite Es. split; [lia|left; reflexivity].
Qed.

(** The top qubit is scheduled first, so [H 1] moves before [H 0]; on
    qubit 0 the order [H 0], [CX 0 1] is kept. *)
Lemma reorderOperations_lane_order_witness :
  let qc := mkQC [hadamard 0; hadamard 1; cnot 0 1] [(0, 0); (1, 1)] in
  let qc' := mkQC [hadamard 1; hadamard 0; cnot 0 1] [(0, 0); (1, 1)] in
  reorderOperations 10 qc = Ok qc' /\
  List.filter (fun op => nat_mem 0 (laneQubits op)) (qc_ops qc') =
  List.filter (fun op => nat_mem 0 (laneQubits op)) (qc_ops qc).
Proof.
  intros qc qc'.
  assert (H : reorderOperations 10 qc = Ok qc') by (vm_compute; reflexivity).
  split; [exact H | exact (reorderOperations_lane_order 10 qc qc' 0 H)].
Defined.

(** The [ShowProbabilities] between the two Hadamards is on no lane and
    is gone after the reordering. *)
Lemma reorderOperations_drops_laneless_witness :
  let qc := mkQC [hadamard 0; NonUnitaryOperation OpType.ShowProbabilities [] [] []; hadamard 1]
              [(0, 0); (1, 1)] in
  let qc' := mkQC [hadamard 1; hadamard 0] [(0, 0); (1, 1)] in
  reorderOperations 10 qc = Ok qc' /\
  Permutation (qc_ops qc') (List.filter (fun op => negb (length (laneQubits op) =? 0)) (qc_ops qc)).
Proof.
  intros qc qc'.
  assert (H : reorderOperations 10 qc = Ok qc') by (vm_compute; reflexivity).
  split; [exact H | exact (reorderOperations_drops_laneless 10 qc qc' H)].
Defined.

(* ------------------------------------------------------------------ *)
(** ** [constructDAG]: errors and lanes *)

Lemma laneFrom_sorted ops s m p : StronglySorted le (laneFrom ops s m p).
Proof.
  revert s. induction m as [|m IH]; intros s; [constructor|].
  change (laneFrom ops s (S m) p)
    with (repeat s (count_occ Nat.eq_dec (slotQubits ops s) p) ++ laneFrom ops (S s) m p).
  assert (Hge : forall y, In y (laneFrom ops (S s) m p) -> s <= y)
    by (intros y Hy; apply in_laneFrom in Hy; lia).
  induction (count_occ Nat.eq_dec (slotQubits ops s) p) as [|c IHc]; simpl; [apply IH|].
  constructor; [exact IHc|]. apply List.Forall_forall. intros y Hy.
  apply in_app_or in Hy as [Hy|Hy]; [apply repeat_spec in Hy; lia|exact (Hge y Hy)].
Qed.

Lemma forallb_false_ex {A} (f : A -> bool) l :
  forallb f l = false -> exists x, In x l /\ f x = false.
Proof.
  induction l as [|x l IH]; simpl; [discriminate|]. intros H.
  destruct (f x) eqn:E; simpl in H.
  - destruct (IH H) as (y & Hy & Hf). exists y. split; [right; exact Hy|exact Hf].
  - exists x. split; [left; reflexivity|exact E].
Qed.

(** [CircuitOptimizer::constructDAG] fails, with an out-of-range error
    and no other error, exactly when some operation pushes onto a qubit
    above the highest physical qubit of the initial layout.  Otherwise it
    has one lane per qubit [0 .. highestPhysicalQubit], and lane [q] lists,
    in program order, the indices of the operations that push onto [q]. *)
Theorem constructDAG_lanes_spec qc :
  (constructDAG qc = Err OutOfRange <->
   exists i op q, qc_ops qc !! i = Some op /\ In q (laneQubits op) /\ highestPhysicalQubit qc < q) /\
  (forall e, constructDAG qc = Err e -> e = OutOfRange) /\
  (forall dag, constructDAG qc = Ok dag ->
     length dag = S (highestPhysicalQubit qc) /\
     forall q, q <= highestPhysicalQubit qc -> exists lane, dag !! q = Some lane /\
       StronglySorted le lane /\
       forall i, In i lane <-> exists op, qc_ops qc !! i = Some op /\ In q (laneQubits op)).
Proof.
  rewrite constructDAG_lanes.
  set (ops := qc_ops qc). set (h := highestPhysicalQubit qc).
  assert (Hslot : forall i, slotQubits ops i = match ops !! i with Some op => laneQubits op | None => [] end)
    by reflexivity.
  destruct (forallb _ (seq 0 (length ops))) eqn:Hfit.
  - rewrite forallb_forall in Hfit. split; [|split].
    + split; [discriminate|]. intros (i & op & q & Hi & Hq & Hlt).
      assert (Hin : In i (seq 0 (length ops))) by (apply in_seq; apply lookup_lt_Some in Hi; lia).
      specialize (Hfit i Hin). rewrite forallb_forall in Hfit.
      unfold slotQubits in Hfit. rewrite Hi in Hfit. specialize (Hfit q Hq).
      apply Nat.ltb_lt in Hfit. lia.
    + intros e H. discriminate.
    + intros dag H.
      assert (Hd : dag = map (laneFrom ops 0 (length ops)) (seq 0 (S h)))
        by (injection H; intros; symmetry; assumption).
      subst dag. rewrite length_map, length_seq. split; [reflexivity|].
      intros q Hq. exists (laneFrom ops 0 (length ops) q).
      split; [|split; [apply laneFrom_sorted|]].
      * rewrite list_lookup_fmap, lookup_seq_lt by lia. reflexivity.
      * intros i. rewrite in_laneFrom_iff, Hslot. split.
        -- intros [Hi Hin]. destruct (ops !! i) as [op|]; [exists op; split; [reflexivity|exact Hin]|contradiction].
        -- intros (op & Hi & Hin). rewrite Hi. split; [apply lookup_lt_Some in Hi; exact Hi|exact Hin].
  - split; [|split].
    + split; [intros _|reflexivity].
      apply forallb_false_ex in Hfit as (i & Hi & Hf). apply forallb_false_ex in Hf as (q & Hq & Hlt).
      apply Nat.ltb_ge in Hlt. rewrite Hslot in Hq.
      destruct (ops !! i) as [op|] eqn:Hop; [|contradiction].
      exists i, op, q. split; [exact Hop|]. split; [exact Hq|]. unfold h. lia.
    + intros e H. injection H as <-. reflexivity.
    + intros dag H. discriminate.
Qed.

(* ------------------------------------------------------------------ *)
(** ** [decomposeSWAP] on classical circuits *)

Lemma decomposeSWAPOp_classical n op :
  classicalGate n op ->
  exists l, decomposeSWAPOp false op = Ok l /\ Forall (classicalGate n) l /\
    Forall (fun o => getType o = OpType.X) l /\ sem_equiv l [op].
Proof.
  destruct op as [ty cs ts| | |]; simpl; try contradiction.
  destruct ty; try contradiction.
  - destruct ts as [|t [|]]; try contradiction. intros Hc.
    exists [StandardOperation OpType.X cs [t]].
    split; [reflexivity|]. split; [constructor; [exact Hc|constructor]|].
    split; [constructor; [reflexivity|constructor]|apply sem_equiv_refl].
  - destruct cs; [|contradiction]. destruct ts as [|a [|b [|]]]; try contradiction.
    intros (Hab & Ha & Hb). exists (swapReplacement false a b).
    split; [reflexivity|]. split; [|split].
    + unfold swapReplacement.
      repeat apply Forall_cons_2; try apply Forall_nil_2; apply classical_cnot; auto.
    + unfold swapReplacement. repeat constructor.
    + intros s q. unfold swapReplacement. rewrite run3.
      change (runClassical [StandardOperation OpType.SWAP [] [a; b]] s q)
        with (applyClassical (swapOp a b) s q).
      bool_cases.
Qed.

(** [CircuitOptimizer::decomposeSWAP] without a directed architecture on
    a circuit of classical gates (multi-controlled X and uncontrolled SWAP
    on distinct qubits): it succeeds, keeps the initial layout, leaves only
    X gates, all classical, and every classical basis state is mapped as
    by the original circuit. *)
Theorem decomposeSWAP_preserves_classical qc n :
  Forall (classicalGate n) (qc_ops qc) ->
  exists qc', decomposeSWAP qc false = Ok qc' /\ initialLayout qc' = initialLayout qc /\
    Forall (classicalGate n) (qc_ops qc') /\ Forall (fun o => getType o = OpType.X) (qc_ops qc') /\
    forall s q, runClassical (qc_ops qc') s q = runClassical (qc_ops qc) s q.
Proof.
  unfold decomposeSWAP. intros H.
  assert (Hops : exists ops', decomposeSWAPOps false (qc_ops qc) = Ok ops' /\
            Forall (classicalGate n) ops' /\ Forall (fun o => getType o = OpType.X) ops' /\
            sem_equiv ops' (qc_ops qc)).
  { unfold decomposeSWAPOps. induction H as [|op ops Hop Hops IH]; simpl.
    - exists []. split; [reflexivity|]. split; [apply Forall_nil_2|].
      split; [apply Forall_nil_2|apply sem_equiv_refl].
    - destruct IH as (ys & Hys & Hc & Hx & Hs).
      destruct (decomposeSWAPOp_classical n op Hop) as (l & Hl & Hlc & Hlx & Hls).
      assert (E : (match op with
                   | StandardOperation _ _ _ => decomposeSWAPOp false op
                   | CompoundOperation cops =>
                       let* cops' := res_concat_map (decomposeSWAPOp false) cops in
                       Ok [CompoundOperation cops']
                   | _ => Ok [op]
                   end) = Ok l).
      { destruct op; simpl in Hop; try contradiction. exact Hl. }
      rewrite E. simpl. rewrite Hys. simpl. exists (l ++ ys).
      split; [reflexivity|]. split; [apply Forall_app; split; assumption|].
      split; [apply Forall_app; split; assumption|].
      intros s q. rewrite run_app, run_cons.
        rewrite (run_proper ys _ _ (Hls s)). apply Hs. }
  destruct Hops as (ops' & E & Hc & Hx & Hs). rewrite E. simpl.
  exists (with_ops qc ops'). split; [reflexivity|]. split; [reflexivity|].
  split; [exact Hc|]. split; [exact Hx|]. intros s q. apply Hs.
Qed.

(** A SWAP followed by a CNOT on two qubits. *)
Lemma decomposeSWAP_preserves_classical_witness :
  let qc := mkQC [swapOp 0 1; cnot 1 0] [(0, 0); (1, 1)] in
  Forall (classicalGate 2) (qc_ops qc) /\
  exists qc', decomposeSWAP qc false = Ok qc' /\ initialLayout qc' = initialLayout qc /\
    Forall (classicalGate 2) (qc_ops qc') /\ Forall (fun o => getType o = OpType.X) (qc_ops qc') /\
    forall s q, runClassical (qc_ops qc') s q = runClassical (qc_ops qc) s q.
Proof.
  intros qc.
  assert (H : Forall (classicalGate 2) (qc_ops qc)).
  { apply Forall_cons_2; [simpl; lia|]. apply Forall_cons_2; [|apply Forall_nil_2].
    cbn. split; [apply NoDup_cons; split; [set_solver|apply NoDup_singleton]|].
    apply Forall_cons_2; [lia|]. apply Forall_cons_2; [lia|apply Forall_nil_2]. }
  split; [exact H | exact (decomposeSWAP_preserves_classical qc 2 H)].
Defined.
